(** * cdk-proserve-lib: constructs and generator scripts

    A shallow embedding of

    - [src/constructs/ec2-image-builder-start/index.ts]
      (class [Ec2ImageBuilderStart]),
    - the [DynamoDBProvisionTable] construct,
    - the WAF managed-rule enum generator
      ([generateAndInjectAwsManagedRuleEnum]),
    - the README generator ([update-readme-library.ts]),

    together with the properties the specification states about them.

    Conventions.  A JavaScript string is a [string]: a sequence of
    code units.  Literals of the sources are ASCII except for the emoji
    of the README headings, which appear here in their UTF-8 encoding;
    the character classes of the regular expressions ([\s], [[A-Z]],
    [[a-z]]) and the case conversions are the ASCII ones.  Numbers that
    the sources only use as lengths, counts and whole seconds are [nat],
    [N] or [Z].  A [throw] is the [Throw] completion; effects on the
    file system, the console and the construct tree are a state passed
    explicitly. *)

From Stdlib Require Import ZArith NArith Ascii String List Lia DecimalString.
From stdpp Require Import base option list gmap strings.

Local Open Scope Z_scope.

(** ** JavaScript strings *)

Module JsString.

Definition LF : ascii := "010"%char.
Definition DQUOTE : ascii := "034"%char.
Definition nl : string := String LF "".

Fixpoint str_take (n : nat) (s : string) : string :=
  match n, s with
  | S n', String c t => String c (str_take n' t)
  | _, _ => ""
  end.

Fixpoint str_drop (n : nat) (s : string) : string :=
  match n, s with
  | S n', String _ t => str_drop n' t
  | _, _ => s
  end.

(** [s.length] *)
Definition len (s : string) : Z := Z.of_nat (String.length s).

(** [s.startsWith(p)] *)
Definition startsWith (s p : string) : bool := String.prefix p s.

(** Index of the first occurrence of [needle] in [hay]. *)
Fixpoint find (needle hay : string) : option nat :=
  if String.prefix needle hay then Some 0%nat
  else match hay with
       | "" => None
       | String _ t => S <$> find needle t
       end.

(** [s.indexOf(needle)]: the index of the first occurrence, or [-1]. *)
Definition indexOf (s needle : string) : Z :=
  match find needle s with
  | Some i => Z.of_nat i
  | None => -1
  end.

(** [s.includes(needle)] *)
Definition includes (s needle : string) : bool :=
  match find needle s with Some _ => true | None => false end.

(** The relative-index resolution of [String.prototype.slice]: a
    negative index counts from the end, everything is clamped to
    [0 .. length]. *)
Definition relIndex (length k : Z) : Z :=
  if k <? 0 then Z.max (length + k) 0 else Z.min k length.

(** [s.slice(start, end)] *)
Definition slice (s : string) (start end_ : Z) : string :=
  let from := relIndex (len s) start in
  let to := relIndex (len s) end_ in
  str_take (Z.to_nat (Z.max (to - from) 0)) (str_drop (Z.to_nat from) s).

(** [s.slice(start)] *)
Definition sliceFrom (s : string) (start : Z) : string :=
  slice s start (len s).

(** White space as [trim] and [\s] see it (ASCII part). *)
Definition isWhiteSpace (c : ascii) : bool :=
  match c with
  | "009" | "010" | "011" | "012" | "013" | " " => true
  | _ => false
  end%char.

Fixpoint trimStart (s : string) : string :=
  match s with
  | String c t => if isWhiteSpace c then trimStart t else s
  | "" => ""
  end.

Fixpoint trimEnd (s : string) : string :=
  match s with
  | "" => ""
  | String c t =>
      match trimEnd t with
      | "" => if isWhiteSpace c then "" else String c ""
      | t' => String c t'
      end
  end.

(** [s.trim()] *)
Definition trim (s : string) : string := trimEnd (trimStart s).

(** [s.split(sep)] for a separator of one code unit. *)
Fixpoint split (sep : ascii) (s : string) : list string :=
  match s with
  | "" => [""]
  | String c t =>
      if Ascii.eqb c sep then "" :: split sep t
      else match split sep t with
           | h :: r => String c h :: r
           | [] => [String c ""]
           end
  end.

(** [parts.join(sep)] *)
Definition join (sep : string) (parts : list string) : string :=
  String.concat sep parts.

Definition isUpper (c : ascii) : bool :=
  (65 <=? nat_of_ascii c)%nat && (nat_of_ascii c <=? 90)%nat.
Definition isLower (c : ascii) : bool :=
  (97 <=? nat_of_ascii c)%nat && (nat_of_ascii c <=? 122)%nat.

Definition lowerChar (c : ascii) : ascii :=
  if isUpper c then ascii_of_nat (nat_of_ascii c + 32) else c.
Definition upperChar (c : ascii) : ascii :=
  if isLower c then ascii_of_nat (nat_of_ascii c - 32) else c.

Fixpoint mapChars (f : ascii -> ascii) (s : string) : string :=
  match s with
  | "" => ""
  | String c t => String (f c) (mapChars f t)
  end.

(** [s.toLowerCase()], [s.toUpperCase()] *)
Definition toLowerCase : string -> string := mapChars lowerChar.
Definition toUpperCase : string -> string := mapChars upperChar.

(** [String(n)] for a natural number. *)
Definition ofN (n : N) : string := NilEmpty.string_of_uint (N.to_uint n).
Definition ofNat (n : nat) : string := ofN (N.of_nat n).

(** The longest prefix whose code units satisfy [p], and the rest. *)
Fixpoint span (p : ascii -> bool) (s : string) : string * string :=
  match s with
  | String c t =>
      if p c then let '(a, b) := span p t in (String c a, b) else ("", s)
  | "" => ("", "")
  end.

(** [needle] occurs in [hay] at index [i]. *)
Definition occursAt (needle hay : string) (i : nat) : Prop :=
  (i <= String.length hay)%nat /\ String.prefix needle (str_drop i hay) = true.

(** [needle] occurs in [hay] at [i] and at no smaller index. *)
Definition firstAt (needle hay : string) (i : nat) : Prop :=
  occursAt needle hay i /\ forall j, (j < i)%nat -> ~ occursAt needle hay j.

Definition occurs (needle hay : string) : Prop :=
  exists i, occursAt needle hay i.

(** The code unit [c] is one of [s]. *)
Fixpoint hasChar (c : ascii) (s : string) : bool :=
  match s with
  | "" => false
  | String d t => Ascii.eqb c d || hasChar c t
  end.

(** Every code unit of [s] satisfies [p]. *)
Fixpoint allChars (p : ascii -> bool) (s : string) : bool :=
  match s with
  | "" => true
  | String c t => p c && allChars p t
  end.

Definition isDigit (c : ascii) : bool :=
  (48 <=? nat_of_ascii c)%nat && (nat_of_ascii c <=? 57)%nat.

End JsString.

(** ** Completions and effects

    A computation over a state [S] ends normally with a value or
    abruptly with a thrown value; in both cases the effects performed
    so far stay in the state. *)

Module Eff.

Inductive Completion (E A : Type) : Type :=
| Normal (a : A)
| Throw (e : E).
Arguments Normal {E A} a.
Arguments Throw {E A} e.

Definition M (S E A : Type) : Type := S -> Completion E A * S.

Definition ret {S E A} (a : A) : M S E A := fun s => (Normal a, s).

Definition bind {S E A B} (m : M S E A) (k : A -> M S E B) : M S E B :=
  fun s =>
    match m s with
    | (Normal a, s') => k a s'
    | (Throw e, s') => (Throw e, s')
    end.

Definition throw {S E A} (e : E) : M S E A := fun s => (Throw e, s).

Definition get {S E} : M S E S := fun s => (Normal s, s).

Definition modify {S E} (f : S -> S) : M S E unit := fun s => (Normal tt, f s).

(** [try { body } catch (error) { handler(error) }] *)
Definition tryCatch {S E A} (body : M S E A) (handler : E -> M S E A) : M S E A :=
  fun s =>
    match body s with
    | (Normal a, s') => (Normal a, s')
    | (Throw e, s') => handler e s'
    end.

(** The completion of an awaited promise or of a call whose outcome
    the environment decides. *)
Definition await {S E A} (c : Completion E A) : M S E A := fun s => (c, s).

Definition isThrow {E A} (c : Completion E A) : bool :=
  match c with Throw _ => true | Normal _ => false end.

End Eff.

Notation "x <- m ;; k" := (Eff.bind m (fun x => k))
  (at level 100, m at next level, right associativity, only parsing).
Notation "m ;;; k" := (Eff.bind m (fun _ => k))
  (at level 100, right associativity, only parsing).

(** ** [node:fs] and [console] *)

Module Node.
Import Eff.

Inductive Exn : Type :=
| Error (message : string)          (* [new Error(message)] *)
| ENOENT (path : string)            (* [readFileSync] on a missing file *)
| Rejected (reason : string).       (* a rejected AWS SDK call *)

Inductive ConsoleLine : Type :=
| ConsoleLog (text : string)
| ConsoleError (text : string) (error : Exn).

Record World : Type := mkWorld {
  files : gmap string string;          (* path -> content *)
  written : list (string * string);    (* the [writeFileSync] calls, oldest first *)
  console : list ConsoleLine           (* oldest first *)
}.

Definition readFileSync (path : string) : M World Exn string :=
  fun w =>
    match files w !! path with
    | Some content => (Normal content, w)
    | None => (Throw (ENOENT path), w)
    end.

Definition writeFileSync (path data : string) : M World Exn unit :=
  modify (fun w => mkWorld (<[path := data]> (files w))
                           (written w ++ [(path, data)])
                           (console w)).

Definition console_log (text : string) : M World Exn unit :=
  modify (fun w => mkWorld (files w) (written w) (console w ++ [ConsoleLog text])).

Definition console_error (text : string) (error : Exn) : M World Exn unit :=
  modify (fun w => mkWorld (files w) (written w)
                           (console w ++ [ConsoleError text error])).

End Node.

(** ** The WAF managed-rule enum generator
    ([generateAndInjectAwsManagedRuleEnum]) *)

Module WafRuleEnum.
Import Eff Node JsString.

(** The two fields of a rule-group summary that the script reads. *)
Record ManagedRuleGroupSummary : Type := {
  Name : option string;
  Description : option string
}.

Record ListAvailableManagedRuleGroupsResponse : Type := {
  ManagedRuleGroups : option (list ManagedRuleGroupSummary)
}.

(** [name.replace(/^AWSManagedRules/, '')] *)
Definition stripAwsManagedRules (name : string) : string :=
  if startsWith name "AWSManagedRules"
  then str_drop (String.length "AWSManagedRules") name
  else name.

(** [.replace(/SQLi/g, 'SQL_DATABASE')] *)
Fixpoint replaceSQLi (s : string) : string :=
  match s with
  | String "S" (String "Q" (String "L" (String "i" r))) =>
      "SQL_DATABASE" +:+ replaceSQLi r
  | String c t => String c (replaceSQLi t)
  | "" => ""
  end.

(** [.replace(/([A-Z]+)([A-Z][a-z])/g, '$1_$2')]: a run of at least
    two capitals followed by a small letter gets an underscore before
    its last capital. *)
Fixpoint splitAcronyms (s : string) : string :=
  match s with
  | String a ((String b (String c _)) as t) =>
      if isUpper a && isUpper b && isLower c
      then String a (String "_" (splitAcronyms t))
      else String a (splitAcronyms t)
  | String a t => String a (splitAcronyms t)
  | "" => ""
  end.

(** [.replace(/([a-z])([A-Z])/g, '$1_$2')] *)
Fixpoint splitCamel (s : string) : string :=
  match s with
  | String a ((String b _) as t) =>
      if isLower a && isUpper b
      then String a (String "_" (splitCamel t))
      else String a (splitCamel t)
  | String a t => String a (splitCamel t)
  | "" => ""
  end.

Definition formatRuleGroupName (name : string) : string :=
  let formattedName := stripAwsManagedRules name in
  toUpperCase (splitCamel (splitAcronyms (replaceSQLi formattedName))).

(** Truthiness of an optional string: defined and not empty. *)
Definition truthy (o : option string) : bool :=
  match o with
  | Some (String _ _) => true
  | _ => false
  end.

(** [map.set(key, value)] on an insertion-ordered [Map]: a key that is
    present keeps its position and takes the new value. *)
Fixpoint mapSet (key value : string) (m : list (string * string))
  : list (string * string) :=
  match m with
  | [] => [(key, value)]
  | (k, v) :: r =>
      if String.eqb k key then (k, value) :: r else (k, v) :: mapSet key value r
  end.

(** [new Map(pairs)] *)
Definition newMap (pairs : list (string * string)) : list (string * string) :=
  fold_left (fun m kv => mapSet (fst kv) (snd kv) m) pairs [].

Definition namedRules (ruleGroups : list ManagedRuleGroupSummary)
  : list (string * string) :=
  omap (fun rule =>
          if truthy (Name rule) && truthy (Description rule)
          then match Name rule, Description rule with
               | Some n, Some d => Some (n, d)
               | _, _ => None
               end
          else None) ruleGroups.

Definition enumEntry (entry : string * string) : string :=
  let '(ruleName, description) := entry in
  let name := formatRuleGroupName ruleName in
  "        /** " +:+ description +:+ " */" +:+ nl +:+
  "        " +:+ name +:+ " = '" +:+ ruleName +:+ "'".

Definition enumStringOf (ruleGroupMap : list (string * string)) : string :=
  "    export enum AwsManagedRuleGroup {" +:+ nl +:+
  join ("," +:+ nl +:+ nl) (map enumEntry ruleGroupMap) +:+ nl +:+
  "    }".

Definition filePath : string := "src/constructs/web-application-firewall/index.ts".
Definition startMarker : string := "/** WAF Managed Rule Groups */".
Definition endMarker : string := "/** End WAF Managed Rule Groups */".

(** Lines 70-86: locating the markers and building the new content. *)
Definition injectBetweenMarkers (enumString fileContent : string)
  : Completion Exn string :=
  let startIndex := indexOf fileContent startMarker in
  let endIndex := indexOf fileContent endMarker in
  if (startIndex =? -1) || (endIndex =? -1)
  then Throw (Error "Could not find injection markers in the file")
  else Normal (slice fileContent 0 (startIndex + len startMarker) +:+
               nl +:+ enumString +:+ nl +:+ "    " +:+
               sliceFrom fileContent endIndex).

(** The body of the [try] block.  [send region scope] is the outcome of
    [client.send(command)] for a client of that region and a command of
    that scope. *)
Definition generateBody
    (send : string -> string -> Completion Exn ListAvailableManagedRuleGroupsResponse)
  : M World Exn unit :=
  response <- await (send "us-east-1" "REGIONAL") ;;
  let ruleGroups := default [] (ManagedRuleGroups response) in
  if (length ruleGroups =? 0)%nat
  then throw (Error "No managed rule groups found")
  else
    let ruleGroupMap := newMap (namedRules ruleGroups) in
    let enumString := enumStringOf ruleGroupMap in
    fileContent <- readFileSync filePath ;;
    newContent <- await (injectBetweenMarkers enumString fileContent) ;;
    writeFileSync filePath newContent ;;;
    console_log ("AWS Managed Rules generated -- count: " +:+
                 ofNat (length ruleGroupMap)).

Definition generateAndInjectAwsManagedRuleEnum
    (send : string -> string -> Completion Exn ListAvailableManagedRuleGroupsResponse)
  : M World Exn unit :=
  tryCatch (generateBody send)
           (fun error => console_error "Error generating and injecting enum:" error).

(** The world after the [catch] block has logged [error]. *)
Definition logged (w : World) (error : Exn) : World :=
  mkWorld (files w) (written w)
          (console w ++ [ConsoleError "Error generating and injecting enum:" error]).

(** The text that an injection puts between the two parts of the file
    that it keeps. *)
Definition generatedRegion (enumString : string) : string :=
  nl +:+ enumString +:+ nl +:+ "    ".

(** Sample inputs: a target file with the markers in order, one with
    the end marker first, and a generated enum. *)
Definition sampleFile : string :=
  "export namespace W {" +:+ nl +:+
  "    /** WAF Managed Rule Groups */" +:+ nl +:+
  "    export enum AwsManagedRuleGroup {}" +:+ nl +:+
  "    /** End WAF Managed Rule Groups */" +:+ nl +:+
  "}" +:+ nl.

Definition reversedFile : string :=
  "/** End WAF Managed Rule Groups */" +:+ nl +:+
  "/** WAF Managed Rule Groups */" +:+ nl.

Definition sampleEnum : string :=
  enumStringOf [("AWSManagedRulesCommonRuleSet", "Core rule set")].

(** [map.get(key)] on the insertion-ordered [Map]. *)
Fixpoint mapGet (key : string) (m : list (string * string)) : option string :=
  match m with
  | [] => None
  | (k, v) :: r => if String.eqb k key then Some v else mapGet key r
  end.

(** Letters and digits, and what an identifier in capitals is made of. *)
Definition isAlnum (c : ascii) : bool := isUpper c || isLower c || isDigit c.
Definition isCapsIdentChar (c : ascii) : bool :=
  isUpper c || isDigit c || Ascii.eqb c "_".

(** The enum that the generator writes when no rule group has both a
    name and a description. *)
Definition emptyEnum : string :=
  "    export enum AwsManagedRuleGroup {" +:+ nl +:+ nl +:+ "    }".

Definition alnumOrUnderscore (c : ascii) : bool := isAlnum c || Ascii.eqb c "_".


(** Sample inputs: an answer whose only rule group has no description,
    and a world whose target file is the sample file. *)
Definition unnamedResponse : ListAvailableManagedRuleGroupsResponse :=
  {| ManagedRuleGroups :=
       Some [{| Name := Some "AWSManagedRulesCommonRuleSet"; Description := None |}] |}.

Definition sampleWorld : World :=
  mkWorld (<[filePath := sampleFile]> ∅) [] [].

End WafRuleEnum.

(** ** The README generator ([update-readme-library.ts]) *)

Module ReadmeLibrary.
Import Eff Node JsString.

(** A [DocItem] object.  [ref] is the identity of the object: the index
    of the loop iteration that allocated it (an iteration allocates at
    most one).  The only mutation of an item, the assignment of its
    description, happens in that iteration before the object is shared,
    so the record holds the final description. *)
Record DocItem : Type := mkDocItem {
  ref : nat;
  name : string;
  description : string
}.

Record DocItems : Type := mkDocItems {
  constructs : list DocItem;
  aspects : list DocItem;
  patterns : list DocItem
}.

(** The variables of [parseApiDoc] that the loop updates. *)
Record LoopState : Type := mkLoopState {
  st_constructs : list DocItem;
  st_aspects : list DocItem;
  st_patterns : list DocItem;
  inIgnoredSection : bool;
  currentItem : option DocItem
}.

Definition initialState : LoopState := mkLoopState [] [] [] false None.

(** All the items filed so far. *)
Definition allItems (st : LoopState) : list DocItem :=
  st_constructs st ++ st_aspects st ++ st_patterns st.

(** The invariant of the loop of [parseApiDoc] before iteration [i],
    for a set of line indices that must not give rise to an item: the
    items filed so far were allocated before iteration [i], none at an
    excluded index, and no object is filed twice. *)
Definition filedOk (excluded : nat -> Prop) (i : nat) (st : LoopState) : Prop :=
  (forall item, item ∈ allItems st -> (ref item < i)%nat /\ ~ excluded (ref item)) /\
  NoDup (ref <$> allItems st).

(** In addition, the pending item is not filed yet. *)
Definition pendingOk (excluded : nat -> Prop) (i : nat) (st : LoopState) : Prop :=
  forall item, currentItem st = Some item ->
    (ref item < i)%nat /\ ~ excluded (ref item) /\ ref item ∉ (ref <$> allItems st).

Definition setIgnored (b : bool) (st : LoopState) : LoopState :=
  mkLoopState (st_constructs st) (st_aspects st) (st_patterns st) b (currentItem st).

Definition setCurrent (c : option DocItem) (st : LoopState) : LoopState :=
  mkLoopState (st_constructs st) (st_aspects st) (st_patterns st)
              (inIgnoredSection st) c.

Definition pushConstruct (item : DocItem) (st : LoopState) : LoopState :=
  mkLoopState (st_constructs st ++ [item]) (st_aspects st) (st_patterns st)
              (inIgnoredSection st) (currentItem st).

Definition pushAspect (item : DocItem) (st : LoopState) : LoopState :=
  mkLoopState (st_constructs st) (st_aspects st ++ [item]) (st_patterns st)
              (inIgnoredSection st) (currentItem st).

Definition pushPattern (item : DocItem) (st : LoopState) : LoopState :=
  mkLoopState (st_constructs st) (st_aspects st) (st_patterns st ++ [item])
              (inIgnoredSection st) (currentItem st).

Definition idOpen : string := "id=" +:+ String DQUOTE "".

(** [line.match(/id="([^"]+)"/)]: the first capture group of the
    leftmost match.  At an occurrence of [id="] the greedy class takes
    every code unit up to the next quote; the match succeeds there when
    that run is not empty and a quote follows it. *)
Fixpoint matchId (line : string) : option string :=
  match line with
  | "" => None
  | String _ t =>
      if startsWith line idOpen then
        match span (fun c => negb (Ascii.eqb c DQUOTE))
                   (str_drop (String.length idOpen) line) with
        | (String c run, String _ _) => Some (String c run)
        | _ => matchId t
        end
      else matchId t
  end.

(** [s.replace(needle, '')] for a pattern without special characters:
    the first occurrence is removed. *)
Definition removeFirst (needle s : string) : string :=
  match find needle s with
  | Some i => str_take i s +:+ str_drop (i + String.length needle) s
  | None => s
  end.

Definition isEmpty (s : string) : bool :=
  match s with "" => true | _ => false end.

(** The [while] loop that collects the description from the lines
    after a header. *)
Fixpoint scanDescription (following : list string) (description : list string)
    (foundDescription : bool) : list string :=
  match following with
  | [] => description
  | raw :: following' =>
      let nextLine := trim raw in
      if startsWith nextLine "#" || startsWith nextLine "---" then description
      else if foundDescription && isEmpty nextLine then description
      else if startsWith nextLine "- *Implements:*"
      then scanDescription following' description foundDescription
      else if negb (isEmpty nextLine)
      then scanDescription following' (description ++ [nextLine]) true
      else scanDescription following' description foundDescription
  end.

(** Lines 50-66: a pending item is filed under the category that the
    id of the header just met names. *)
Definition categorizePending (line : string) (st : LoopState) : LoopState :=
  match currentItem st with
  | None => st
  | Some item =>
      match matchId line with
      | Some id0 =>
          let id := toLowerCase id0 in
          if includes id ".patterns." then pushPattern item st
          else if includes id ".aspects." then pushAspect item st
          else if includes id ".constructs." || negb (includes id ".types.")
          then pushConstruct item st
          else st
      | None => st
      end
  end.

(** Lines 48-137: a [### ] header that carries an id, met at index [i];
    [following] are the lines after it. *)
Definition header (i : nat) (line : string) (following : list string)
    (st : LoopState) : LoopState :=
  let st := categorizePending line st in
  match matchId line with
  | None => st
  | Some id0 =>
      let id := toLowerCase id0 in
      if includes id ".types." then setCurrent None st
      else
        let name := hd "" (split " " (removeFirst "### " line)) in
        let description := scanDescription following [] false in
        let item :=
          mkDocItem i name
                    (if (0 <? length description)%nat then join " " description else "") in
        if includes id ".patterns." then setCurrent None (pushPattern item st)
        else if includes id ".aspects." then setCurrent None (pushAspect item st)
        else if includes id ".constructs." then setCurrent None (pushConstruct item st)
        else setCurrent (Some item) st
  end.

(** One iteration of the [for] loop, on [lines[i]]. *)
Definition step (i : nat) (raw : string) (following : list string)
    (st : LoopState) : LoopState :=
  let line := trim raw in
  if startsWith line "## " &&
     (startsWith line "## Structs" || startsWith line "## Enum")
  then setIgnored true st
  else
    let st := if startsWith line "## " then setIgnored false st else st in
    if inIgnoredSection st then st
    else if startsWith line "### " && includes line idOpen
    then header i line following st
    else st.

Fixpoint parseLines (i : nat) (lines : list string) (st : LoopState) : LoopState :=
  match lines with
  | [] => st
  | raw :: following => parseLines (S i) following (step i raw following st)
  end.

(** What [parseApiDoc] returns for a file of the given content. *)
Definition parseContent (content : string) : DocItems :=
  let st := parseLines 0 (split LF content) initialState in
  mkDocItems
    (match currentItem st with
     | Some item => st_constructs st ++ [item]
     | None => st_constructs st
     end)
    (st_aspects st) (st_patterns st).

Definition parseApiDoc (filePath : string) : M World Exn DocItems :=
  content <- readFileSync filePath ;;
  ret (parseContent content).

(** [s.replace(/\s+/g, '-')] *)
Fixpoint dashWhiteSpace (inRun : bool) (s : string) : string :=
  match s with
  | "" => ""
  | String c t =>
      if isWhiteSpace c
      then if inRun then dashWhiteSpace true t else String "-" (dashWhiteSpace true t)
      else String c (dashWhiteSpace false t)
  end.

Definition itemLine (item : DocItem) : string :=
  let anchor := dashWhiteSpace false (toLowerCase (name item)) in
  "- [**" +:+ name item +:+ "**](API.md#" +:+ anchor +:+ "-): " +:+
  description item +:+ nl.

Definition itemLines (items : list DocItem) : string :=
  fold_left (fun output item => output +:+ itemLine item) items "".

Definition constructsBlurb : string :=
  "Constructs are the basic building blocks of AWS Cloud Development Kit " +:+
  "(AWS CDK) applications. A construct is a component within your " +:+
  "application that represents one or more AWS CloudFormation resources and " +:+
  "their configuration. You build your application, piece by piece, by " +:+
  "importing and configuring constructs. To learn more about constructs, " +:+
  "check out the [AWS CDK " +:+
  "documentation](https://docs.aws.amazon.com/cdk/v2/guide/constructs.html).".

Definition aspectsBlurb : string :=
  "Aspects are a way to apply an operation to all constructs in a given " +:+
  "scope. The aspect could modify the constructs, such as by adding tags. " +:+
  "Or it could verify something about the state of the constructs, such as " +:+
  "making sure that all buckets are encrypted. To learn more about aspects, " +:+
  "check out the [AWS CDK " +:+
  "documentation](https://docs.aws.amazon.com/cdk/v2/guide/aspects.html).".

Definition patternsBlurb : string :=
  "Patterns are higher-level abstractions that combine multiple constructs " +:+
  "and their configurations to form an opinionated solution. They help " +:+
  "developers implement best practices and reduce the amount of code needed " +:+
  "to build well-architected infrastructure. Patterns typically orchestrate " +:+
  "multiple AWS services together in a way that follows AWS best practices. " +:+
  "To learn more about patterns, check out the [AWS CDK " +:+
  "documentation](https://docs.aws.amazon.com/cdk/v2/guide/constructs.html#constructs_lib_levels).".

Definition generateMarkdown (constructs aspects patterns : list DocItem) : string :=
  ("Total: " +:+
     ofNat (length constructs + length aspects + length patterns) +:+ nl +:+ nl) +:+
  ("### 🧱 Constructs" +:+ nl +:+ nl) +:+
  (constructsBlurb +:+ nl +:+ nl) +:+
  ("Count: " +:+ ofNat (length constructs) +:+ nl +:+ nl) +:+
  itemLines constructs +:+
  (nl +:+ "### 🎭 Aspects" +:+ nl +:+ nl) +:+
  (aspectsBlurb +:+ nl +:+ nl) +:+
  ("Count: " +:+ ofNat (length aspects) +:+ nl +:+ nl) +:+
  itemLines aspects +:+
  (nl +:+ "### 🎯 Patterns" +:+ nl +:+ nl) +:+
  (patternsBlurb +:+ nl +:+ nl) +:+
  ("Count: " +:+ ofNat (length patterns) +:+ nl +:+ nl) +:+
  itemLines patterns.

Definition libraryHeading : string := "## 📚 Library".

Definition libraryIntro : string :=
  "The library consists of [constructs](#-constructs), " +:+
  "[aspects](#-aspects), and [patterns](#-patterns) that you can utilize in " +:+
  "AWS CDK applications.".

Definition newLibrarySectionOf (markdown : string) : string :=
  libraryHeading +:+ nl +:+ nl +:+ libraryIntro +:+ nl +:+ nl +:+ markdown.

(** The lazy [[\s\S]*?] before the lookahead [(?=\n## |$)]: the number
    of code units consumed until the rest starts with a line feed and
    [## ], or is empty. *)
Fixpoint lazyToNextSection (s : string) : nat :=
  match s with
  | "" => 0%nat
  | String _ t =>
      if startsWith s (nl +:+ "## ") then 0%nat else S (lazyToNextSection t)
  end.

(** The match of [/## 📚 Library[\s\S]*?(?=\n## |$)/]: its start and
    its end, when the heading occurs. *)
Definition matchLibrarySection (content : string) : option (nat * nat) :=
  match find libraryHeading content with
  | None => None
  | Some start =>
      let afterHeading := (start + String.length libraryHeading)%nat in
      Some (start, (afterHeading + lazyToNextSection (str_drop afterHeading content))%nat)
  end.

(** The expansion of a replacement string by [String.prototype.replace]
    for a pattern without capture groups: [$$] is a dollar sign, [$&]
    the matched text, [$`] the text before the match and [$'] the text
    after it; every other code unit stands for itself. *)
Fixpoint getSubstitution (matched before after replacement : string) : string :=
  match replacement with
  | String "$" (String "$" r) => String "$" (getSubstitution matched before after r)
  | String "$" (String "&" r) => matched +:+ getSubstitution matched before after r
  | String "$" (String "`" r) => before +:+ getSubstitution matched before after r
  | String "$" (String "'" r) => after +:+ getSubstitution matched before after r
  | String c r => String c (getSubstitution matched before after r)
  | "" => ""
  end.

(** [readmeContent.replace(/## 📚 Library[\s\S]*?(?=\n## |$)/, replacement)] *)
Definition replaceLibrarySection (readmeContent replacement : string) : string :=
  match matchLibrarySection readmeContent with
  | None => readmeContent
  | Some (start, stop) =>
      let before := str_take start readmeContent in
      let matched := str_take (stop - start) (str_drop start readmeContent) in
      let after := str_drop stop readmeContent in
      before +:+ getSubstitution matched before after replacement +:+ after
  end.

(** The top level of the script. *)
Definition main : M World Exn unit :=
  apiData <- parseApiDoc "API.md" ;;
  let markdown :=
    generateMarkdown (constructs apiData) (aspects apiData) (patterns apiData) in
  readmeContent <- readFileSync "README.md" ;;
  let newLibrarySection := newLibrarySectionOf markdown in
  let newReadme := replaceLibrarySection readmeContent newLibrarySection in
  writeFileSync "README.md" newReadme ;;;
  let total :=
    (length (constructs apiData) + length (aspects apiData) +
     length (patterns apiData))%nat in
  console_log ("README updated -- count: " +:+ ofNat total).

(** A header line of API.md as jsii-docgen writes it. *)
Definition headerLine (level name id : string) : string :=
  level +:+ " " +:+ name +:+ " <a name=" +:+ String DQUOTE name +:+
  String DQUOTE " id=" +:+ String DQUOTE id +:+ String DQUOTE "></a>".

(** Sample input: an API.md with a construct, an item of no known
    category that a types header follows, an aspect, a section of
    structs and a last item of no known category. *)
Definition sampleApi : string :=
  join nl
    [headerLine "#" "API" "api-reference"; "";
     headerLine "##" "Constructs" "Constructs"; "";
     headerLine "###" "Ec2ImageBuilderStart" "lib.constructs.Ec2ImageBuilderStart"; "";
     "- *Implements:* IConstruct"; "";
     "Starts an EC2 Image Builder Pipeline and";
     "optionally waits for it."; "";
     "More text.";
     headerLine "####" "Initializers" "lib.constructs.Ec2ImageBuilderStart.Initializer";
     headerLine "###" "Helper" "lib.other.Helper"; "A helper.";
     headerLine "###" "Options" "lib.types.Options"; "Some options.";
     headerLine "###" "Tagger" "lib.aspects.Tagger"; "Tags things.";
     headerLine "##" "Structs" "Structs";
     headerLine "###" "Props" "lib.constructs.Props"; "Properties.";
     headerLine "##" "Classes" "Classes";
     headerLine "###" "Last" "lib.Last"; "The last one."; ""].

(** Sample inputs: an API.md whose only item has a description with a
    dollar sign in code quotes, and a README with a Library section. *)
Definition dollarApi : string :=
  "### Vars <a name=" +:+ String DQUOTE "Vars" +:+ String DQUOTE " id=" +:+
  String DQUOTE "lib.constructs.Vars" +:+ String DQUOTE "></a>" +:+ nl +:+ nl +:+
  "Names that start with `$` are reserved." +:+ nl.

Definition dollarReadme : string :=
  "# Title" +:+ nl +:+ nl +:+
  "## 📚 Library" +:+ nl +:+ nl +:+ "old" +:+ nl +:+ nl +:+
  "## License" +:+ nl.

(** The description that [parseApiDoc] collects from the lines after a
    header. *)
Definition describedBy (following : list string) : string :=
  let description := scanDescription following [] false in
  if (0 <? length description)%nat then join " " description else "".

(** The item was made for the line of index [ref item]: a [### ] header
    with an id that has no [.types.]; its name is the first word after
    the [### ] and its description comes from the lines that follow. *)
Definition fromHeader (lines : list string) (item : DocItem) : Prop :=
  exists raw id,
    lines !! ref item = Some raw /\
    startsWith (trim raw) "### " = true /\
    matchId (trim raw) = Some id /\
    includes (toLowerCase id) ".types." = false /\
    name item = hd "" (split " " (removeFirst "### " (trim raw))) /\
    description item = describedBy (drop (S (ref item)) lines).

(** The start of a second-level section, as the regular expression of
    the script looks for it. *)
Definition sectionBreak : string := nl +:+ "## ".

(** No section break begins in [s] when [s] is followed by [tail]. *)
Definition cleanBefore (s tail : string) : Prop :=
  forall k, (k < String.length s)%nat ->
    startsWith (str_drop k (s +:+ tail)) sectionBreak = false.

(** Sample world for the README generator. *)
Definition sampleReadmeWorld : World :=
  mkWorld (<["API.md" := sampleApi]> (<["README.md" := dollarReadme]> ∅)) [] [].

(** The list that the id of the own header of an item asks for: the
    patterns when the lower-cased id has [.patterns.], else the aspects
    when it has [.aspects.], else the constructs when it has
    [.constructs.]; [inPatterns], [inAspects] and [inConstructs] say
    whether the item is in the list. *)
Definition listedById (lines : list string) (inPatterns inAspects inConstructs : Prop)
    (item : DocItem) : Prop :=
  forall raw id,
    lines !! ref item = Some raw ->
    matchId (trim raw) = Some id ->
    let lowered := toLowerCase id in
    (includes lowered ".patterns." = true -> inPatterns) /\
    (includes lowered ".patterns." = false -> includes lowered ".aspects." = true ->
     inAspects) /\
    (includes lowered ".patterns." = false -> includes lowered ".aspects." = false ->
     includes lowered ".constructs." = true -> inConstructs).

(** The id of the header of the item names no category. *)
Definition uncategorized (lines : list string) (item : DocItem) : Prop :=
  forall raw id,
    lines !! ref item = Some raw ->
    matchId (trim raw) = Some id ->
    includes (toLowerCase id) ".patterns." = false /\
    includes (toLowerCase id) ".aspects." = false /\
    includes (toLowerCase id) ".constructs." = false.

(** The item is in the list of the loop state that its id asks for. *)
Definition listed (lines : list string) (st : LoopState) (item : DocItem) : Prop :=
  listedById lines (item ∈ st_patterns st) (item ∈ st_aspects st)
             (item ∈ st_constructs st) item.

(** The items filed so far are listed by their ids, and the id of the
    pending item names no category. *)
Definition categoriesOk (lines : list string) (st : LoopState) : Prop :=
  (forall item, item ∈ allItems st -> listed lines st item) /\
  (forall item, currentItem st = Some item -> uncategorized lines item).

End ReadmeLibrary.

(** ** The [Ec2ImageBuilderStart] construct

    The constructs of [aws-cdk-lib] that the class instantiates are
    recorded as effects on the construct tree: each [new X(this, id,
    props)] and each mutating call appends one entry.  A construct
    refuses a second child with the id of a child it has: the ids of
    the children of [this] are passed along, and [new X(this, id, ...)]
    throws when [id] is among them.  The scope given to the constructor
    is taken to have no child with the id of the new construct, and the
    constructors of [aws-cdk-lib] are taken to complete otherwise. *)

Module Ec2ImageBuilderStart.
Import Eff JsString.

(** [Duration], for the factories of whole units; the conversion to
    seconds is then total. *)
Inductive TimeUnit : Type := Seconds | Minutes | Hours | Days.

Record Duration : Type := mkDuration {
  amount : N;
  timeUnit : TimeUnit
}.

Definition secondsIn (u : TimeUnit) : N :=
  match u with
  | Seconds => 1
  | Minutes => 60
  | Hours => 3600
  | Days => 86400
  end%N.

(** [duration.toSeconds()] *)
Definition toSeconds (d : Duration) : N := (amount d * secondsIn (timeUnit d))%N.

(** [Duration.hours(n)] *)
Definition Duration_hours (n : N) : Duration := mkDuration n Hours.

Inductive ITopic : Type := Topic (topicArn : string).
Inductive IKey : Type := Key (keyArn : string).
Inductive IVpc : Type := Vpc (vpcId : string).
Inductive SubnetSelection : Type := Subnets (subnetGroupName : string).

(** The fields of [LambdaConfiguration] that the class reads; the
    object as a whole is also spread into the properties of the signal
    function. *)
Record LambdaConfiguration : Type := {
  vpc : option IVpc;
  subnets : option SubnetSelection
}.

Record WaitForCompletionProps : Type := {
  topic : ITopic;
  timeout : option Duration
}.

Record Ec2ImageBuilderStartProps : Type := {
  pipelineArn : string;
  hash : option string;
  waitForCompletion : option WaitForCompletionProps;
  lambdaConfiguration : option LambdaConfiguration;
  encryption : option IKey
}.

(** A value of a CloudFormation property: a literal, a [ref] to a
    resource of this construct, or a response field of the custom
    resource. *)
Inductive CfnValue : Type :=
| Literal (s : string)
| Ref (id : string)
| ResponseField (id field : string).

Record AwsSdkCall : Type := mkAwsSdkCall {
  action : string;
  service : string;
  parameters : list (string * string);
  physicalResourceId : string          (* [PhysicalResourceId.of(id)] *)
}.

Record AwsCustomResourceProps : Type := mkAwsCustomResourceProps {
  policyResources : list string;       (* [AwsCustomResourcePolicy.fromSdkCalls] *)
  logRetention : string;
  onCreate : option AwsSdkCall;
  onUpdate : option AwsSdkCall;
  resourceType : string;
  cr_vpc : option IVpc;
  cr_vpcSubnets : option SubnetSelection
}.

Record NodejsFunctionProps : Type := mkNodejsFunctionProps {
  bundlingMinify : bool;
  entry : list string;                 (* segments joined below [__dirname] *)
  handler : string;
  runtime : string;
  reservedConcurrentExecutions : N;
  environment : list (string * CfnValue);
  environmentEncryption : option IKey;
  spread : option LambdaConfiguration  (* [...props.lambdaConfiguration] *)
}.

Inductive Effect : Type :=
| NewConstruct (scope id : string)                       (* [super(scope, id)] *)
| NewAwsCustomResource (id : string) (props : AwsCustomResourceProps)
| NewCfnWaitConditionHandle (id : string)
| NewNodejsFunction (id : string) (props : NodejsFunctionProps)
| NewCfnWaitCondition (id : string) (handle : CfnValue) (timeout : string)
| AddDependency (id dependsOn : string)
| AddEventSource (functionId : string) (source : ITopic). (* [SnsEventSource] *)

Inductive ValidationTypes : Type := AWS_ARN.

(** [DuplicateChild id] is the [Error] with which the constructor of a
    construct refuses a child whose id is the id of an earlier child of
    the same parent ([There is already a Construct with name ...]). *)
Inductive Exn : Type :=
| Error (message : string)
| ValidationError (value : string) (validationType : ValidationTypes)
| DuplicateChild (id : string).

(** The fields of the instance. *)
Record Instance : Type := mkInstance {
  imageBuildVersionArn : CfnValue;
  cr : string;
  this_hash : string
}.

Definition emit (e : Effect) : M (list Effect) Exn unit :=
  modify (fun tree => tree ++ [e]).

(** [new X(this, id, ...)], recorded as the effect [e]: the node of
    [this] gets a child with the id [id].  [children] are the ids of the
    children that [this] has, oldest first; the result are the ids of
    its children afterwards. *)
Definition newChild (children : list string) (id : string) (e : Effect)
  : M (list Effect) Exn (list string) :=
  if bool_decide (id ∈ children) then throw (DuplicateChild id)
  else emit e ;;; ret (children ++ [id]).



Section WithArnFormat.

(** The AWS ARN format that [ValidationTypes.AWS_ARN] names. *)
Variable matchesAwsArn : string -> bool.

(** Modelled from the spec: [validate] of [src/common/validate] is not
    among the sources.  The specification lists the ARN format among the
    validations that throw during instantiation: [validate(value,
    ValidationTypes.AWS_ARN)] throws when [value] does not match the
    format and returns otherwise. *)
Definition validate (value : string) (validationType : ValidationTypes)
  : M (list Effect) Exn unit :=
  match validationType with
  | AWS_ARN =>
      if matchesAwsArn value then ret tt
      else throw (ValidationError value validationType)
  end.

Definition start (this_hash pipelineArn : string) : AwsSdkCall :=
  let params := [("imagePipelineArn", pipelineArn)] in
  mkAwsSdkCall "startImagePipelineExecution" "Imagebuilder" params this_hash.

(** [this_children] are the ids of the children of [this] at the
    call. *)
Definition waitForTopicSignal (this_hash : string) (this_imageBuildVersionArn : CfnValue)
    (this_children : list string) (props : Ec2ImageBuilderStartProps)
  : M (list Effect) Exn unit :=
  match waitForCompletion props with
  | Some wait =>
      let waitHandle := "WaitHandle" +:+ this_hash in
      children <- newChild this_children waitHandle
                    (NewCfnWaitConditionHandle waitHandle) ;;
      children <- newChild children "WaiterSignal"
                    (NewNodejsFunction "WaiterSignal"
                       (mkNodejsFunctionProps
                          true ["handler"; "index.ts"] "index.handler" "NODEJS_20_X" 5
                          [("WAIT_HANDLE_URL", Ref waitHandle);
                           ("IMAGE_BUILD_ARN", this_imageBuildVersionArn)]
                          (encryption props) (lambdaConfiguration props))) ;;
      let duration := default (Duration_hours 12) (timeout wait) in
      let waiter := "Waiter" +:+ this_hash in
      newChild children waiter
        (NewCfnWaitCondition waiter (Ref waitHandle) (ofN (toSeconds duration))) ;;;
      emit (AddDependency waiter "WaiterSignal") ;;;
      emit (AddEventSource "WaiterSignal" (topic wait))
  | None => ret tt
  end.

(** [props.waitForCompletion?.timeout?.toSeconds() ?? 0] *)
Definition timeoutSeconds (props : Ec2ImageBuilderStartProps) : N :=
  match waitForCompletion props with
  | Some wait =>
      match timeout wait with
      | Some d => toSeconds d
      | None => 0%N
      end
  | None => 0%N
  end.

(** [props.hash?.length ?? 0] *)
Definition hashLength (props : Ec2ImageBuilderStartProps) : nat :=
  match hash props with
  | Some h => String.length h
  | None => 0%nat
  end.

Definition constructor (scope id : string) (props : Ec2ImageBuilderStartProps)
  : M (list Effect) Exn Instance :=
  emit (NewConstruct scope id) ;;;
  if (43200 <? timeoutSeconds props)%N
  then throw (Error "Timeout cannot exceed 12 hours")
  else if (7 <? hashLength props)%nat
  then throw (Error "Hash must be 7 characters or less")
  else
    validate (pipelineArn props) AWS_ARN ;;;
    let this_hash := default "Run1x" (hash props) in
    let cr := "Ec2ImageBuilderStartCr" in
    children <- newChild [] cr
                  (NewAwsCustomResource cr
                     (mkAwsCustomResourceProps
                        [pipelineArn props] "ONE_YEAR"
                        (Some (start this_hash (pipelineArn props)))
                        (Some (start this_hash (pipelineArn props)))
                        "Custom::Ec2ImageBuilderStart"
                        (lc ← lambdaConfiguration props; vpc lc)
                        (lc ← lambdaConfiguration props; subnets lc))) ;;
    let imageBuildVersionArn := ResponseField cr "imageBuildVersionArn" in
    waitForTopicSignal this_hash imageBuildVersionArn children props ;;;
    ret (mkInstance imageBuildVersionArn cr this_hash).

(** Properties that pass the three validations. *)
Definition validProps (props : Ec2ImageBuilderStartProps) : Prop :=
  (timeoutSeconds props <= 43200)%N /\
  (hashLength props <= 7)%nat /\
  matchesAwsArn (pipelineArn props) = true.

End WithArnFormat.


(** Sample inputs: a format check that asks for the [arn:] prefix, a
    pipeline ARN, and properties with a timeout of thirteen hours and a
    hash of eight characters. *)
Definition sampleArnFormat (value : string) : bool := startsWith value "arn:".

Definition samplePipelineArn : string :=
  "arn:aws:imagebuilder:us-east-1:123456789012:image-pipeline/example".

Definition propsAtTheBounds : Ec2ImageBuilderStartProps :=
  {| pipelineArn := samplePipelineArn;
     hash := Some "abcdefg";
     waitForCompletion :=
       Some {| topic := Topic "arn:aws:sns:us-east-1:123456789012:done";
               timeout := Some (Duration_hours 12) |};
     lambdaConfiguration := None;
     encryption := None |}.







End Ec2ImageBuilderStart.

(** ** The [DynamoDBProvisionTable] construct

    The class keeps a static [Map] from the node id of a stack to the
    [Provider] built for it.  Objects that the claims compare by
    identity (stacks, providers) carry an allocation number.  The
    state also holds the children that the constructs have: a
    construct refuses a second child with the id of a child it has. *)

Module DynamoDBProvisionTable.
Import Eff.

(** A [Stack] object and its [node.id]. *)
Record Stack : Type := mkStack {
  stackObj : nat;
  stackNodeId : string
}.

Global Instance Stack_eq_dec : EqDecision Stack.
Proof. solve_decision. Defined.

(** A construct used as scope: its path and the stack that encloses it,
    if any. *)
Record Construct : Type := mkConstruct {
  path : string;
  enclosingStack : option Stack
}.

Global Instance Construct_eq_dec : EqDecision Construct.
Proof. solve_decision. Defined.

Inductive IKey : Type := Key (keyArn : string).
Inductive ITable : Type := Table (tableName : string).
Inductive LambdaConfiguration : Type := LambdaConfig (settings : list (string * string)).

Record TableProps : Type := {
  resource : ITable;
  partitionKeyName : string;
  sortKeyName : option string;
  table_encryption : option IKey
}.

Record DynamoDBProvisionTableProps : Type := {
  table : TableProps;
  items : list (list (string * string));
  encryption : option IKey;
  lambdaConfiguration : option LambdaConfiguration
}.

Record ResourceProperties : Type := mkResourceProperties {
  Items : list (list (string * string));
  PartitionKeyName : string;
  TableName : string;
  SortKeyName : option string
}.

Record SecureFunctionProps : Type := mkSecureFunctionProps {
  code : list string;                  (* segments joined below [__dirname] *)
  handler : string;
  memorySize : N;
  timeoutMinutes : N;
  runtime : string;
  fn_encryption : option IKey;
  spread : option LambdaConfiguration  (* [...props.lambdaConfiguration] *)
}.

(** A [Provider] object: its identity, where it sits in the tree, the
    stack it was built in and its handler. *)
Record Provider : Type := mkProvider {
  providerObj : nat;
  providerPath : string;
  providerStack : Stack;
  onEventHandler : string
}.

Global Instance Provider_eq_dec : EqDecision Provider.
Proof. solve_decision. Defined.

Inductive Effect : Type :=
| NewConstruct (scope id : string)
| NewSecureFunction (scope id : string) (props : SecureFunctionProps)
| NewProvider (provider : Provider)
| NewPolicy (scope id : string)
| GrantReadWriteData (table : ITable) (grantee : string)
| GrantEncryptDecrypt (key : IKey) (grantee : string)
| AttachInlinePolicy (role policy : string)
| NewCustomResource (scope id : string) (serviceToken : Provider)
    (properties : ResourceProperties) (resourceType : string).

(** [DuplicateChild parent id] is the [Error] with which the
    constructor of a construct refuses a child whose id is the id of an
    earlier child of the same parent ([There is already a Construct
    with name ...]). *)
Inductive Exn : Type :=
| Error (message : string)
| TypeError (message : string)
| DuplicateChild (parent id : string).

(** The static field [serviceTokens], the allocator of object
    identities, the construct tree as the effects that built it, and
    the children that the constructs have got, each with its parent. *)
Record State : Type := mkState {
  serviceTokens : gmap string Provider;
  nextObj : nat;
  tree : list Effect;
  children : list (Construct * string)
}.

Definition initial : State := mkState ∅ 0 [] [].

Definition emit (e : Effect) : M State Exn unit :=
  modify (fun st => mkState (serviceTokens st) (nextObj st) (tree st ++ [e])
                            (children st)).

(** [new X(parent, id, ...)], recorded as the effect [e], for a
    [parent] that was there before the running construction: the
    constructor throws when [parent] has a child with the id [id]. *)
Definition newChild (parent : Construct) (id : string) (e : Effect)
  : M State Exn unit :=
  fun st =>
    if bool_decide ((parent, id) ∈ children st)
    then (Throw (DuplicateChild (path parent) id), st)
    else (Normal tt,
          mkState (serviceTokens st) (nextObj st) (tree st ++ [e])
                  (children st ++ [(parent, id)])).

(** The same for a [parent] that the running construction has made:
    its only children are those that the construction gives it, under
    ids that differ, so that the constructor completes. *)
Definition newChildOfNew (parent : Construct) (id : string) (e : Effect)
  : M State Exn unit :=
  modify (fun st => mkState (serviceTokens st) (nextObj st) (tree st ++ [e])
                            (children st ++ [(parent, id)])).

(** [new Provider(parent, id, { onEventHandler })], for a [parent] that
    the running construction has made. *)
Definition newProvider (parent : Construct) (id : string) (stack : Stack)
    (handler : string) : M State Exn Provider :=
  fun st =>
    let provider :=
      mkProvider (nextObj st) (path parent +:+ "/" +:+ id) stack handler in
    (Normal provider,
     mkState (serviceTokens st) (S (nextObj st)) (tree st ++ [NewProvider provider])
             (children st ++ [(parent, id)])).

(** [DynamoDBProvisionTable.serviceTokens.set(stackId, provider)] *)
Definition serviceTokens_set (stackId : string) (provider : Provider)
  : M State Exn unit :=
  modify (fun st => mkState (<[stackId := provider]> (serviceTokens st))
                            (nextObj st) (tree st) (children st)).

(** [Stack.of(scope)] *)
Definition Stack_of (scope : Construct) : M State Exn Stack :=
  match enclosingStack scope with
  | Some stack => ret stack
  | None => throw (Error "No stack could be identified for the construct")
  end.

(** [DynamoDBProvisionTable.name] *)
Definition className : string := "DynamoDBProvisionTable".

Definition getOrBuildProvider (scope : Construct) (props : DynamoDBProvisionTableProps)
  : M State Exn Provider :=
  stack <- Stack_of scope ;;
  let stackId := stackNodeId stack in
  st <- get ;;
  (match serviceTokens st !! stackId with
   | None =>
       let provider := path scope +:+ "/" +:+ "Cr" +:+ className in
       let provider_node := mkConstruct provider (enclosingStack scope) in
       newChild scope ("Cr" +:+ className)
                (NewConstruct (path scope) ("Cr" +:+ className)) ;;;
       newChildOfNew provider_node "OnEvent"
         (NewSecureFunction provider "OnEvent"
            (mkSecureFunctionProps ["handler"; "on-event"] "index.handler"
                                   512 1 "NODEJS_22_X"
                                   (encryption props) (lambdaConfiguration props))) ;;;
       built <- newProvider provider_node "Provider" stack
                            (provider +:+ "/" +:+ "OnEvent") ;;
       serviceTokens_set stackId built
   | Some _ => ret tt
   end) ;;;
  st <- get ;;
  match serviceTokens st !! stackId with
  | Some provider => ret provider
  | None => throw (TypeError "provider is undefined")
  end.

Definition createCustomResourceProperties (props : DynamoDBProvisionTableProps)
  : ResourceProperties :=
  mkResourceProperties (items props) (partitionKeyName (table props))
                       (match resource (table props) with Table n => n end)
                       (sortKeyName (table props)).

Definition constructor (scope : Construct) (id : string)
    (props : DynamoDBProvisionTableProps) : M State Exn unit :=
  newChild scope id (NewConstruct (path scope) id) ;;;
  provider <- getOrBuildProvider scope props ;;
  let this := path scope +:+ "/" +:+ id in
  let this_node := mkConstruct this (enclosingStack scope) in
  let providerPermissions := this +:+ "/Permissions" in
  newChildOfNew this_node "Permissions" (NewPolicy this "Permissions") ;;;
  emit (GrantReadWriteData (resource (table props)) providerPermissions) ;;;
  (match table_encryption (table props) with
   | Some key => emit (GrantEncryptDecrypt key providerPermissions)
   | None => ret tt
   end) ;;;
  emit (AttachInlinePolicy (onEventHandler provider +:+ "/Role") providerPermissions) ;;;
  newChildOfNew this_node "DynamoDBProvisionTable"
    (NewCustomResource this "DynamoDBProvisionTable" provider
       (createCustomResourceProperties props) "Custom::DynamoDBProvisionTable").

(** A construction: the arguments of [new DynamoDBProvisionTable(...)]. *)
Record Construction : Type := mkConstruction {
  c_scope : Construct;
  c_id : string;
  c_props : DynamoDBProvisionTableProps
}.

(** A sequence of constructions, one after the other, on the same
    static state; a construction that throws leaves its effects behind
    and the next one goes on. *)
Definition constructAll (calls : list Construction) (st : State) : State :=
  fold_left (fun st c => snd (constructor (c_scope c) (c_id c) (c_props c) st)) calls st.

(** The constructions of the sequence that complete, in order. *)
Fixpoint completed (calls : list Construction) (st : State) : list Construction :=
  match calls with
  | [] => []
  | c :: rest =>
      let result := constructor (c_scope c) (c_id c) (c_props c) st in
      (if isThrow (fst result) then [] else [c]) ++ completed rest (snd result)
  end.

(** The providers built so far, oldest first. *)
Definition providersOf (effects : list Effect) : list Provider :=
  omap (fun e => match e with NewProvider p => Some p | _ => None end) effects.

(** The providers built in the stack [s]. *)
Definition providersIn (s : Stack) (st : State) : list Provider :=
  filter (fun p => providerStack p = s) (providersOf (tree st)).

(** The handler functions built so far, by their paths, oldest first. *)
Definition handlersOf (effects : list Effect) : list string :=
  omap (fun e => match e with
                 | NewSecureFunction scope id _ => Some (scope +:+ "/" +:+ id)
                 | _ => None
                 end) effects.

(** The providers that the custom resources were given, oldest first. *)
Definition tokensOf (effects : list Effect) : list Provider :=
  omap (fun e => match e with NewCustomResource _ _ p _ _ => Some p | _ => None end)
       effects.

(** The provider that a construction builds in [stack] from the state
    [st], below the scope [scope]. *)
Definition built (scope : Construct) (stack : Stack) (st : State) : Provider :=
  mkProvider (nextObj st)
             ((path scope +:+ "/" +:+ "Cr" +:+ className) +:+ "/" +:+ "Provider")
             stack
             ((path scope +:+ "/" +:+ "Cr" +:+ className) +:+ "/" +:+ "OnEvent").

(** The cache is in order: every provider built so far is the entry of
    the cache for the node id of its stack and was allocated before the
    next object; every entry of the cache is a provider built so far,
    stored under the node id of its stack; and no provider was built
    twice. *)
Definition cacheOk (st : State) : Prop :=
  (forall p, p ∈ providersOf (tree st) ->
     serviceTokens st !! stackNodeId (providerStack p) = Some p /\
     (providerObj p < nextObj st)%nat) /\
  (forall k p, serviceTokens st !! k = Some p ->
     p ∈ providersOf (tree st) /\ stackNodeId (providerStack p) = k) /\
  NoDup (providersOf (tree st)).

(** The node id of the stack of a construction, when its scope is in a
    stack. *)
Definition stackIdOf (c : Construction) : option string :=
  stackNodeId <$> enclosingStack (c_scope c).

(** Sample inputs: two stacks with the same node id, as two stages of
    an application have them, and a construction in each. *)
Definition stackOfStageA : Stack := mkStack 0 "Database".
Definition stackOfStageB : Stack := mkStack 1 "Database".

Definition sampleProps : DynamoDBProvisionTableProps :=
  {| table := {| resource := Table "orders";
                 partitionKeyName := "id";
                 sortKeyName := None;
                 table_encryption := None |};
     items := [[("id", "1")]];
     encryption := None;
     lambdaConfiguration := None |}.

Definition constructionInStageA : Construction :=
  mkConstruction (mkConstruct "StageA/Database" (Some stackOfStageA)) "Provision"
                 sampleProps.

Definition constructionInStageB : Construction :=
  mkConstruction (mkConstruct "StageB/Database" (Some stackOfStageB)) "Provision"
                 sampleProps.

End DynamoDBProvisionTable.

(** * Properties *)

(** ** Facts about strings *)

Module JsStringFacts.
Import JsString.

Lemma str_app_nil_l (s : string) : "" +:+ s = s.
Proof. reflexivity. Qed.

Lemma str_app_cons (c : ascii) (s t : string) : String c s +:+ t = String c (s +:+ t).
Proof. reflexivity. Qed.

Lemma str_app_nil_r (s : string) : s +:+ "" = s.
Proof. induction s as [|c s IH]; [reflexivity|]. rewrite str_app_cons, IH. reflexivity. Qed.

Lemma str_app_assoc (a b c : string) : (a +:+ b) +:+ c = a +:+ (b +:+ c).
Proof.
  induction a as [|x a IH]; [reflexivity|].
  rewrite !str_app_cons, IH. reflexivity.
Qed.

Lemma str_length_app (a b : string) :
  String.length (a +:+ b) = (String.length a + String.length b)%nat.
Proof.
  induction a as [|x a IH]; [reflexivity|].
  rewrite str_app_cons. simpl. rewrite IH. reflexivity.
Qed.

Lemma str_take_drop (n : nat) (s : string) : str_take n s +:+ str_drop n s = s.
Proof.
  revert s. induction n as [|n IH]; intros [|c s]; simpl; try reflexivity.
  rewrite str_app_cons, IH. reflexivity.
Qed.

Lemma str_length_take (n : nat) (s : string) :
  String.length (str_take n s) = Nat.min n (String.length s).
Proof.
  revert s. induction n as [|n IH]; intros [|c s]; simpl; try reflexivity.
  rewrite IH. reflexivity.
Qed.

Lemma str_length_drop (n : nat) (s : string) :
  String.length (str_drop n s) = (String.length s - n)%nat.
Proof.
  revert s. induction n as [|n IH]; intros [|c s]; simpl; try reflexivity.
  apply IH.
Qed.

Lemma str_take_all (n : nat) (s : string) :
  (String.length s <= n)%nat -> str_take n s = s.
Proof.
  revert s. induction n as [|n IH]; intros [|c s]; simpl; intros H;
    try reflexivity; try lia.
  rewrite IH by lia. reflexivity.
Qed.

Lemma str_take_app_le (n : nat) (a b : string) :
  (n <= String.length a)%nat -> str_take n (a +:+ b) = str_take n a.
Proof.
  revert a. induction n as [|n IH]; intros [|c a] H; rewrite ?str_app_cons;
    simpl in *; try reflexivity; try lia.
  rewrite IH by lia. reflexivity.
Qed.

Lemma str_take_app_length (a b : string) : str_take (String.length a) (a +:+ b) = a.
Proof. rewrite str_take_app_le by lia. apply str_take_all. lia. Qed.

Lemma str_drop_app_le (n : nat) (a b : string) :
  (n <= String.length a)%nat -> str_drop n (a +:+ b) = str_drop n a +:+ b.
Proof.
  revert a. induction n as [|n IH]; intros [|c a] H; rewrite ?str_app_cons;
    simpl in *; try reflexivity; try lia.
  apply IH. lia.
Qed.

Lemma str_drop_app_length (a b : string) : str_drop (String.length a) (a +:+ b) = b.
Proof.
  rewrite str_drop_app_le by lia.
  replace (str_drop (String.length a) a) with "".
  - reflexivity.
  - clear b. induction a as [|c a IH]; simpl; auto.
Qed.

Lemma str_drop_drop (n m : nat) (s : string) :
  str_drop n (str_drop m s) = str_drop (m + n) s.
Proof.
  revert s. induction m as [|m IH]; intros s; [reflexivity|].
  destruct s as [|c s]; simpl.
  - destruct n; reflexivity.
  - apply IH.
Qed.

Lemma str_drop_app_ge (n : nat) (a b : string) :
  (String.length a <= n)%nat ->
  str_drop n (a +:+ b) = str_drop (n - String.length a) b.
Proof.
  intros H.
  replace n with (String.length a + (n - String.length a))%nat at 1 by lia.
  rewrite <- str_drop_drop, str_drop_app_length. reflexivity.
Qed.

(** [prefix p s] holds exactly when [s] is [p] followed by something. *)
Lemma prefix_app (p r : string) : String.prefix p (p +:+ r) = true.
Proof.
  induction p as [|c p IH].
  - simpl. destruct ("" +:+ r); reflexivity.
  - rewrite str_app_cons. simpl. destruct (ascii_dec c c); [exact IH|congruence].
Qed.

Lemma prefix_inv (p s : string) :
  String.prefix p s = true -> s = p +:+ str_drop (String.length p) s.
Proof.
  revert s. induction p as [|c p IH]; intros s H; [reflexivity|].
  destruct s as [|d s]; simpl in H; [discriminate|].
  destruct (ascii_dec c d) as [->|]; [|discriminate].
  rewrite str_app_cons. simpl. f_equal. apply IH, H.
Qed.

Lemma prefix_length (p s : string) :
  String.prefix p s = true -> (String.length p <= String.length s)%nat.
Proof.
  intros H. rewrite (prefix_inv _ _ H), str_length_app. lia.
Qed.

Lemma prefix_take (p s : string) :
  String.prefix p s = true <-> str_take (String.length p) s = p /\
                               (String.length p <= String.length s)%nat.
Proof.
  split.
  - intros H. split; [|apply prefix_length, H].
    rewrite (prefix_inv _ _ H) at 1. apply str_take_app_length.
  - intros [H _]. rewrite <- (str_take_drop (String.length p) s), H. apply prefix_app.
Qed.

(** A prefix that fits into the first part of a concatenation is a
    prefix of that part. *)
Lemma prefix_app_l (p a b : string) :
  (String.length p <= String.length a)%nat ->
  String.prefix p (a +:+ b) = String.prefix p a.
Proof.
  revert a. induction p as [|c p IH]; intros a H.
  - simpl. destruct (a +:+ b), a; reflexivity.
  - destruct a as [|d a]; simpl in H; [lia|].
    rewrite str_app_cons. simpl. destruct (ascii_dec c d); [|reflexivity].
    apply IH. lia.
Qed.

Lemma occursAt_0 (n h : string) : occursAt n h 0 <-> String.prefix n h = true.
Proof.
  unfold occursAt. simpl. destruct h; simpl; intuition lia.
Qed.

Lemma occursAt_S (n : string) (c : ascii) (h : string) (i : nat) :
  occursAt n (String c h) (S i) <-> occursAt n h i.
Proof. unfold occursAt. simpl. intuition lia. Qed.

Lemma occursAt_nil (n : string) (i : nat) : occursAt n "" i -> i = 0%nat.
Proof. unfold occursAt. simpl. lia. Qed.

Lemma find_eq (n h : string) :
  find n h = if String.prefix n h then Some 0%nat
             else match h with
                  | "" => None
                  | String _ t => S <$> find n t
                  end.
Proof. destruct h; reflexivity. Qed.

Lemma find_Some (n h : string) (i : nat) : find n h = Some i <-> firstAt n h i.
Proof.
  revert i. induction h as [|c h IH]; intros i; rewrite find_eq.
  - destruct (String.prefix n "") eqn:Hp.
    + split.
      * intros [= <-]. split; [apply occursAt_0, Hp|intros; lia].
      * intros [Ho _]. apply occursAt_nil in Ho. congruence.
    + split; [discriminate|].
      intros [Ho _]. pose proof (occursAt_nil _ _ Ho) as ->.
      apply occursAt_0 in Ho. congruence.
  - destruct (String.prefix n (String c h)) eqn:Hp.
    + split.
      * intros [= <-]. split; [apply occursAt_0, Hp|intros; lia].
      * intros [_ Hmin]. destruct i as [|i]; [reflexivity|].
        exfalso. apply (Hmin 0%nat); [lia|]. apply occursAt_0, Hp.
    + split.
      * destruct (find n h) as [k|] eqn:Hf; simpl; [|discriminate].
        intros [= <-]. destruct (proj1 (IH k) eq_refl) as [Ho Hmin].
        split; [apply occursAt_S, Ho|].
        intros [|j] Hj Hocc.
        -- apply occursAt_0 in Hocc. congruence.
        -- apply occursAt_S in Hocc. apply (Hmin j); [lia|exact Hocc].
      * intros [Ho Hmin]. destruct i as [|i].
        -- apply occursAt_0 in Ho. congruence.
        -- apply occursAt_S in Ho.
           assert (Hfirst : firstAt n h i).
           { split; [exact Ho|]. intros j Hj Hocc.
             apply (Hmin (S j)); [lia|]. apply occursAt_S, Hocc. }
           apply IH in Hfirst. rewrite Hfirst. reflexivity.
Qed.

Lemma find_None (n h : string) : find n h = None <-> ~ occurs n h.
Proof.
  induction h as [|c h IH]; rewrite find_eq.
  - destruct (String.prefix n "") eqn:Hp.
    + split; [discriminate|]. intros Hno. exfalso. apply Hno.
      exists 0%nat. apply occursAt_0, Hp.
    + split; [|reflexivity]. intros _ [i Ho].
      pose proof (occursAt_nil _ _ Ho) as ->. apply occursAt_0 in Ho. congruence.
  - destruct (String.prefix n (String c h)) eqn:Hp.
    + split; [discriminate|]. intros Hno. exfalso. apply Hno.
      exists 0%nat. apply occursAt_0, Hp.
    + destruct (find n h) as [k|] eqn:Hf; simpl.
      * split; [discriminate|]. intros Hno. exfalso. apply Hno.
        apply find_Some in Hf. destruct Hf as [Ho _].
        exists (S k). apply occursAt_S, Ho.
      * split; [|reflexivity]. intros _ [[|i] Ho].
        -- apply occursAt_0 in Ho. congruence.
        -- apply occursAt_S in Ho. apply (proj1 IH eq_refl). exists i. exact Ho.
Qed.

Lemma occurs_find (n h : string) : occurs n h -> exists i, find n h = Some i.
Proof.
  intros Ho. destruct (find n h) as [i|] eqn:Hf; [eauto|].
  apply find_None in Hf. contradiction.
Qed.

Lemma occursAt_bound (n h : string) (i : nat) :
  occursAt n h i -> (i + String.length n <= String.length h)%nat.
Proof.
  intros [Hi Hp]. apply prefix_length in Hp. rewrite str_length_drop in Hp. lia.
Qed.

(** [s.slice(0, n)] and [s.slice(n)] for a natural [n]. *)
Lemma slice_0 (s : string) (n : nat) : slice s 0 (Z.of_nat n) = str_take n s.
Proof.
  unfold slice, relIndex, len. simpl.
  destruct (Z.ltb_spec (Z.of_nat n) 0); [lia|].
  replace (Z.min 0 (Z.of_nat (String.length s))) with 0 by lia. simpl.
  destruct (Nat.le_gt_cases n (String.length s)).
  - f_equal. lia.
  - rewrite !str_take_all by lia. reflexivity.
Qed.

Lemma str_drop_all (n : nat) (s : string) :
  (String.length s <= n)%nat -> str_drop n s = "".
Proof.
  intros H. pose proof (str_length_drop n s) as Hl.
  destruct (str_drop n s); [reflexivity|simpl in Hl; lia].
Qed.

Lemma sliceFrom_nat (s : string) (n : nat) : sliceFrom s (Z.of_nat n) = str_drop n s.
Proof.
  unfold sliceFrom, slice, relIndex, len.
  destruct (Z.ltb_spec (Z.of_nat n) 0); [lia|].
  destruct (Z.ltb_spec (Z.of_nat (String.length s)) 0); [lia|].
  rewrite str_take_all.
  - destruct (Nat.le_gt_cases n (String.length s)).
    + f_equal. lia.
    + rewrite !str_drop_all by lia. reflexivity.
  - rewrite str_length_drop. lia.
Qed.

(** A needle that starts in the first part of a concatenation and ends
    beyond it contains the first code unit of the second part. *)
Lemma prefix_straddle (n x : string) (c : ascii) (y : string) :
  String.prefix n (x +:+ String c y) = true ->
  (String.length x < String.length n)%nat ->
  hasChar c n = true.
Proof.
  revert n. induction x as [|e x IH]; intros [|d n] Hp Hl; simpl in Hl; try lia.
  - rewrite str_app_nil_l in Hp. simpl in Hp.
    destruct (ascii_dec d c) as [->|]; [|discriminate].
    simpl. rewrite Ascii.eqb_refl. reflexivity.
  - rewrite str_app_cons in Hp. simpl in Hp.
    destruct (ascii_dec d e); [|discriminate].
    simpl. rewrite (IH n Hp) by lia. apply orb_true_r.
Qed.

(** Occurrences of a needle in [a c b] when the needle does not contain
    the code unit [c]: wholly in [a] or wholly in [b]. *)
Lemma occursAt_sep (n a : string) (c : ascii) (b : string) (k : nat) :
  hasChar c n = false ->
  occursAt n (a +:+ String c b) k ->
  ((k + String.length n <= String.length a)%nat /\ occursAt n a k) \/
  ((String.length a < k)%nat /\ occursAt n b (k - String.length a - 1)).
Proof.
  intros Hc [Hk Hp].
  rewrite str_length_app in Hk. simpl in Hk.
  destruct (Nat.le_gt_cases k (String.length a)) as [Hle|Hgt].
  - left. rewrite str_drop_app_le in Hp by exact Hle.
    destruct (Nat.le_gt_cases (String.length n) (String.length (str_drop k a)))
      as [Hfit|Hover].
    + rewrite prefix_app_l in Hp by exact Hfit.
      rewrite str_length_drop in Hfit. split; [lia|]. split; [exact Hle|exact Hp].
    + apply prefix_straddle in Hp; [congruence|exact Hover].
  - right. split; [exact Hgt|].
    rewrite str_drop_app_ge in Hp by lia.
    replace (k - String.length a)%nat with (S (k - String.length a - 1)) in Hp by lia.
    simpl in Hp. split; [lia|exact Hp].
Qed.

(** An occurrence in the first part of a concatenation is an occurrence
    in the whole. *)
Lemma occursAt_app_l (n a b : string) (k : nat) :
  occursAt n a k -> occursAt n (a +:+ b) k.
Proof.
  intros Ho. pose proof (occursAt_bound _ _ _ Ho) as Hb. destruct Ho as [Hk Hp].
  split; [rewrite str_length_app; lia|].
  rewrite str_drop_app_le by exact Hk.
  rewrite prefix_app_l; [exact Hp|]. rewrite str_length_drop. lia.
Qed.

End JsStringFacts.

(** ** The WAF managed-rule enum generator *)

Module WafRuleEnumSpec.
Import Eff Node JsString JsStringFacts WafRuleEnum.

Example formatRuleGroupName_samples :
  map formatRuleGroupName
      ["AWSManagedRulesCommonRuleSet"; "AWSManagedRulesSQLiRuleSet";
       "AWSManagedRulesPHPRuleSet"; "AWSManagedRulesAmazonIpReputationList";
       "AWSManagedRulesATPRuleSet"; "AWSManagedRulesKnownBadInputsRuleSet"] =
    ["COMMON_RULE_SET"; "SQL_DATABASE_RULE_SET"; "PHP_RULE_SET";
     "AMAZON_IP_REPUTATION_LIST"; "ATP_RULE_SET"; "KNOWN_BAD_INPUTS_RULE_SET"].
Proof. vm_compute. reflexivity. Qed.

Example injectBetweenMarkers_sample :
  injectBetweenMarkers sampleEnum sampleFile =
    Normal (join nl
              ["export namespace W {";
               "    /** WAF Managed Rule Groups */";
               "    export enum AwsManagedRuleGroup {";
               "        /** Core rule set */";
               "        COMMON_RULE_SET = 'AWSManagedRulesCommonRuleSet'";
               "    }";
               "    /** End WAF Managed Rule Groups */";
               "}"; ""]).
Proof. vm_compute. reflexivity. Qed.

Lemma inject_found (enumString content : string) (i j : nat) :
  find startMarker content = Some i ->
  find endMarker content = Some j ->
  injectBetweenMarkers enumString content =
    Normal (str_take (i + String.length startMarker) content +:+
            generatedRegion enumString +:+ str_drop j content).
Proof.
  intros Hs He. unfold injectBetweenMarkers, indexOf, generatedRegion.
  rewrite Hs, He.
  destruct (Z.eqb_spec (Z.of_nat i) (-1)); [lia|].
  destruct (Z.eqb_spec (Z.of_nat j) (-1)); [lia|]. simpl orb. cbv iota.
  unfold len. rewrite <- Nat2Z.inj_add, slice_0, sliceFrom_nat.
  rewrite !str_app_assoc. reflexivity.
Qed.

Lemma inject_not_found (enumString content : string) :
  find startMarker content = None \/ find endMarker content = None ->
  injectBetweenMarkers enumString content =
    Throw (Error "Could not find injection markers in the file").
Proof.
  intros H. unfold injectBetweenMarkers, indexOf.
  destruct H as [-> | ->]; [reflexivity|].
  rewrite orb_true_r. reflexivity.
Qed.

(** The text up to and including the first start marker. *)
Lemma head_through_marker (marker content : string) (i : nat) :
  occursAt marker content i ->
  str_take (i + String.length marker) content = str_take i content +:+ marker.
Proof.
  intros [Hi Hp].
  rewrite <- (str_take_drop i content) at 1.
  rewrite (prefix_inv _ _ Hp), <- str_app_assoc.
  replace (i + String.length marker)%nat
    with (String.length (str_take i content +:+ marker)).
  - apply str_take_app_length.
  - rewrite str_length_app, str_length_take. lia.
Qed.

(** What one run does to the file system, case by case. *)
Lemma generate_run send (w : World) :
  let w' := snd (generateAndInjectAwsManagedRuleEnum send w) in
  match send "us-east-1" "REGIONAL" with
  | Throw _ => written w' = written w /\ files w' = files w
  | Normal response =>
      let ruleGroups := default [] (ManagedRuleGroups response) in
      match ruleGroups, files w !! filePath with
      | [], _ | _, None => written w' = written w /\ files w' = files w
      | _ :: _, Some old =>
          match injectBetweenMarkers (enumStringOf (newMap (namedRules ruleGroups))) old with
          | Throw _ => written w' = written w /\ files w' = files w
          | Normal newContent =>
              written w' = written w ++ [(filePath, newContent)] /\
              files w' = <[filePath := newContent]> (files w)
          end
      end
  end.
Proof.
  unfold generateAndInjectAwsManagedRuleEnum, generateBody, tryCatch, bind, await.
  destruct (send "us-east-1" "REGIONAL") as [response|e]; simpl; [|auto].
  destruct (default [] (ManagedRuleGroups response)) as [|g gs] eqn:Hg; simpl; [auto|].
  unfold readFileSync.
  destruct (files w !! filePath) as [old|] eqn:Hf; simpl; [|auto].
  destruct (injectBetweenMarkers _ old) as [newContent|e]; simpl; auto.
Qed.

(** C5, as amended.  A run of the generator either writes nothing, or
    writes the target file once, with a content made of the old content
    up to and including the first start marker, a generated text, and
    the old content from the first end marker on; when the start marker
    ends before the end marker begins, these two kept parts enclose
    exactly the region that changes.  If the file lacks one of the markers,
    nothing is written; if the rule groups are obtained and the file
    has both markers, the write takes place. *)
Theorem inject_changes_only_between_markers send (w : World) :
  let w' := snd (generateAndInjectAwsManagedRuleEnum send w) in
  ((written w' = written w /\ files w' = files w) \/
   exists old i j generated,
     files w !! filePath = Some old /\
     firstAt startMarker old i /\ firstAt endMarker old j /\
     let head := str_take i old +:+ startMarker in
     let tail := str_drop j old in
     str_take (i + String.length startMarker) old = head /\
     startsWith tail endMarker = true /\
     written w' = written w ++ [(filePath, head +:+ generated +:+ tail)] /\
     files w' = <[filePath := head +:+ generated +:+ tail]> (files w) /\
     ((i + String.length startMarker <= j)%nat ->
      exists between, old = head +:+ between +:+ tail)) /\
  (forall old, files w !! filePath = Some old ->
     ~ occurs startMarker old \/ ~ occurs endMarker old ->
     written w' = written w /\ files w' = files w) /\
  (forall response old,
     send "us-east-1" "REGIONAL" = Normal response ->
     default [] (ManagedRuleGroups response) <> [] ->
     files w !! filePath = Some old ->
     occurs startMarker old -> occurs endMarker old ->
     exists newContent, written w' = written w ++ [(filePath, newContent)]).
Proof.
  intros w'. pose proof (generate_run send w) as Hrun. fold w' in Hrun.
  cbv zeta in Hrun. split; [|split].
  - destruct (send "us-east-1" "REGIONAL") as [response|e]; [|left; exact Hrun].
    destruct (default [] (ManagedRuleGroups response)) as [|g gs]; [left; exact Hrun|].
    destruct (files w !! filePath) as [old|] eqn:Hf; [|left; exact Hrun].
    set (E := enumStringOf _) in Hrun.
    destruct (find startMarker old) as [i|] eqn:Hs;
      [|rewrite inject_not_found in Hrun by auto; left; exact Hrun].
    destruct (find endMarker old) as [j|] eqn:He;
      [|rewrite inject_not_found in Hrun by auto; left; exact Hrun].
    rewrite (inject_found _ _ _ _ Hs He) in Hrun.
    apply find_Some in Hs, He.
    pose proof (head_through_marker _ _ _ (proj1 Hs)) as Hhead.
    rewrite Hhead in Hrun. destruct Hrun as [Hw Hfs].
    right. exists old, i, j, (generatedRegion E). cbv zeta.
    repeat split; try assumption; try apply Hs; try apply He.
    intros Hij. exists (str_take (j - (i + String.length startMarker))
                          (str_drop (i + String.length startMarker) old)).
    rewrite <- Hhead.
    rewrite <- (str_take_drop (i + String.length startMarker) old) at 1. f_equal.
    rewrite <- (str_take_drop (j - (i + String.length startMarker))
                  (str_drop (i + String.length startMarker) old)) at 1.
    f_equal. rewrite str_drop_drop. f_equal. lia.
  - intros old Hf Habsent. rewrite Hf in Hrun.
    destruct (send "us-east-1" "REGIONAL") as [response|e]; [|exact Hrun].
    destruct (default [] (ManagedRuleGroups response)) as [|g gs]; [exact Hrun|].
    rewrite inject_not_found in Hrun; [exact Hrun|].
    destruct Habsent as [H|H]; apply find_None in H; auto.
  - intros response old Hsend Hgroups Hf Hs He.
    rewrite Hsend, Hf in Hrun.
    destruct (default [] (ManagedRuleGroups response)) as [|g gs]; [congruence|].
    apply occurs_find in Hs, He. destruct Hs as [i Hs], He as [j He].
    rewrite (inject_found _ _ _ _ Hs He) in Hrun. destruct Hrun as [Hw _].
    eexists. exact Hw.
Qed.

(** C5, as stated, fails: in a file whose end marker comes before its
    start marker there is no region between the markers, and a run
    does not leave the rest as it is.  What is kept up to the start
    marker, 65 code units, and what is kept from the end marker, the
    whole file of 66 code units, overlap: the file is not the one with
    a text between them, and the written content is longer than the
    file by the generated text and 65 code units more. *)
Lemma reversed_markers_change_more_than_a_region :
  let old := reversedFile in
  let w := mkWorld (<[filePath := old]> ∅) [] [] in
  let send := fun _ _ : string => Normal unnamedResponse in
  let head := str_take 65 old in
  let tail := str_drop 0 old in
  find startMarker old = Some 35%nat /\
  find endMarker old = Some 0%nat /\
  String.length startMarker = 30%nat /\
  String.length old = 66%nat /\
  written (snd (generateAndInjectAwsManagedRuleEnum send w)) =
    [(filePath, head +:+ generatedRegion emptyEnum +:+ tail)] /\
  (forall between, old <> head +:+ between +:+ tail) /\
  String.length (head +:+ generatedRegion emptyEnum +:+ tail) =
    (String.length old + String.length (generatedRegion emptyEnum) + 65)%nat.
Proof.
  cbv zeta. split; [reflexivity|]. split; [reflexivity|]. split; [reflexivity|].
  split; [reflexivity|]. split; [vm_compute; reflexivity|]. split.
  - intros between H. apply (f_equal String.length) in H.
    rewrite !str_length_app in H.
    change (String.length reversedFile) with 66%nat in H.
    change (String.length (str_take 65 reversedFile)) with 65%nat in H.
    change (String.length (str_drop 0 reversedFile)) with 66%nat in H. lia.
  - vm_compute. reflexivity.
Qed.

Lemma occursAt_app_inv_l (n a b : string) (k : nat) :
  occursAt n (a +:+ b) k -> (k + String.length n <= String.length a)%nat ->
  occursAt n a k.
Proof.
  intros [Hk Hp] Hfit. split; [lia|].
  rewrite str_drop_app_le in Hp by lia.
  rewrite prefix_app_l in Hp; [exact Hp|]. rewrite str_length_drop. lia.
Qed.

Lemma occursAt_app_r (n a b : string) (k : nat) :
  occursAt n b k -> occursAt n (a +:+ b) (String.length a + k).
Proof.
  intros [Hk Hp]. split; [rewrite str_length_app; lia|].
  rewrite <- str_drop_drop, str_drop_app_length. exact Hp.
Qed.

Lemma endMarker_no_LF : hasChar LF endMarker = false.
Proof. reflexivity. Qed.

Lemma marker_lengths :
  String.length startMarker = 30%nat /\ String.length endMarker = 34%nat.
Proof. split; reflexivity. Qed.

Lemma generatedRegion_eq (enumString : string) :
  generatedRegion enumString = String LF (enumString +:+ String LF "    ").
Proof. reflexivity. Qed.

Lemma length_generatedRegion (enumString : string) :
  String.length (generatedRegion enumString) = (String.length enumString + 6)%nat.
Proof.
  rewrite generatedRegion_eq. simpl. rewrite str_length_app. simpl. lia.
Qed.

(** After one injection the first start marker is where it was. *)
Lemma start_marker_stays (content rest : string) (i : nat) :
  firstAt startMarker content i ->
  firstAt startMarker
    (str_take (i + String.length startMarker) content +:+ rest) i.
Proof.
  intros [Ho Hmin].
  pose proof (occursAt_bound _ _ _ Ho) as Hb.
  assert (Hlen : String.length (str_take (i + String.length startMarker) content)
                 = (i + String.length startMarker)%nat)
    by (rewrite str_length_take; lia).
  split.
  - apply occursAt_app_l. rewrite (head_through_marker _ _ _ Ho).
    replace i with (String.length (str_take i content) + 0)%nat at 2
      by (rewrite str_length_take; lia).
    apply occursAt_app_r. apply occursAt_0.
    rewrite <- (str_app_nil_r startMarker) at 2. apply prefix_app.
  - intros k Hk Hocc. apply (Hmin k Hk).
    apply occursAt_app_inv_l in Hocc; [|lia].
    rewrite <- (str_take_drop (i + String.length startMarker) content).
    apply occursAt_app_l, Hocc.
Qed.

(** After one injection the first end marker is the one that follows
    the generated text. *)
Lemma end_marker_follows (enumString content : string) (i j : nat) :
  firstAt startMarker content i ->
  firstAt endMarker content j ->
  (i < j)%nat ->
  ~ occurs endMarker enumString ->
  firstAt endMarker
    (str_take (i + String.length startMarker) content +:+
     generatedRegion enumString +:+ str_drop j content)
    (i + String.length startMarker + String.length (generatedRegion enumString)).
Proof.
  intros [Hs _] [He Hmin] Hij Hfresh.
  pose proof (occursAt_bound _ _ _ Hs) as Hbs.
  destruct marker_lengths as [Ls Le].
  set (head := str_take (i + String.length startMarker) content).
  assert (Hlen : String.length head = (i + String.length startMarker)%nat)
    by (unfold head; rewrite str_length_take; lia).
  split.
  - rewrite <- str_app_assoc, <- Hlen, <- str_length_app.
    replace (String.length (head +:+ generatedRegion enumString))
      with (String.length (head +:+ generatedRegion enumString) + 0)%nat by lia.
    apply occursAt_app_r, occursAt_0. apply He.
  - intros k Hk Hocc. rewrite length_generatedRegion in Hk.
    rewrite generatedRegion_eq, str_app_cons in Hocc.
    apply occursAt_sep in Hocc; [|exact endMarker_no_LF].
    destruct Hocc as [[Hfit Hocc]|[Hpast Hocc]].
    + (* wholly inside the kept head *)
      assert (Hc : occursAt endMarker content k).
      { rewrite <- (str_take_drop (i + String.length startMarker) content).
        apply occursAt_app_l, Hocc. }
      destruct (Nat.lt_ge_cases k j) as [Hlt|Hge]; [exact (Hmin k Hlt Hc)|lia].
    + rewrite str_app_assoc, str_app_cons in Hocc.
      apply occursAt_sep in Hocc; [|exact endMarker_no_LF].
      destruct Hocc as [[_ Hocc]|[Hpast' Hocc]].
      * (* wholly inside the generated enum *)
        apply Hfresh. eexists. exact Hocc.
      * (* starting in the indentation before the end marker *)
        destruct Hocc as [_ Hp]. revert Hp.
        set (k2 := (k - String.length head - 1 - String.length enumString - 1)%nat).
        assert (Hk2 : (k2 < 4)%nat) by (unfold k2; lia).
        rewrite !str_app_cons, str_app_nil_l.
        destruct k2 as [|[|[|[|k2]]]]; simpl; try discriminate; lia.
Qed.

(** C6, as amended.  When the first start marker of the file begins
    before its first end marker and the generated enum does not contain
    the end marker, one injection yields a file that has the start
    marker, the generated text and the end marker in a row, and a second
    injection of the same enum leaves that file as it is. *)
Theorem inject_twice_same (enumString content : string) (i j : nat) :
  firstAt startMarker content i ->
  firstAt endMarker content j ->
  (i < j)%nat ->
  ~ occurs endMarker enumString ->
  exists out before after,
    injectBetweenMarkers enumString content = Normal out /\
    out = before +:+ startMarker +:+ nl +:+ enumString +:+ nl +:+ "    " +:+
          endMarker +:+ after /\
    injectBetweenMarkers enumString out = Normal out.
Proof.
  intros Hs He Hij Hfresh.
  pose proof (start_marker_stays content
                (generatedRegion enumString +:+ str_drop j content) i Hs) as Hs'.
  pose proof (end_marker_follows enumString content i j Hs He Hij Hfresh) as He'.
  pose proof (occursAt_bound _ _ _ (proj1 Hs)) as Hbs.
  set (head := str_take (i + String.length startMarker) content) in *.
  assert (Hlen : String.length head = (i + String.length startMarker)%nat)
    by (unfold head; rewrite str_length_take; lia).
  exists (head +:+ generatedRegion enumString +:+ str_drop j content),
         (str_take i content),
         (str_drop (String.length endMarker) (str_drop j content)).
  split; [|split].
  - apply inject_found; apply find_Some; assumption.
  - unfold head. rewrite (head_through_marker _ _ _ (proj1 Hs)).
    rewrite (prefix_inv _ _ (proj2 (proj1 He))) at 1.
    unfold generatedRegion. rewrite !str_app_assoc. reflexivity.
  - apply find_Some in Hs', He'.
    rewrite (inject_found _ _ _ _ Hs' He'). f_equal.
    rewrite <- Hlen at 1. rewrite str_take_app_length. f_equal. f_equal.
    rewrite <- Hlen, <- str_app_assoc, <- str_length_app. apply str_drop_app_length.
Qed.

(** The amended C6 at the sample file and the sample enum. *)
Lemma inject_twice_same_witness :
  firstAt startMarker sampleFile 25 /\
  firstAt endMarker sampleFile 99 /\
  ~ occurs endMarker sampleEnum /\
  exists out before after,
    injectBetweenMarkers sampleEnum sampleFile = Normal out /\
    out = before +:+ startMarker +:+ nl +:+ sampleEnum +:+ nl +:+ "    " +:+
          endMarker +:+ after /\
    injectBetweenMarkers sampleEnum out = Normal out.
Proof.
  assert (Hs : firstAt startMarker sampleFile 25) by (apply find_Some; reflexivity).
  assert (He : firstAt endMarker sampleFile 99) by (apply find_Some; reflexivity).
  assert (Hfresh : ~ occurs endMarker sampleEnum) by (apply find_None; reflexivity).
  split; [exact Hs|]. split; [exact He|]. split; [exact Hfresh|].
  apply (inject_twice_same sampleEnum sampleFile 25 99 Hs He); [lia|exact Hfresh].
Defined.

(** C6, as stated, fails: in a file that has both markers, the end
    marker before the start marker, a second injection of the same enum
    gives another file than the first. *)
Lemma inject_twice_differs :
  occurs startMarker reversedFile /\ occurs endMarker reversedFile /\
  exists out1 out2,
    injectBetweenMarkers sampleEnum reversedFile = Normal out1 /\
    injectBetweenMarkers sampleEnum out1 = Normal out2 /\
    out1 <> out2.
Proof.
  split; [|split].
  - exists 35%nat. split; [simpl; lia|reflexivity].
  - exists 0%nat. split; [simpl; lia|reflexivity].
  - eexists. eexists. split; [vm_compute; reflexivity|].
    split; [vm_compute; reflexivity|].
    intros H. apply (f_equal String.length) in H. vm_compute in H. discriminate H.
Qed.

(** The same failure when the generated enum itself contains the end
    marker, as it does for a rule group described by the words of the
    marker. *)
Lemma inject_twice_differs_marker_in_enum :
  let enumString :=
    enumStringOf [("AWSManagedRulesCommonRuleSet", "End WAF Managed Rule Groups")] in
  occurs endMarker enumString /\
  exists out1 out2,
    injectBetweenMarkers enumString sampleFile = Normal out1 /\
    injectBetweenMarkers enumString out1 = Normal out2 /\
    out1 <> out2.
Proof.
  split.
  - exists 46%nat. split; [vm_compute; lia|reflexivity].
  - eexists. eexists. split; [vm_compute; reflexivity|].
    split; [vm_compute; reflexivity|].
    intros H. apply (f_equal String.length) in H. vm_compute in H. discriminate H.
Qed.

End WafRuleEnumSpec.

(** ** The README generator: [parseApiDoc] *)

Module ParseApiDocSpec.
Import Eff Node JsString JsStringFacts ReadmeLibrary.

Lemma allItems_pushConstruct item st :
  allItems (pushConstruct item st) ≡ₚ item :: allItems st.
Proof.
  unfold allItems. simpl. rewrite <- (assoc_L (++)). symmetry.
  apply Permutation_middle.
Qed.

Lemma allItems_pushAspect item st :
  allItems (pushAspect item st) ≡ₚ item :: allItems st.
Proof.
  unfold allItems. simpl. rewrite <- (assoc_L (++) (st_aspects st)). simpl.
  rewrite (assoc_L (++) (st_constructs st) (st_aspects st) (item :: _)).
  rewrite (assoc_L (++) (st_constructs st) (st_aspects st) (st_patterns st)).
  symmetry. apply Permutation_middle.
Qed.

Lemma allItems_pushPattern item st :
  allItems (pushPattern item st) ≡ₚ item :: allItems st.
Proof.
  unfold allItems. simpl. rewrite !(assoc_L (++)).
  symmetry. apply Permutation_cons_append.
Qed.

Section Invariant.

(** Indices of lines that must not give rise to an item. *)
Variable excluded : nat -> Prop.

Lemma filedOk_push (i : nat) (st st' : LoopState) (item : DocItem) :
  allItems st' ≡ₚ item :: allItems st ->
  filedOk excluded i st ->
  (ref item < i)%nat -> ~ excluded (ref item) -> ref item ∉ (ref <$> allItems st) ->
  filedOk excluded i st'.
Proof.
  intros Hperm [Hall Hnd] Hlt Hex Hfresh. split.
  - intros x Hx. rewrite Hperm in Hx. apply elem_of_cons in Hx as [->|Hx]; auto.
  - rewrite Hperm. rewrite fmap_cons. apply NoDup_cons. auto.
Qed.

Lemma filedOk_mono (i j : nat) (st : LoopState) :
  (i <= j)%nat -> filedOk excluded i st -> filedOk excluded j st.
Proof.
  intros Hij [Hall Hnd]. split; [|exact Hnd].
  intros x Hx. destruct (Hall x Hx). split; [lia|assumption].
Qed.

Lemma pendingOk_mono (i j : nat) (st : LoopState) :
  (i <= j)%nat -> pendingOk excluded i st -> pendingOk excluded j st.
Proof.
  intros Hij H x Hx. destruct (H x Hx) as (? & ? & ?). repeat split; [lia|auto..].
Qed.

(** Filing the pending item keeps the filed items in order. *)
Lemma categorizePending_filedOk (i : nat) (line : string) (st : LoopState) :
  filedOk excluded i st -> pendingOk excluded i st -> filedOk excluded i (categorizePending line st).
Proof.
  intros Hf Hp. unfold categorizePending.
  destruct (currentItem st) as [item|] eqn:Hc; [|exact Hf].
  destruct (Hp item Hc) as (Hlt & Hex & Hfresh).
  destruct (matchId line) as [id0|]; [|exact Hf].
  repeat case_match; try exact Hf;
    eauto using filedOk_push, allItems_pushPattern, allItems_pushAspect,
      allItems_pushConstruct.
Qed.

Lemma header_ok (i : nat) (line : string) (following : list string) (st : LoopState) :
  (excluded i -> exists id0, matchId line = Some id0 /\
                             includes (toLowerCase id0) ".types." = true) ->
  filedOk excluded i st -> pendingOk excluded i st ->
  filedOk excluded (S i) (header i line following st) /\
  pendingOk excluded (S i) (header i line following st).
Proof.
  intros Hex Hf Hp. unfold header.
  pose proof (categorizePending_filedOk i line st Hf Hp) as Hf1.
  destruct (matchId line) as [id0|] eqn:Hid.
  - set (st1 := categorizePending line st) in *.
    destruct (includes (toLowerCase id0) ".types.") eqn:Htypes.
    + split; [apply (filedOk_mono i); [lia|exact Hf1]|].
      intros x Hx. discriminate Hx.
    + set (item := mkDocItem i _ _).
      assert (Hnew : ~ excluded (ref item)).
      { intros Hbad. destruct (Hex Hbad) as (id1 & Hid1 & Ht). congruence. }
      assert (Hfresh : ref item ∉ (ref <$> allItems st1)).
      { intros Hin. apply list_elem_of_fmap in Hin as (y & Hy & Hin).
        destruct Hf1 as [Hall _]. destruct (Hall y Hin) as [Hlt _].
        simpl in Hy. lia. }
      assert (Hpush : forall st', allItems st' ≡ₚ item :: allItems st1 ->
                        filedOk excluded (S i) st').
      { intros st' Hperm.
        apply (filedOk_push (S i) st1 st' item Hperm);
          [apply (filedOk_mono i); [lia|exact Hf1]|simpl; lia|exact Hnew|exact Hfresh]. }
      repeat case_match.
      * split; [apply Hpush, allItems_pushPattern|intros x Hx; discriminate Hx].
      * split; [apply Hpush, allItems_pushAspect|intros x Hx; discriminate Hx].
      * split; [apply Hpush, allItems_pushConstruct|intros x Hx; discriminate Hx].
      * split; [apply (filedOk_mono i); [lia|exact Hf1]|].
        intros x [= <-]. repeat split; [simpl; lia|exact Hnew|exact Hfresh].
  - (* no id: nothing was filed and the pending item stays *)
    assert (Heq : categorizePending line st = st).
    { unfold categorizePending. rewrite Hid. destruct (currentItem st); reflexivity. }
    rewrite Heq. split; [apply (filedOk_mono i)|apply (pendingOk_mono i)]; auto.
Qed.

Lemma step_ok (i : nat) (raw : string) (following : list string) (st : LoopState) :
  (excluded i -> exists id0, matchId (trim raw) = Some id0 /\
                             includes (toLowerCase id0) ".types." = true) ->
  filedOk excluded i st -> pendingOk excluded i st ->
  filedOk excluded (S i) (step i raw following st) /\
  pendingOk excluded (S i) (step i raw following st).
Proof.
  intros Hex Hf Hp.
  assert (Hkeep : forall st', allItems st' = allItems st ->
                    currentItem st' = currentItem st ->
                    filedOk excluded (S i) st' /\ pendingOk excluded (S i) st').
  { intros st' Ha Hc. split.
    - apply (filedOk_mono i); [lia|]. unfold filedOk. rewrite Ha. exact Hf.
    - apply (pendingOk_mono i); [lia|]. unfold pendingOk. rewrite Ha, Hc. exact Hp. }
  unfold step. case_match; [apply Hkeep; reflexivity|].
  set (st0 := if startsWith (trim raw) "## " then setIgnored false st else st).
  assert (Ha : allItems st0 = allItems st) by (unfold st0; case_match; reflexivity).
  assert (Hc : currentItem st0 = currentItem st) by (unfold st0; case_match; reflexivity).
  case_match; [apply Hkeep; assumption|].
  case_match; [|apply Hkeep; assumption].
  apply header_ok; [exact Hex| |].
  - unfold filedOk. rewrite Ha. exact Hf.
  - unfold pendingOk. rewrite Ha, Hc. exact Hp.
Qed.

Lemma parseLines_ok (lines : list string) (i : nat) (st : LoopState) :
  (forall k raw, lines !! k = Some raw -> excluded (i + k) ->
     exists id0, matchId (trim raw) = Some id0 /\
                 includes (toLowerCase id0) ".types." = true) ->
  filedOk excluded i st -> pendingOk excluded i st ->
  filedOk excluded (i + length lines) (parseLines i lines st) /\
  pendingOk excluded (i + length lines) (parseLines i lines st).
Proof.
  revert i st. induction lines as [|raw following IH]; intros i st Hex Hf Hp.
  - simpl. rewrite Nat.add_0_r. auto.
  - simpl. replace (i + S (length following))%nat with (S i + length following)%nat by lia.
    destruct (step_ok i raw following st) as [Hf' Hp']; auto.
    { intros Hbad. apply (Hex 0%nat raw); [reflexivity|]. rewrite Nat.add_0_r. exact Hbad. }
    apply IH; auto.
    intros k raw' Hk Hbad. apply (Hex (S k) raw'); [exact Hk|].
    replace (i + S k)%nat with (S i + k)%nat by lia. exact Hbad.
Qed.

End Invariant.

Lemma length_mapChars (f : ascii -> ascii) (s : string) :
  String.length (mapChars f s) = String.length s.
Proof. induction s as [|c s IH]; simpl; congruence. Qed.

Lemma drop_mapChars (f : ascii -> ascii) (n : nat) (s : string) :
  str_drop n (mapChars f s) = mapChars f (str_drop n s).
Proof.
  revert s. induction n as [|n IH]; intros [|c s]; simpl; auto.
Qed.

Lemma prefix_mapChars (f : ascii -> ascii) (p s : string) :
  String.prefix p s = true -> String.prefix (mapChars f p) (mapChars f s) = true.
Proof.
  revert s. induction p as [|c p IH]; intros [|d s] H; simpl in *;
    try reflexivity; try discriminate.
  destruct (ascii_dec c d) as [->|]; [|discriminate].
  destruct (ascii_dec (f d) (f d)); [auto|congruence].
Qed.

Lemma includes_true (s n : string) : includes s n = true <-> occurs n s.
Proof.
  unfold includes. destruct (find n s) as [i|] eqn:Hf.
  - apply find_Some in Hf. split; [|reflexivity]. intros _. exists i. apply Hf.
  - apply find_None in Hf. split; [discriminate|contradiction].
Qed.

(** An id that contains [.types.] still does after [toLowerCase]. *)
Lemma includes_types_lower (id : string) :
  includes id ".types." = true -> includes (toLowerCase id) ".types." = true.
Proof.
  rewrite !includes_true. intros [i [Hi Hp]]. exists i. split.
  - unfold toLowerCase. rewrite length_mapChars. exact Hi.
  - unfold toLowerCase. rewrite drop_mapChars.
    apply (prefix_mapChars lowerChar) in Hp. exact Hp.
Qed.

(** The sample: the pending item [Helper] is dropped at the types
    header, the header in the section of structs is skipped, and the
    last pending item goes to the constructs. *)
Example parseContent_sample :
  parseContent sampleApi =
    mkDocItems
      [mkDocItem 4 "Ec2ImageBuilderStart"
                 "Starts an EC2 Image Builder Pipeline and optionally waits for it.";
       mkDocItem 23 "Last" "The last one."]
      [mkDocItem 17 "Tagger" "Tags things."]
      [].
Proof. vm_compute. reflexivity. Qed.

(** C10.  The items that [parseApiDoc] returns are pairwise distinct
    objects, within each of the three lists and across them, so that
    every item is in at most one list, once; and no item comes from a
    [### ] header line whose id attribute contains [.types.].  The
    function returns this result for every readable file. *)
Theorem parseApiDoc_files_each_item_once (content : string) :
  let result := parseContent content in
  let filed := constructs result ++ aspects result ++ patterns result in
  (forall filePath (w : World), files w !! filePath = Some content ->
     parseApiDoc filePath w = (Normal result, w)) /\
  NoDup (ref <$> filed) /\
  (forall k raw id,
     split LF content !! k = Some raw ->
     startsWith (trim raw) "### " = true ->
     matchId (trim raw) = Some id ->
     includes id ".types." = true ->
     forall item, item ∈ filed -> ref item <> k).
Proof.
  intros result filed.
  set (lines := split LF content).
  set (excluded := fun k => exists raw id,
         lines !! k = Some raw /\ matchId (trim raw) = Some id /\
         includes id ".types." = true).
  assert (Hok : filedOk excluded (length lines) (mkLoopState filed [] [] false None)).
  { destruct (parseLines_ok excluded lines 0 initialState) as [Hf Hp].
    - intros k raw Hk (raw' & id & Hk' & Hid & Ht). simpl in Hk'.
      assert (raw' = raw) as -> by congruence.
      exists id. split; [exact Hid|apply includes_types_lower, Ht].
    - split; [intros x Hx; inversion Hx|constructor].
    - intros x Hx. discriminate Hx.
    - simpl in Hf, Hp. fold lines in Hf, Hp.
      unfold filed, result, parseContent. fold lines. simpl.
      set (st := parseLines 0 lines initialState) in *.
      destruct (currentItem st) as [item|] eqn:Hc.
      + destruct (Hp item Hc) as (Hlt & Hex & Hfresh).
        apply (filedOk_push excluded _ st _ item); auto.
        unfold allItems at 1. simpl. rewrite !(right_id_L [] (++)).
        apply (allItems_pushConstruct item st).
      + destruct Hf as [Hall Hnd]. split.
        * intros x Hx. apply Hall. unfold allItems in Hx. simpl in Hx.
          rewrite !(right_id_L [] (++)) in Hx. exact Hx.
        * unfold allItems. simpl. rewrite !(right_id_L [] (++)). exact Hnd. }
  destruct Hok as [Hall Hnd]. unfold allItems in Hall, Hnd. simpl in Hall, Hnd.
  rewrite !(right_id_L [] (++)) in Hall, Hnd.
  split; [|split].
  - intros filePath w Hfile. unfold parseApiDoc, bind, readFileSync.
    rewrite Hfile. reflexivity.
  - exact Hnd.
  - intros k raw id Hk _ Hid Ht item Hin Heq.
    destruct (Hall item Hin) as [_ Hex]. apply Hex.
    rewrite Heq. exists raw, id. auto.
Qed.

End ParseApiDocSpec.

(** ** The README generator: the Library section *)

Module ReadmeLibrarySpec.
Import Eff Node JsString JsStringFacts ReadmeLibrary.

Lemma lazyToNextSection_spec (s : string) :
  let n := lazyToNextSection s in
  (n <= String.length s)%nat /\
  (str_drop n s = "" \/ startsWith (str_drop n s) (nl +:+ "## ") = true) /\
  (forall k, (k < n)%nat -> startsWith (str_drop k s) (nl +:+ "## ") = false).
Proof.
  induction s as [|c s IH]; cbv zeta.
  - change (lazyToNextSection "") with 0%nat.
    split; [simpl; lia|]. split; [left; reflexivity|]. intros k Hk. lia.
  - assert (Heq : lazyToNextSection (String c s)
                  = if startsWith (String c s) (nl +:+ "## ") then 0%nat
                    else S (lazyToNextSection s)) by reflexivity.
    rewrite Heq. clear Heq.
    destruct (startsWith (String c s) (nl +:+ "## ")) eqn:Hsw.
    + split; [simpl; lia|]. split; [right; exact Hsw|]. intros k Hk. lia.
    + destruct IH as (Hn & Hend & Hmin). simpl str_drop. simpl String.length.
      split; [lia|]. split; [exact Hend|].
      intros [|k] Hk; [exact Hsw|]. simpl str_drop. apply Hmin. lia.
Qed.

(** A replacement without a dollar sign stands for itself. *)
Lemma getSubstitution_plain (matched before after replacement : string) :
  hasChar "$" replacement = false ->
  getSubstitution matched before after replacement = replacement.
Proof.
  induction replacement as [|c r IH]; [reflexivity|].
  simpl hasChar. intros H. apply orb_false_elim in H as [Hc Hr].
  assert (Hstep : getSubstitution matched before after (String c r)
                  = String c (getSubstitution matched before after r)).
  { destruct (Ascii.eqb_spec "$" c) as [<-|Hne]; [discriminate|].
    simpl. destruct c as [[] [] [] [] [] [] [] []]; try reflexivity; congruence. }
  rewrite Hstep, (IH Hr). reflexivity.
Qed.

(** The replacement of the Library section keeps the text around the
    span: the span starts at the first [## 📚 Library] and stops at the
    first line feed followed by [## ] after the heading, or at the end
    of the file.  What takes the place of the span is the expansion of
    the replacement string. *)
Lemma replaceLibrarySection_frame (readme replacement : string) :
  (~ occurs libraryHeading readme /\
   replaceLibrarySection readme replacement = readme) \/
  exists before span after,
    readme = before +:+ span +:+ after /\
    firstAt libraryHeading readme (String.length before) /\
    startsWith span libraryHeading = true /\
    (after = "" \/ startsWith after (nl +:+ "## ") = true) /\
    (forall k, (String.length libraryHeading <= k < String.length span)%nat ->
       startsWith (str_drop k (span +:+ after)) (nl +:+ "## ") = false) /\
    replaceLibrarySection readme replacement =
      before +:+ getSubstitution span before after replacement +:+ after.
Proof.
  unfold replaceLibrarySection, matchLibrarySection.
  destruct (find libraryHeading readme) as [start|] eqn:Hf.
  - right. apply find_Some in Hf. pose proof Hf as [Ho _].
    pose proof (occursAt_bound _ _ _ Ho) as Hb.
    set (h := String.length libraryHeading) in *.
    destruct (lazyToNextSection_spec (str_drop (start + h) readme))
      as (Hn & Hend & Hmin).
    set (n := lazyToNextSection (str_drop (start + h) readme)) in *.
    rewrite str_length_drop in Hn.
    replace (start + h + n - start)%nat with (h + n)%nat by lia.
    exists (str_take start readme), (str_take (h + n) (str_drop start readme)),
           (str_drop (start + h + n) readme).
    assert (Hlb : String.length (str_take start readme) = start)
      by (rewrite str_length_take; lia).
    assert (Hls : String.length (str_take (h + n) (str_drop start readme))
                  = (h + n)%nat)
      by (rewrite str_length_take, str_length_drop; lia).
    rewrite Hlb, Hls.
    assert (Hafter : str_drop (start + h + n) readme
                     = str_drop (h + n) (str_drop start readme))
      by (rewrite str_drop_drop; f_equal; lia).
    split; [|split; [|split; [|split; [|split]]]].
    + rewrite Hafter, str_take_drop, str_take_drop. reflexivity.
    + exact Hf.
    + unfold startsWith. destruct Ho as [_ Hp].
      rewrite <- (str_take_drop (h + n) (str_drop start readme)) in Hp.
      rewrite prefix_app_l in Hp; [exact Hp|]. fold h. lia.
    + replace (str_drop (start + h + n) readme)
        with (str_drop n (str_drop (start + h) readme))
        by (rewrite str_drop_drop; reflexivity).
      exact Hend.
    + intros k Hk. rewrite Hafter, str_take_drop, str_drop_drop.
      replace (start + k)%nat with (start + h + (k - h))%nat by lia.
      rewrite <- str_drop_drop. apply Hmin. lia.
    + reflexivity.
  - left. apply find_None in Hf. auto.
Qed.

(** What a run of the script does, case by case. *)
Lemma main_run (w : World) :
  match files w !! "API.md", files w !! "README.md" with
  | None, _ => main w = (Throw (ENOENT "API.md"), w)
  | Some _, None => main w = (Throw (ENOENT "README.md"), w)
  | Some api, Some readme =>
      let apiData := parseContent api in
      let markdown :=
        generateMarkdown (constructs apiData) (aspects apiData) (patterns apiData) in
      let newReadme := replaceLibrarySection readme (newLibrarySectionOf markdown) in
      let total := (length (constructs apiData) + length (aspects apiData) +
                    length (patterns apiData))%nat in
      main w = (Normal tt,
                mkWorld (<["README.md" := newReadme]> (files w))
                        (written w ++ [("README.md", newReadme)])
                        (console w ++ [ConsoleLog ("README updated -- count: " +:+
                                                   ofNat total)]))
  end.
Proof.
  unfold main, parseApiDoc, bind, readFileSync, ret.
  destruct (files w !! "API.md") as [api|]; [|reflexivity].
  destruct (files w !! "README.md") as [readme|]; reflexivity.
Qed.

(** The generated markdown opens with the total, the sum of the lengths
    of the three lists, and each of the three subsections reports the
    length of its own list. *)
Lemma generateMarkdown_counts (constructs aspects patterns : list DocItem) :
  generateMarkdown constructs aspects patterns =
    ("Total: " +:+
       ofNat (length constructs + length aspects + length patterns) +:+ nl +:+ nl) +:+
    ("### 🧱 Constructs" +:+ nl +:+ nl +:+ constructsBlurb +:+ nl +:+ nl +:+
       "Count: " +:+ ofNat (length constructs) +:+ nl +:+ nl +:+
       itemLines constructs) +:+
    (nl +:+ "### 🎭 Aspects" +:+ nl +:+ nl +:+ aspectsBlurb +:+ nl +:+ nl +:+
       "Count: " +:+ ofNat (length aspects) +:+ nl +:+ nl +:+
       itemLines aspects) +:+
    (nl +:+ "### 🎯 Patterns" +:+ nl +:+ nl +:+ patternsBlurb +:+ nl +:+ nl +:+
       "Count: " +:+ ofNat (length patterns) +:+ nl +:+ nl +:+
       itemLines patterns).
Proof. unfold generateMarkdown. rewrite !str_app_assoc. reflexivity. Qed.

(** The part of the claim on the README that holds for every input: a
    run rewrites README.md only, keeps the text before the first
    [## 📚 Library] and the text from the next [## ] line on, and when
    the generated section has no dollar sign, the span between them is
    exactly the generated section. *)
Lemma readme_outside_span_unchanged (w : World) (api readme : string) :
  files w !! "API.md" = Some api ->
  files w !! "README.md" = Some readme ->
  let apiData := parseContent api in
  let section :=
    newLibrarySectionOf
      (generateMarkdown (constructs apiData) (aspects apiData) (patterns apiData)) in
  exists newReadme,
    written (snd (main w)) = written w ++ [("README.md", newReadme)] /\
    files (snd (main w)) = <["README.md" := newReadme]> (files w) /\
    ((~ occurs libraryHeading readme /\ newReadme = readme) \/
     exists before span after inserted,
       readme = before +:+ span +:+ after /\
       firstAt libraryHeading readme (String.length before) /\
       (after = "" \/ startsWith after (nl +:+ "## ") = true) /\
       newReadme = before +:+ inserted +:+ after /\
       inserted = getSubstitution span before after section /\
       (hasChar "$" section = false -> inserted = section)).
Proof.
  intros Hapi Hreadme apiData section.
  pose proof (main_run w) as Hrun. rewrite Hapi, Hreadme in Hrun. cbv zeta in Hrun.
  fold apiData in Hrun. fold section in Hrun. rewrite Hrun. cbn [snd written files].
  eexists. split; [reflexivity|]. split; [reflexivity|].
  destruct (replaceLibrarySection_frame readme section)
    as [[Hno Heq]|(before & span & after & Hsplit & Hfirst & _ & Hafter & _ & Heq)].
  - left. auto.
  - right. exists before, span, after, (getSubstitution span before after section).
    split; [exact Hsplit|]. split; [exact Hfirst|]. split; [exact Hafter|].
    split; [exact Heq|]. split; [reflexivity|]. apply getSubstitution_plain.
Qed.

(** C8 at an input with a dollar sign.  The description of a construct
    in API.md mentions [`$`]; the text that the script writes in place
    of the Library section is not the generated section: where the
    section has [$`], the README has the text that precedes the
    section. *)
Theorem readme_section_expands_dollar_patterns :
  let w := mkWorld (<["API.md" := dollarApi]> (<["README.md" := dollarReadme]> ∅))
                   [] [] in
  let apiData := parseContent dollarApi in
  let section :=
    newLibrarySectionOf
      (generateMarkdown (constructs apiData) (aspects apiData) (patterns apiData)) in
  let before := "# Title" +:+ nl +:+ nl in
  let span := libraryHeading +:+ nl +:+ nl +:+ "old" +:+ nl in
  let after := nl +:+ "## License" +:+ nl in
  constructs apiData =
    [mkDocItem 0 "Vars" "Names that start with `$` are reserved."] /\
  dollarReadme = before +:+ span +:+ after /\
  exists newReadme,
    written (snd (main w)) = [("README.md", newReadme)] /\
    newReadme <> before +:+ section +:+ after /\
    newReadme =
      before +:+
      newLibrarySectionOf
        (generateMarkdown
           [mkDocItem 0 "Vars"
              ("Names that start with `" +:+ before +:+ " are reserved.")] [] []) +:+
      after.
Proof.
  cbv zeta. split; [vm_compute; reflexivity|]. split; [vm_compute; reflexivity|].
  eexists. split; [vm_compute; reflexivity|]. split.
  - intros H. apply (f_equal String.length) in H. vm_compute in H. discriminate H.
  - vm_compute. reflexivity.
Qed.

End ReadmeLibrarySpec.

(** ** Errors at the top level of the generator scripts *)

Module GeneratorScriptsSpec.
Import Eff Node JsString WafRuleEnum.

(** C7, as amended.  The WAF enum generator completes normally whatever
    happens in its body, and an error thrown there (a rejected AWS
    call, an empty answer, an unreadable file, a missing marker) is
    logged with [console.error].  The README generator has no handler:
    a failure to read API.md or README.md is thrown out of the
    script. *)
Theorem waf_generator_logs_errors_readme_generator_throws :
  (forall send (w : World),
     fst (generateAndInjectAwsManagedRuleEnum send w) = Normal tt /\
     (forall error w1, generateBody send w = (Throw error, w1) ->
        snd (generateAndInjectAwsManagedRuleEnum send w) = logged w1 error) /\
     (forall error, send "us-east-1" "REGIONAL" = Throw error ->
        generateBody send w = (Throw error, w)) /\
     (forall response, send "us-east-1" "REGIONAL" = Normal response ->
        default [] (ManagedRuleGroups response) = [] ->
        generateBody send w = (Throw (Error "No managed rule groups found"), w)) /\
     (forall response, send "us-east-1" "REGIONAL" = Normal response ->
        default [] (ManagedRuleGroups response) <> [] ->
        files w !! filePath = None ->
        generateBody send w = (Throw (ENOENT filePath), w)) /\
     (forall response content, send "us-east-1" "REGIONAL" = Normal response ->
        default [] (ManagedRuleGroups response) <> [] ->
        files w !! filePath = Some content ->
        includes content startMarker = false \/ includes content endMarker = false ->
        generateBody send w =
          (Throw (Error "Could not find injection markers in the file"), w))) /\
  (forall w : World,
     files w !! "API.md" = None ->
     ReadmeLibrary.main w = (Throw (ENOENT "API.md"), w)) /\
  (forall (w : World) api,
     files w !! "API.md" = Some api ->
     files w !! "README.md" = None ->
     ReadmeLibrary.main w = (Throw (ENOENT "README.md"), w)).
Proof.
  split; [|split].
  - intros send w.
    unfold generateAndInjectAwsManagedRuleEnum, tryCatch, console_error, modify.
    split; [|split; [|split; [|split; [|split]]]].
    + destruct (generateBody send w) as [[[]|error] w1]; reflexivity.
    + intros error w1 ->. reflexivity.
    + intros error Hsend. unfold generateBody, bind, await. rewrite Hsend. reflexivity.
    + intros response Hsend Hempty. unfold generateBody, bind, await.
      rewrite Hsend, Hempty. reflexivity.
    + intros response Hsend Hsome Hfile. unfold generateBody, bind, await, readFileSync.
      rewrite Hsend. destruct (default [] (ManagedRuleGroups response)); [congruence|].
      simpl. rewrite Hfile. reflexivity.
    + intros response content Hsend Hsome Hfile Hmarker.
      unfold generateBody, bind, await, readFileSync.
      rewrite Hsend. destruct (default [] (ManagedRuleGroups response)); [congruence|].
      simpl. rewrite Hfile.
      rewrite WafRuleEnumSpec.inject_not_found; [reflexivity|].
      unfold includes in Hmarker.
      destruct Hmarker as [H|H]; [left|right].
      * destruct (find startMarker content); [discriminate H|reflexivity].
      * destruct (find endMarker content); [discriminate H|reflexivity].
  - intros w Hapi. pose proof (ReadmeLibrarySpec.main_run w) as Hrun.
    rewrite Hapi in Hrun. exact Hrun.
  - intros w api Hapi Hreadme. pose proof (ReadmeLibrarySpec.main_run w) as Hrun.
    rewrite Hapi, Hreadme in Hrun. exact Hrun.
Qed.

(** C7, as stated, fails for the README generator: when API.md cannot
    be read, the error leaves the script. *)
Lemma readme_generator_error_propagates :
  ReadmeLibrary.main (mkWorld ∅ [] []) = (Throw (ENOENT "API.md"), mkWorld ∅ [] []).
Proof. reflexivity. Qed.

End GeneratorScriptsSpec.

(** ** The [Ec2ImageBuilderStart] construct *)

Module Ec2ImageBuilderStartSpec.
Import Eff JsString JsStringFacts Ec2ImageBuilderStart.




Section WithArnFormat.

Variable matchesAwsArn : string -> bool.







End WithArnFormat.


(** At the bounds: a timeout of twelve hours and a hash of seven
    characters pass the validations, and the wait condition gets the
    timeout [43200]. *)
Example construction_at_the_bounds :
  validProps sampleArnFormat propsAtTheBounds /\
  exists instance crProps fnProps,
    constructor sampleArnFormat "Stack" "Start" propsAtTheBounds [] =
      (Normal instance,
       [NewConstruct "Stack" "Start";
        NewAwsCustomResource "Ec2ImageBuilderStartCr" crProps;
        NewCfnWaitConditionHandle "WaitHandleabcdefg";
        NewNodejsFunction "WaiterSignal" fnProps;
        NewCfnWaitCondition "Waiterabcdefg" (Ref "WaitHandleabcdefg") "43200";
        AddDependency "Waiterabcdefg" "WaiterSignal";
        AddEventSource "WaiterSignal"
          (Topic "arn:aws:sns:us-east-1:123456789012:done")]).
Proof.
  split.
  - split; [vm_compute; discriminate|]. split; [vm_compute; lia|reflexivity].
  - eexists. eexists. eexists. vm_compute. reflexivity.
Qed.




End Ec2ImageBuilderStartSpec.

(** ** The [DynamoDBProvisionTable] construct *)

Module DynamoDBProvisionTableSpec.
Import Eff DynamoDBProvisionTable.

Lemma providersOf_app (l1 l2 : list Effect) :
  providersOf (l1 ++ l2) = providersOf l1 ++ providersOf l2.
Proof. apply omap_app. Qed.

Lemma tokensOf_app (l1 l2 : list Effect) :
  tokensOf (l1 ++ l2) = tokensOf l1 ++ tokensOf l2.
Proof. apply omap_app. Qed.

Lemma handlersOf_app (l1 l2 : list Effect) :
  handlersOf (l1 ++ l2) = handlersOf l1 ++ handlersOf l2.
Proof. apply omap_app. Qed.

Lemma getOrBuildProvider_run (scope : Construct)
    (props : DynamoDBProvisionTableProps) (st : State) :
  getOrBuildProvider scope props st =
    match enclosingStack scope with
    | None => (Throw (Error "No stack could be identified for the construct"), st)
    | Some stack =>
        match serviceTokens st !! stackNodeId stack with
        | Some cached => (Normal cached, st)
        | None =>
            if bool_decide ((scope, "Cr" +:+ className) ∈ children st)
            then (Throw (DuplicateChild (path scope) ("Cr" +:+ className)), st)
            else
              let p := built scope stack st in
              let provider_node :=
                mkConstruct (path scope +:+ "/" +:+ "Cr" +:+ className)
                            (enclosingStack scope) in
              (Normal p,
               mkState (<[stackNodeId stack := p]> (serviceTokens st))
                       (S (nextObj st))
                       (tree st ++
                        [NewConstruct (path scope) ("Cr" +:+ className);
                         NewSecureFunction
                           (path scope +:+ "/" +:+ "Cr" +:+ className) "OnEvent"
                           (mkSecureFunctionProps
                              ["handler"; "on-event"] "index.handler" 512 1
                              "NODEJS_22_X" (encryption props)
                              (lambdaConfiguration props));
                         NewProvider p])
                       (children st ++
                        [(scope, "Cr" +:+ className); (provider_node, "OnEvent");
                         (provider_node, "Provider")]))
        end
    end.
Proof.
  destruct st as [tokens next tr nodes].
  unfold getOrBuildProvider, Stack_of.
  destruct (enclosingStack scope) as [stack|] eqn:Hstack; [|reflexivity].
  unfold bind, get, ret. cbn [serviceTokens].
  destruct (tokens !! stackNodeId stack) as [cached|] eqn:Hc.
  - cbn [serviceTokens]. rewrite Hc. reflexivity.
  - unfold newChild. cbn [children].
    destruct (bool_decide ((scope, "Cr" +:+ className) ∈ nodes)); [reflexivity|].
    unfold serviceTokens_set, newChildOfNew, modify, newProvider, built.
    cbn [serviceTokens nextObj tree children path]. rewrite lookup_insert_eq.
    rewrite <- !(assoc_L (++)). reflexivity.
Qed.

Lemma provision_constructor_run (scope : Construct) (id : string)
    (props : DynamoDBProvisionTableProps) (st : State) :
  constructor scope id props st =
    if bool_decide ((scope, id) ∈ children st)
    then (Throw (DuplicateChild (path scope) id), st)
    else
      match getOrBuildProvider scope props
              (mkState (serviceTokens st) (nextObj st)
                       (tree st ++ [NewConstruct (path scope) id])
                       (children st ++ [(scope, id)])) with
      | (Throw e, st1) => (Throw e, st1)
      | (Normal provider, st1) =>
          let this := path scope +:+ "/" +:+ id in
          let this_node := mkConstruct this (enclosingStack scope) in
          (Normal tt,
           mkState (serviceTokens st1) (nextObj st1)
                   (tree st1 ++
                    [NewPolicy this "Permissions";
                     GrantReadWriteData (resource (table props))
                                        (this +:+ "/Permissions")] ++
                    match table_encryption (table props) with
                    | Some key => [GrantEncryptDecrypt key (this +:+ "/Permissions")]
                    | None => []
                    end ++
                    [AttachInlinePolicy (onEventHandler provider +:+ "/Role")
                                        (this +:+ "/Permissions");
                     NewCustomResource this "DynamoDBProvisionTable" provider
                       (createCustomResourceProperties props)
                       "Custom::DynamoDBProvisionTable"])
                   (children st1 ++
                    [(this_node, "Permissions");
                     (this_node, "DynamoDBProvisionTable")]))
      end.
Proof.
  unfold constructor, bind. unfold newChild at 1.
  destruct (bool_decide ((scope, id) ∈ children st)); [reflexivity|].
  destruct (getOrBuildProvider scope props _) as [[provider|e] st1]; [|reflexivity].
  destruct st1 as [tokens next tr nodes].
  unfold newChildOfNew, emit, modify, ret.
  destruct (table_encryption (table props));
    cbn [serviceTokens nextObj tree children];
    rewrite <- !(assoc_L (++)); reflexivity.
Qed.

(** When a construction throws: its scope has a child with its id; or
    its scope is in no stack; or it has to build the provider and its
    scope has a child with the id of the framework construct, which is
    also the case when that is the id of the construction itself. *)
Lemma constructor_throws (scope : Construct) (id : string)
    (props : DynamoDBProvisionTableProps) (st : State) :
  isThrow (fst (constructor scope id props st)) = true <->
  (scope, id) ∈ children st \/
  enclosingStack scope = None \/
  exists stack,
    enclosingStack scope = Some stack /\
    serviceTokens st !! stackNodeId stack = None /\
    ((scope, "Cr" +:+ className) ∈ children st \/ id = "Cr" +:+ className).
Proof.
  rewrite provision_constructor_run, getOrBuildProvider_run.
  cbn [serviceTokens nextObj tree children].
  case_bool_decide as Hdup; [cbn [fst isThrow]; tauto|].
  destruct (enclosingStack scope) as [stack|];
    [|cbn [fst isThrow]; tauto].
  destruct (serviceTokens st !! stackNodeId stack) as [cached|] eqn:Hc.
  - cbn [fst isThrow]. split; [discriminate|].
    intros [H|[H|(s & Hs & H & _)]]; [contradiction|discriminate H|].
    injection Hs as <-. congruence.
  - case_bool_decide as Hcr; cbv zeta; cbn [fst isThrow].
    + split; [|reflexivity]. intros _. right. right. exists stack.
      split; [reflexivity|]. split; [exact Hc|].
      apply elem_of_app in Hcr as [Hcr|Hcr]; [auto|].
      apply list_elem_of_singleton in Hcr. injection Hcr as Hid. auto.
    + split; [discriminate|].
      intros [H|[H|(s & _ & _ & H)]]; [contradiction|discriminate H|].
      exfalso. apply Hcr. rewrite elem_of_app, list_elem_of_singleton.
      destruct H as [H| ->]; auto.
Qed.

(** One construction, case by case. *)
Lemma constructor_step (scope : Construct) (id : string)
    (props : DynamoDBProvisionTableProps) (st : State) :
  let result := constructor scope id props st in
  let st' := snd result in
  match fst result with
  | Throw _ =>
      serviceTokens st' = serviceTokens st /\ nextObj st' = nextObj st /\
      providersOf (tree st') = providersOf (tree st) /\
      tokensOf (tree st') = tokensOf (tree st) /\
      handlersOf (tree st') = handlersOf (tree st)
  | Normal _ =>
      exists stack,
        enclosingStack scope = Some stack /\
        match serviceTokens st !! stackNodeId stack with
        | Some cached =>
            serviceTokens st' = serviceTokens st /\ nextObj st' = nextObj st /\
            providersOf (tree st') = providersOf (tree st) /\
            tokensOf (tree st') = tokensOf (tree st) ++ [cached] /\
            handlersOf (tree st') = handlersOf (tree st)
        | None =>
            let p := built scope stack st in
            serviceTokens st' = <[stackNodeId stack := p]> (serviceTokens st) /\
            nextObj st' = S (nextObj st) /\
            providersOf (tree st') = providersOf (tree st) ++ [p] /\
            tokensOf (tree st') = tokensOf (tree st) ++ [p] /\
            handlersOf (tree st') = handlersOf (tree st) ++ [onEventHandler p]
        end
  end.
Proof.
  cbv zeta. rewrite provision_constructor_run, getOrBuildProvider_run.
  cbn [serviceTokens nextObj tree children].
  case_bool_decide as Hdup; [cbn [fst snd]; auto|].
  destruct (enclosingStack scope) as [stack|].
  - destruct (serviceTokens st !! stackNodeId stack) as [cached|] eqn:Hc.
    + cbn [fst snd serviceTokens nextObj tree]. exists stack. split; [reflexivity|].
      rewrite Hc, ?providersOf_app, ?tokensOf_app, ?handlersOf_app.
      destruct (table_encryption (table props)); simpl;
        rewrite ?(right_id_L [] (++)); auto.
    + case_bool_decide as Hcr; cbv zeta; cbn [fst snd serviceTokens nextObj tree].
      * rewrite providersOf_app, tokensOf_app, handlersOf_app. simpl.
        rewrite !(right_id_L [] (++)). auto.
      * exists stack. split; [reflexivity|].
        rewrite Hc, ?providersOf_app, ?tokensOf_app, ?handlersOf_app.
        destruct (table_encryption (table props)); simpl;
          rewrite ?(right_id_L [] (++)); auto.
  - cbn [fst snd serviceTokens nextObj tree].
    rewrite providersOf_app, tokensOf_app, handlersOf_app. simpl.
    rewrite !(right_id_L [] (++)). auto.
Qed.

(** The children after a construction: those there were, the
    construction itself unless it was refused, and children of
    constructs in the stack of its scope. *)
Lemma children_step (scope : Construct) (id : string)
    (props : DynamoDBProvisionTableProps) (st : State) :
  let st' := snd (constructor scope id props st) in
  (scope, id) ∈ children st' /\
  (forall node, node ∈ children st -> node ∈ children st') /\
  (forall parent i, (parent, i) ∈ children st' ->
     (parent, i) ∈ children st \/ enclosingStack parent = enclosingStack scope).
Proof.
  cbv zeta. rewrite provision_constructor_run, getOrBuildProvider_run.
  cbn [serviceTokens nextObj tree children].
  case_bool_decide as Hdup; [cbn [snd]; auto|].
  assert (Hgen : forall added : list (Construct * string),
             Forall (fun node => enclosingStack node.1 = enclosingStack scope) added ->
             (scope, id) ∈ (children st ++ [(scope, id)]) ++ added /\
             (forall node, node ∈ children st ->
                node ∈ (children st ++ [(scope, id)]) ++ added) /\
             (forall parent i, (parent, i) ∈ (children st ++ [(scope, id)]) ++ added ->
                (parent, i) ∈ children st \/
                enclosingStack parent = enclosingStack scope)).
  { intros added Hadded. rewrite Forall_forall in Hadded. split; [|split].
    - rewrite !elem_of_app, list_elem_of_singleton. auto.
    - intros node Hnode. rewrite !elem_of_app. auto.
    - intros parent i. rewrite !elem_of_app, list_elem_of_singleton.
      intros [[H|H]|H]; [auto| |right; exact (Hadded _ H)].
      injection H as -> _. auto. }
  destruct (enclosingStack scope) as [stack|] eqn:Hstack.
  - destruct (serviceTokens st !! stackNodeId stack) as [cached|].
    + cbn [snd children]. apply Hgen. repeat constructor.
    + case_bool_decide as Hcr; cbv zeta; cbn [snd children].
      * rewrite <- (right_id_L [] (++) (children st ++ [(scope, id)])).
        apply Hgen. constructor.
      * rewrite <- (assoc_L (++) (children st ++ [(scope, id)])).
        apply Hgen. repeat constructor; exact Hstack.
  - cbn [snd children].
    rewrite <- (right_id_L [] (++) (children st ++ [(scope, id)])).
    apply Hgen. constructor.
Qed.

Lemma cacheOk_initial : cacheOk initial.
Proof.
  split; [|split].
  - intros p Hp. inversion Hp.
  - intros k p Hk. unfold initial in Hk. cbn [serviceTokens] in Hk.
    rewrite lookup_empty in Hk. discriminate Hk.
  - constructor.
Qed.

Lemma cacheOk_step (scope : Construct) (id : string)
    (props : DynamoDBProvisionTableProps) (st : State) :
  cacheOk st -> cacheOk (snd (constructor scope id props st)).
Proof.
  intros (Hbuilt & Hcached & Hnd).
  pose proof (constructor_step scope id props st) as Hstep. cbv zeta in Hstep.
  set (st' := snd (constructor scope id props st)) in *.
  assert (Hsame : serviceTokens st' = serviceTokens st ->
                  nextObj st' = nextObj st ->
                  providersOf (tree st') = providersOf (tree st) -> cacheOk st').
  { intros Ht Hn Hp. unfold cacheOk. rewrite Ht, Hn, Hp. auto. }
  destruct (fst (constructor scope id props st));
    [|destruct Hstep as (Ht & Hn & Hp & _); auto].
  destruct Hstep as (stack & Hstack & Hstep).
  destruct (serviceTokens st !! stackNodeId stack) as [cached|] eqn:Hc;
    [destruct Hstep as (Ht & Hn & Hp & _); auto|].
  destruct Hstep as (Ht & Hn & Hp & _).
  set (p := built scope stack st) in *.
  assert (Hfresh : p ∉ providersOf (tree st)).
  { intros Hin. destruct (Hbuilt p Hin) as [_ Hlt]. simpl in Hlt. lia. }
  unfold cacheOk. rewrite Ht, Hn, Hp. split; [|split].
  - intros q Hq. apply elem_of_app in Hq as [Hq|Hq].
    + destruct (Hbuilt q Hq) as [Hlook Hlt]. split; [|lia].
      rewrite lookup_insert_ne; [exact Hlook|]. intros Heq.
      rewrite <- Heq, Hc in Hlook. discriminate Hlook.
    + apply list_elem_of_singleton in Hq as ->. split; [|simpl; lia].
      simpl. apply lookup_insert_eq.
  - intros k q Hk. rewrite lookup_insert in Hk. case_decide as Hkey.
    + injection Hk as <-. subst k. split; [|reflexivity].
      apply elem_of_app. right. apply list_elem_of_singleton. reflexivity.
    + destruct (Hcached k q Hk) as [Hin Hid]. split; [|exact Hid].
      apply elem_of_app. left. exact Hin.
  - apply NoDup_app. split; [exact Hnd|]. split.
    + intros q Hq Hq'. apply list_elem_of_singleton in Hq' as ->. contradiction.
    + apply NoDup_singleton.
Qed.

Lemma constructAll_cons (c : Construction) (calls : list Construction) (st : State) :
  constructAll (c :: calls) st =
    constructAll calls (snd (constructor (c_scope c) (c_id c) (c_props c) st)).
Proof. reflexivity. Qed.

Lemma constructAll_app (before after : list Construction) (st : State) :
  constructAll (before ++ after) st = constructAll after (constructAll before st).
Proof. apply fold_left_app. Qed.

Lemma completed_app (before after : list Construction) (st : State) :
  completed (before ++ after) st =
    completed before st ++ completed after (constructAll before st).
Proof.
  revert st. induction before as [|c before IH]; intros st; [reflexivity|].
  cbn [app completed]. rewrite IH, constructAll_cons, (assoc_L (++)). reflexivity.
Qed.

Lemma completed_sublist (calls : list Construction) (st : State) (c : Construction) :
  c ∈ completed calls st -> c ∈ calls.
Proof.
  revert st. induction calls as [|c0 calls IH]; intros st Hc; [inversion Hc|].
  cbn [completed] in Hc. apply elem_of_app in Hc as [Hc|Hc].
  - destruct (isThrow _); [inversion Hc|].
    apply list_elem_of_singleton in Hc as ->. apply elem_of_cons. auto.
  - apply elem_of_cons. right. exact (IH _ Hc).
Qed.

Lemma cacheOk_all (calls : list Construction) (st : State) :
  cacheOk st -> cacheOk (constructAll calls st).
Proof.
  revert st. induction calls as [|c calls IH]; intros st Hok; [exact Hok|].
  rewrite constructAll_cons. apply IH, cacheOk_step, Hok.
Qed.



(** An entry of the cache is never replaced. *)
Lemma serviceTokens_stable_step (scope : Construct) (id : string)
    (props : DynamoDBProvisionTableProps) (st : State) (k : string) (p : Provider) :
  serviceTokens st !! k = Some p ->
  serviceTokens (snd (constructor scope id props st)) !! k = Some p.
Proof.
  intros Hk. pose proof (constructor_step scope id props st) as Hstep.
  cbv zeta in Hstep.
  destruct (fst (constructor scope id props st));
    [|destruct Hstep as (-> & _); exact Hk].
  destruct Hstep as (stack & _ & Hstep).
  destruct (serviceTokens st !! stackNodeId stack) as [cached|] eqn:Hc;
    destruct Hstep as (-> & _); [exact Hk|].
  rewrite lookup_insert_ne; [exact Hk|]. intros <-. congruence.
Qed.


(** A construction that completes is in a stack. *)
Lemma completed_in_stack (calls : list Construction) (st : State) (c : Construction) :
  c ∈ completed calls st -> is_Some (enclosingStack (c_scope c)).
Proof.
  revert st. induction calls as [|c0 calls IH]; intros st Hc; [inversion Hc|].
  cbn [completed] in Hc. apply elem_of_app in Hc as [Hc|Hc]; [|exact (IH _ Hc)].
  pose proof (constructor_step (c_scope c0) (c_id c0) (c_props c0) st) as Hstep.
  cbv zeta in Hstep.
  destruct (fst (constructor (c_scope c0) (c_id c0) (c_props c0) st));
    cbn [isThrow] in Hc; [|inversion Hc].
  apply list_elem_of_singleton in Hc as ->.
  destruct Hstep as (stack & Hstack & _). eauto.
Qed.

(** The keys of the cache are the node ids of the stacks of the
    constructions that completed. *)
Lemma serviceTokens_keys (calls : list Construction) (st : State) (k : string) :
  serviceTokens (constructAll calls st) !! k = None <->
  serviceTokens st !! k = None /\
  forall c s, c ∈ completed calls st -> enclosingStack (c_scope c) = Some s ->
              stackNodeId s <> k.
Proof.
  revert st. induction calls as [|c calls IH]; intros st.
  - simpl. split; [intros H; split; [exact H|]|intros [H _]; exact H].
    intros c s Hc. inversion Hc.
  - rewrite constructAll_cons, IH. cbn [completed].
    pose proof (constructor_step (c_scope c) (c_id c) (c_props c) st) as Hstep.
    cbv zeta in Hstep.
    set (result := constructor (c_scope c) (c_id c) (c_props c) st) in *.
    set (st' := snd result) in *.
    assert (Hkey : serviceTokens st' !! k = None <->
                   serviceTokens st !! k = None /\
                   (isThrow (fst result) = false ->
                    forall s, enclosingStack (c_scope c) = Some s -> stackNodeId s <> k)).
    { destruct (fst result); cbn [isThrow].
      - destruct Hstep as (stack & Hstack & Hstep).
        destruct (serviceTokens st !! stackNodeId stack) as [cached|] eqn:Hc;
          destruct Hstep as (-> & _).
        + split; [|intros [H _]; exact H]. intros H. split; [exact H|].
          intros _ s Hs Heq. rewrite Hstack in Hs. injection Hs as <-. congruence.
        + rewrite lookup_insert. case_decide as Hd.
          * split; [discriminate|]. intros [_ H]. exfalso.
            exact (H eq_refl stack Hstack Hd).
          * split; [|intros [H _]; exact H]. intros H. split; [exact H|].
            intros _ s Hs. rewrite Hstack in Hs. injection Hs as <-. exact Hd.
      - destruct Hstep as (-> & _). split; [|intros [H _]; exact H].
        intros H. split; [exact H|]. discriminate. }
    rewrite Hkey. split.
    + intros [[H0 Hc] Hrest]. split; [exact H0|].
      intros c' s Hin Hs. apply elem_of_app in Hin as [Hin|Hin]; [|eauto].
      destruct (isThrow (fst result)); [inversion Hin|].
      apply list_elem_of_singleton in Hin as ->. eauto.
    + intros [H0 Hall]. split; [split; [exact H0|]|].
      * intros Hdone s Hs. apply (Hall c s); [|exact Hs].
        apply elem_of_app. left. rewrite Hdone. apply list_elem_of_singleton.
        reflexivity.
      * intros c' s Hin Hs. apply (Hall c' s); [|exact Hs].
        apply elem_of_app. right. exact Hin.
Qed.


(** A call that repeats the scope and the id of the call before it is
    refused where [super] is called: it changes nothing, and one custom
    resource exists after the two calls. *)
Example repeated_call_is_refused :
  let c := constructionInStageA in
  let st := constructAll [c] initial in
  constructor (c_scope c) (c_id c) (c_props c) st =
    (Throw (DuplicateChild "StageA/Database" "Provision"), st) /\
  length (tokensOf (tree (constructAll [c; c] initial))) = 1%nat /\
  completed [c; c] initial = [c].
Proof. cbv zeta. repeat split; vm_compute; reflexivity. Qed.


End DynamoDBProvisionTableSpec.

(** ** Strings: further facts *)

Module JsStringMore.
Import JsString JsStringFacts.

Lemma allChars_app (p : ascii -> bool) (a b : string) :
  allChars p (a +:+ b) = allChars p a && allChars p b.
Proof.
  induction a as [|c a IH]; [reflexivity|].
  rewrite str_app_cons. simpl. rewrite IH. apply andb_assoc.
Qed.

Lemma allChars_drop (p : ascii -> bool) (n : nat) (s : string) :
  allChars p s = true -> allChars p (str_drop n s) = true.
Proof.
  revert s. induction n as [|n IH]; intros [|c s] H; simpl in *; auto.
  apply andb_prop in H as [_ H]. auto.
Qed.

Lemma allChars_impl (p q : ascii -> bool) (s : string) :
  (forall c, p c = true -> q c = true) ->
  allChars p s = true -> allChars q s = true.
Proof.
  intros Hpq. induction s as [|c s IH]; simpl; [reflexivity|].
  intros H. apply andb_prop in H as [Hc Hs]. rewrite (Hpq c Hc), (IH Hs). reflexivity.
Qed.

Lemma prefix_drop (n h : string) (d : nat) :
  String.prefix n h = true -> String.prefix (str_drop d n) (str_drop d h) = true.
Proof.
  revert n h. induction d as [|d IH]; intros n h H; [exact H|].
  destruct n as [|a n]; [destruct (str_drop (S d) h); reflexivity|].
  destruct h as [|b h]; [discriminate H|]. simpl in H. simpl str_drop.
  destruct (ascii_dec a b); [apply IH, H|discriminate H].
Qed.

Lemma prefix_cons_inv (a b : ascii) (n h : string) :
  String.prefix (String a n) (String b h) = true -> a = b /\ String.prefix n h = true.
Proof.
  simpl. destruct (ascii_dec a b); [auto|discriminate].
Qed.

Lemma allChars_take (p : ascii -> bool) (n : nat) (s : string) :
  allChars p s = true -> allChars p (str_take n s) = true.
Proof.
  revert s. induction n as [|n IH]; intros [|c s] H; simpl in *; auto.
  apply andb_prop in H as [Hc H]. rewrite Hc. simpl. auto.
Qed.

Lemma hasChar_allChars (c : ascii) (s : string) :
  hasChar c s = false <-> allChars (fun d => negb (Ascii.eqb c d)) s = true.
Proof.
  induction s as [|d s IH]; simpl; [tauto|].
  rewrite orb_false_iff, andb_true_iff, negb_true_iff, IH. tauto.
Qed.

Lemma hasChar_app (c : ascii) (a b : string) :
  hasChar c (a +:+ b) = hasChar c a || hasChar c b.
Proof.
  induction a as [|d a IH]; [reflexivity|].
  rewrite str_app_cons. simpl. rewrite IH. apply orb_assoc.
Qed.

Lemma allChars_trimStart (p : ascii -> bool) (s : string) :
  allChars p s = true -> allChars p (trimStart s) = true.
Proof.
  induction s as [|c s IH]; [reflexivity|]. intros H. simpl trimStart.
  destruct (isWhiteSpace c); [|exact H].
  simpl in H. apply andb_prop in H as [_ H]. auto.
Qed.

Lemma allChars_trimEnd (p : ascii -> bool) (s : string) :
  allChars p s = true -> allChars p (trimEnd s) = true.
Proof.
  induction s as [|c s IH]; [reflexivity|]. intros H.
  simpl in H. apply andb_prop in H as [Hc H]. specialize (IH H).
  simpl trimEnd. destruct (trimEnd s) as [|d t].
  - destruct (isWhiteSpace c); [reflexivity|]. simpl. rewrite Hc. reflexivity.
  - change (p c && allChars p (String d t) = true). rewrite Hc, IH. reflexivity.
Qed.

Lemma allChars_trim (p : ascii -> bool) (s : string) :
  allChars p s = true -> allChars p (trim s) = true.
Proof. intros H. apply allChars_trimEnd, allChars_trimStart, H. Qed.

Lemma split_cons (sep : ascii) (s : string) :
  exists h r, split sep s = h :: r.
Proof.
  induction s as [|c s (h & r & IH)]; simpl; [eauto|].
  destruct (Ascii.eqb c sep); [eauto|]. rewrite IH. eauto.
Qed.

(** The parts of a split have no separator, and nothing that the
    string did not have. *)
Lemma split_parts (p : ascii -> bool) (sep : ascii) (s : string) :
  (forall c, Ascii.eqb c sep = false -> In c (list_ascii_of_string s) -> p c = true) ->
  Forall (fun part => allChars p part = true /\ hasChar sep part = false) (split sep s).
Proof.
  induction s as [|c s IH]; intros Hp; simpl.
  - constructor; [split; reflexivity|constructor].
  - assert (IH' := IH (fun d Hd Hin => Hp d Hd (or_intror Hin))). clear IH.
    destruct (Ascii.eqb c sep) eqn:Hc.
    + constructor; [split; reflexivity|exact IH'].
    + destruct (split sep s) as [|h r]; [constructor; [|constructor]|].
      * simpl. rewrite (Hp c Hc (or_introl eq_refl)), Ascii.eqb_sym, Hc. auto.
      * apply Forall_cons in IH' as [[Hh1 Hh2] Hr]. constructor; [|exact Hr].
        simpl. rewrite (Hp c Hc (or_introl eq_refl)), Hh1, Hh2, Ascii.eqb_sym, Hc. auto.
Qed.

Lemma allChars_In (p : ascii -> bool) (s : string) :
  allChars p s = true <-> forall c, In c (list_ascii_of_string s) -> p c = true.
Proof.
  induction s as [|d s IH]; simpl; [tauto|].
  rewrite andb_true_iff, IH. split.
  - intros [Hd Hs] c [<-|Hc]; auto.
  - intros H. split; [apply H; auto|]. intros c Hc. apply H. auto.
Qed.

Lemma allChars_concat (p : ascii -> bool) (sep : string) (parts : list string) :
  allChars p sep = true ->
  Forall (fun part => allChars p part = true) parts ->
  allChars p (String.concat sep parts) = true.
Proof.
  intros Hsep. induction parts as [|a [|b parts] IH]; intros H.
  - reflexivity.
  - apply Forall_cons in H as [Ha _]. exact Ha.
  - apply Forall_cons in H as [Ha H].
    change (String.concat sep (a :: b :: parts))
      with (a +:+ sep +:+ String.concat sep (b :: parts)).
    rewrite !allChars_app, Ha, Hsep, (IH H). reflexivity.
Qed.

(** The first occurrence of a marker stays where it is when the text
    after it changes. *)
Lemma first_occurrence_stays (marker before rest rest' : string) :
  firstAt marker (before +:+ marker +:+ rest) (String.length before) ->
  firstAt marker (before +:+ marker +:+ rest') (String.length before).
Proof.
  intros [Ho Hmin]. split.
  - replace (String.length before) with (String.length before + 0)%nat by lia.
    apply WafRuleEnumSpec.occursAt_app_r, occursAt_0, prefix_app.
  - intros k Hk Hocc. apply (Hmin k Hk).
    pose proof (occursAt_bound _ _ _ Hocc) as Hb.
    rewrite <- str_app_assoc in Hocc |- *.
    apply WafRuleEnumSpec.occursAt_app_inv_l in Hocc;
      [|rewrite str_length_app; lia].
    apply occursAt_app_l, Hocc.
Qed.

Lemma hasChar_string_of_uint (c : ascii) (u : Decimal.uint) :
  isDigit c = false -> hasChar c (NilEmpty.string_of_uint u) = false.
Proof.
  intros Hc. induction u; simpl; [reflexivity|..]; rewrite IHu, orb_false_r;
    apply Ascii.eqb_neq; intros ->; discriminate Hc.
Qed.

Lemma hasChar_ofNat (c : ascii) (n : nat) :
  isDigit c = false -> hasChar c (ofNat n) = false.
Proof. apply hasChar_string_of_uint. Qed.

End JsStringMore.

(** ** The WAF managed-rule enum generator: further properties *)

Module WafRuleEnumMore.
Import Eff Node JsString JsStringFacts JsStringMore WafRuleEnum.

Lemma replaceSQLi_chars (s : string) :
  allChars alnumOrUnderscore s = true ->
  allChars alnumOrUnderscore (replaceSQLi s) = true.
Proof.
  assert (Hstep : forall c t, replaceSQLi (String c t) = String c (replaceSQLi t) \/
                    exists r, String c t = "SQLi" +:+ r /\
                              replaceSQLi (String c t) = "SQL_DATABASE" +:+ replaceSQLi r).
  { intros c t.
    destruct (String.prefix "SQLi" (String c t)) eqn:Hp.
    - right. apply prefix_inv in Hp. simpl String.length in Hp.
      exists (str_drop 4 (String c t)). split; [exact Hp|]. rewrite Hp at 1.
      reflexivity.
    - left. destruct c as [[] [] [] [] [] [] [] []]; try reflexivity.
      destruct t as [|[[] [] [] [] [] [] [] []] t]; try reflexivity.
      destruct t as [|[[] [] [] [] [] [] [] []] t]; try reflexivity.
      destruct t as [|[[] [] [] [] [] [] [] []] t]; try reflexivity.
      simpl in Hp. destruct t; discriminate Hp. }
  remember (String.length s) as n eqn:Hn. revert s Hn.
  induction n as [n IH] using lt_wf_ind. intros [|c t] Hn H; [reflexivity|].
  destruct (Hstep c t) as [->|(r & Heq & ->)].
  - simpl in *. apply andb_prop in H as [Hc Ht]. rewrite Hc. simpl.
    apply (IH (String.length t)); [lia|reflexivity|exact Ht].
  - rewrite allChars_app. rewrite Heq, allChars_app in H.
    apply andb_prop in H as [_ Hr]. simpl.
    apply (IH (String.length r)); [|reflexivity|exact Hr].
    rewrite Hn, Heq, str_length_app. simpl. lia.
Qed.

Lemma splitAcronyms_step (a : ascii) (t : string) :
  splitAcronyms (String a t) = String a (splitAcronyms t) \/
  splitAcronyms (String a t) = String a (String "_" (splitAcronyms t)).
Proof.
  destruct t as [|b [|c t]]; try (left; reflexivity).
  simpl. destruct (isUpper a && isUpper b && isLower c); auto.
Qed.

Lemma splitCamel_step (a : ascii) (t : string) :
  splitCamel (String a t) = String a (splitCamel t) \/
  splitCamel (String a t) = String a (String "_" (splitCamel t)).
Proof.
  destruct t as [|b t]; try (left; reflexivity).
  simpl. destruct (isLower a && isUpper b); auto.
Qed.

Lemma splitAcronyms_chars (s : string) :
  allChars alnumOrUnderscore s = true ->
  allChars alnumOrUnderscore (splitAcronyms s) = true.
Proof.
  induction s as [|a t IH]; [reflexivity|]. intros H.
  change (alnumOrUnderscore a && allChars alnumOrUnderscore t = true) in H.
  apply andb_prop in H as [Ha Ht].
  destruct (splitAcronyms_step a t) as [-> | ->]; simpl; rewrite Ha, (IH Ht);
    reflexivity.
Qed.

Lemma splitCamel_chars (s : string) :
  allChars alnumOrUnderscore s = true ->
  allChars alnumOrUnderscore (splitCamel s) = true.
Proof.
  induction s as [|a t IH]; [reflexivity|]. intros H.
  change (alnumOrUnderscore a && allChars alnumOrUnderscore t = true) in H.
  apply andb_prop in H as [Ha Ht].
  destruct (splitCamel_step a t) as [-> | ->]; simpl; rewrite Ha, (IH Ht);
    reflexivity.
Qed.

Lemma upperChar_not_lower (c : ascii) : isLower (upperChar c) = false.
Proof. destruct c as [[] [] [] [] [] [] [] []]; reflexivity. Qed.

Lemma upperChar_ident (c : ascii) :
  alnumOrUnderscore c = true -> isCapsIdentChar (upperChar c) = true.
Proof. destruct c as [[] [] [] [] [] [] [] []]; intros H; try reflexivity; discriminate H. Qed.

Lemma toUpperCase_chars (p q : ascii -> bool) (s : string) :
  (forall c, p c = true -> q (upperChar c) = true) ->
  allChars p s = true -> allChars q (toUpperCase s) = true.
Proof.
  intros Hpq. induction s as [|c s IH]; [reflexivity|]. simpl. intros H.
  apply andb_prop in H as [Hc Hs]. rewrite (Hpq c Hc). exact (IH Hs).
Qed.

(** X1.  The name that [formatRuleGroupName] gives to an enum member has
    no small letter; and when the rule name is made of letters and
    digits, it is made of capital letters, digits and underscores. *)
Theorem formatRuleGroupName_capitals (name : string) :
  allChars (fun c => negb (isLower c)) (formatRuleGroupName name) = true /\
  (allChars isAlnum name = true ->
   allChars isCapsIdentChar (formatRuleGroupName name) = true).
Proof.
  unfold formatRuleGroupName. split.
  - apply (toUpperCase_chars (fun _ => true)).
    + intros c _. rewrite upperChar_not_lower. reflexivity.
    + generalize (splitCamel (splitAcronyms
                    (replaceSQLi (stripAwsManagedRules name)))).
      intros s. induction s; simpl; auto.
  - intros H. apply (toUpperCase_chars alnumOrUnderscore); [apply upperChar_ident|].
    apply splitCamel_chars, splitAcronyms_chars, replaceSQLi_chars.
    assert (H' : allChars alnumOrUnderscore name = true).
    { revert H. apply allChars_impl. intros c Hc. unfold alnumOrUnderscore.
      rewrite Hc. reflexivity. }
    unfold stripAwsManagedRules. destruct (startsWith name "AWSManagedRules");
      [apply allChars_drop|]; exact H'.
Qed.

Lemma newMap_snoc (pairs : list (string * string)) (k v : string) :
  newMap (pairs ++ [(k, v)]) = mapSet k v (newMap pairs).
Proof. unfold newMap. rewrite fold_left_app. reflexivity. Qed.

Lemma keys_mapSet (k v : string) (m : list (string * string)) :
  fst <$> mapSet k v m =
    if decide (k ∈ fst <$> m) then fst <$> m else (fst <$> m) ++ [k].
Proof.
  induction m as [|[k0 v0] r IH]; [reflexivity|]. cbn [mapSet].
  destruct (String.eqb_spec k0 k) as [->|Hne]; rewrite !fmap_cons; cbn [fst].
  - rewrite decide_True by (apply elem_of_cons; left; reflexivity). reflexivity.
  - rewrite IH. destruct (decide (k ∈ fst <$> r)) as [Hk|Hk].
    + rewrite decide_True by (apply elem_of_cons; right; exact Hk). reflexivity.
    + rewrite decide_False; [reflexivity|].
      intros H. apply elem_of_cons in H as [H|H]; [congruence|contradiction].
Qed.

Lemma mapGet_mapSet (k v : string) (m : list (string * string)) (k' : string) :
  mapGet k' (mapSet k v m) = if decide (k = k') then Some v else mapGet k' m.
Proof.
  induction m as [|[k0 v0] r IH]; simpl.
  - destruct (String.eqb_spec k k'); destruct (decide (k = k')); congruence.
  - destruct (String.eqb_spec k0 k) as [->|Hne]; simpl.
    + destruct (String.eqb_spec k k'); destruct (decide (k = k')); congruence.
    + rewrite IH. destruct (String.eqb_spec k0 k'); destruct (decide (k = k'));
        congruence.
Qed.

Lemma elem_of_mapSet (k v : string) (m : list (string * string)) (kv : string * string) :
  kv ∈ mapSet k v m -> kv = (k, v) \/ kv ∈ m.
Proof.
  induction m as [|[k0 v0] r IH]; cbn [mapSet].
  - intros H. apply list_elem_of_singleton in H. auto.
  - destruct (String.eqb_spec k0 k) as [->|Hne]; intros H;
      apply elem_of_cons in H as [H|H].
    + left. exact H.
    + right. apply elem_of_cons. right. exact H.
    + right. apply elem_of_cons. left. exact H.
    + destruct (IH H) as [?|?]; [left|right; apply elem_of_cons; right]; assumption.
Qed.

(** What [new Map(pairs)] holds. *)
Lemma newMap_spec (pairs : list (string * string)) :
  NoDup (fst <$> newMap pairs) /\
  fst <$> newMap pairs = reverse (remove_dups (reverse (fst <$> pairs))) /\
  (forall k, mapGet k (newMap pairs) = mapGet k (reverse pairs)) /\
  (forall kv, kv ∈ newMap pairs -> kv ∈ pairs).
Proof.
  induction pairs as [|[k v] pairs (Hnd & Hkeys & Hget & Hin)] using rev_ind.
  - repeat split; try constructor. intros kv H. exact H.
  - rewrite newMap_snoc, keys_mapSet. split; [|split; [|split]].
    + destruct (decide (k ∈ fst <$> newMap pairs)); [exact Hnd|].
      apply NoDup_app. split; [exact Hnd|]. split; [|apply NoDup_singleton].
      intros x Hx Hx'. apply list_elem_of_singleton in Hx' as ->. contradiction.
    + rewrite fmap_app, reverse_app. simpl.
      assert (Hiff : k ∈ fst <$> newMap pairs <-> k ∈ reverse (fst <$> pairs)).
      { rewrite Hkeys, elem_of_reverse, elem_of_remove_dups. reflexivity. }
      repeat case_decide; try (exfalso; tauto);
        first [exact Hkeys|rewrite reverse_cons, Hkeys; reflexivity].
    + intros k'. rewrite mapGet_mapSet, reverse_app. simpl.
      destruct (String.eqb_spec k k'); destruct (decide (k = k'));
        first [congruence|apply Hget].
    + intros kv H. apply elem_of_app.
      apply elem_of_mapSet in H as [->|H]; [right; apply list_elem_of_singleton; reflexivity|].
      left. apply Hin, H.
Qed.

Lemma length_namedRules (ruleGroups : list ManagedRuleGroupSummary) :
  (length (namedRules ruleGroups) <= length ruleGroups)%nat.
Proof.
  unfold namedRules. induction ruleGroups as [|rule rules IH]; [reflexivity|].
  cbn [omap list_omap]. case_match; simpl; lia.
Qed.

(** X2.  The map of rule groups from which the enum is generated has
    one entry for each distinct name among the rule groups that have a
    name and a description, both non-empty; the entries are in the order
    in which the names first appear; a name maps to the description of
    the last rule group of that name; and every entry is the name and
    the description of a rule group of the response. *)
Theorem ruleGroupMap_entries (ruleGroups : list ManagedRuleGroupSummary) :
  let ruleGroupMap := newMap (namedRules ruleGroups) in
  NoDup (fst <$> ruleGroupMap) /\
  fst <$> ruleGroupMap =
    reverse (remove_dups (reverse (fst <$> namedRules ruleGroups))) /\
  (forall name, mapGet name ruleGroupMap = mapGet name (reverse (namedRules ruleGroups))) /\
  (forall name description, (name, description) ∈ ruleGroupMap ->
     name <> "" /\ description <> "" /\
     exists rule, rule ∈ ruleGroups /\ Name rule = Some name /\
                  Description rule = Some description) /\
  (forall rule name description,
     rule ∈ ruleGroups -> Name rule = Some name -> Description rule = Some description ->
     name <> "" -> description <> "" -> name ∈ fst <$> ruleGroupMap) /\
  (length ruleGroupMap <= length ruleGroups)%nat.
Proof.
  intros ruleGroupMap.
  destruct (newMap_spec (namedRules ruleGroups)) as (Hnd & Hkeys & Hget & Hin).
  assert (Hnamed : forall name description,
             (name, description) ∈ namedRules ruleGroups <->
             exists rule, rule ∈ ruleGroups /\ Name rule = Some name /\
                          Description rule = Some description /\
                          name <> "" /\ description <> "").
  { intros name description. unfold namedRules. rewrite list_elem_of_omap. split.
    - intros (rule & Hrule & Heq). exists rule. split; [exact Hrule|].
      destruct (Name rule) as [[|c n]|], (Description rule) as [[|c' d]|];
        simpl in Heq; try discriminate Heq.
      injection Heq as <- <-. repeat split; discriminate.
    - intros (rule & Hrule & Hn & Hd & Hne & Hde). exists rule. split; [exact Hrule|].
      rewrite Hn, Hd. destruct name, description; try congruence. reflexivity. }
  split; [exact Hnd|]. split; [exact Hkeys|]. split; [exact Hget|].
  split; [|split].
  - intros name description H. apply Hin, Hnamed in H as (rule & ? & ? & ? & ? & ?).
    eauto 10.
  - intros rule name description Hrule Hn Hd Hne Hde. fold ruleGroupMap in Hkeys.
    rewrite Hkeys, elem_of_reverse, elem_of_remove_dups, elem_of_reverse.
    apply list_elem_of_fmap. exists (name, description). split; [reflexivity|].
    apply Hnamed. eauto 10.
  - transitivity (length (namedRules ruleGroups)).
    + rewrite <- (length_fmap fst ruleGroupMap). fold ruleGroupMap in Hkeys.
      rewrite Hkeys, length_reverse.
      rewrite <- (length_fmap fst (namedRules ruleGroups)), <- (length_reverse (fst <$> _)).
      generalize (reverse (fst <$> namedRules ruleGroups)). intros l.
      induction l as [|x l IH]; simpl; [lia|]. case_decide; simpl; lia.
    + apply length_namedRules.
Qed.

(** X3.  Every run completes normally and adds exactly one line to the
    console.  When the line is a log, the run has written the target
    file once, and the count in the line is the number of entries of the
    map of rule groups; when it is an error, nothing was written and no
    file has changed. *)
Theorem generator_logs_one_line send (w : World) :
  let result := fst (generateAndInjectAwsManagedRuleEnum send w) in
  let w' := snd (generateAndInjectAwsManagedRuleEnum send w) in
  result = Normal tt /\
  exists line,
    console w' = console w ++ [line] /\
    match line with
    | ConsoleLog text =>
        exists response newContent,
          send "us-east-1" "REGIONAL" = Normal response /\
          text = "AWS Managed Rules generated -- count: " +:+
                 ofNat (length (newMap (namedRules
                                  (default [] (ManagedRuleGroups response))))) /\
          written w' = written w ++ [(filePath, newContent)] /\
          files w' = <[filePath := newContent]> (files w)
    | ConsoleError text error =>
        text = "Error generating and injecting enum:" /\
        generateBody send w = (Throw error, w) /\
        written w' = written w /\ files w' = files w
    end.
Proof.
  unfold generateAndInjectAwsManagedRuleEnum, generateBody, tryCatch, bind, await,
    readFileSync, console_error, console_log, writeFileSync, modify, throw.
  destruct (send "us-east-1" "REGIONAL") as [response|e]; cbn [fst snd];
    [|split; [reflexivity|]; eexists; split; [reflexivity|]; simpl; auto].
  destruct (default [] (ManagedRuleGroups response)) as [|g gs] eqn:Hg.
  { simpl. split; [reflexivity|]. eexists. split; [reflexivity|]. simpl. auto. }
  cbn [length Nat.eqb].
  destruct (files w !! filePath) as [old|];
    [|split; [reflexivity|]; eexists; split; [reflexivity|]; simpl; auto].
  destruct (injectBetweenMarkers _ old) as [newContent|e]; cbn [fst snd];
    (split; [reflexivity|]); eexists; (split; [reflexivity|]); simpl; [|auto].
  exists response, newContent. rewrite Hg. auto.
Qed.

Lemma namedRules_nil (ruleGroups : list ManagedRuleGroupSummary) :
  (forall rule, rule ∈ ruleGroups ->
     truthy (Name rule) && truthy (Description rule) = false) ->
  namedRules ruleGroups = [].
Proof.
  unfold namedRules. induction ruleGroups as [|rule rules IH]; intros H; [reflexivity|].
  cbn [omap list_omap]. rewrite (H rule) by (apply elem_of_cons; left; reflexivity).
  apply IH. intros r Hr. apply H. apply elem_of_cons. right. exact Hr.
Qed.

(** X4.  The check for an empty answer looks at the rule groups before
    those without a name or a description are left out: when the answer
    has rule groups but none with both a name and a description, the
    run still rewrites a file that has both markers, with an enum that
    has no member, and logs the count 0. *)
Theorem unnamed_groups_give_empty_enum send (w : World)
    (response : ListAvailableManagedRuleGroupsResponse) (old : string) :
  send "us-east-1" "REGIONAL" = Normal response ->
  default [] (ManagedRuleGroups response) <> [] ->
  (forall rule, rule ∈ default [] (ManagedRuleGroups response) ->
     truthy (Name rule) && truthy (Description rule) = false) ->
  files w !! filePath = Some old ->
  occurs startMarker old -> occurs endMarker old ->
  let w' := snd (generateAndInjectAwsManagedRuleEnum send w) in
  exists newContent,
    injectBetweenMarkers emptyEnum old = Normal newContent /\
    written w' = written w ++ [(filePath, newContent)] /\
    console w' = console w ++ [ConsoleLog "AWS Managed Rules generated -- count: 0"].
Proof.
  intros Hsend Hsome Hunnamed Hfile Hs He.
  apply occurs_find in Hs as [i Hs]. apply occurs_find in He as [j He].
  unfold generateAndInjectAwsManagedRuleEnum, generateBody, tryCatch, bind, await,
    readFileSync, console_error, console_log, writeFileSync, modify, throw.
  rewrite Hsend. rewrite (namedRules_nil _ Hunnamed).
  destruct (default [] (ManagedRuleGroups response)) as [|g gs]; [congruence|].
  cbn [length Nat.eqb]. rewrite Hfile.
  change (enumStringOf (newMap [])) with emptyEnum.
  rewrite (WafRuleEnumSpec.inject_found emptyEnum old i j Hs He). cbn [fst snd].
  eexists. split; [reflexivity|]. split; reflexivity.
Qed.

(** The end marker cannot begin one to three code units before the
    start marker: it would need a slash where it has a star or a
    space. *)
Lemma markers_do_not_overlap (content : string) (i j : nat) :
  occursAt startMarker content i -> occursAt endMarker content j ->
  (j < i)%nat -> (j + String.length endMarker <= i + String.length startMarker)%nat.
Proof.
  intros [_ Hs] [_ He] Hji. destruct WafRuleEnumSpec.marker_lengths as [-> ->].
  destruct (Nat.le_gt_cases (j + 34) (i + 30)) as [|Hover]; [assumption|exfalso].
  apply (prefix_drop _ _ (i - j)) in He. rewrite str_drop_drop in He.
  replace (j + (i - j))%nat with i in He by lia.
  destruct (str_drop i content) as [|c rest]; [discriminate Hs|].
  assert (Hc : c = "/"%char).
  { unfold startMarker in Hs. apply prefix_cons_inv in Hs as [Hc _]. congruence. }
  subst c. clear Hs.
  destruct (i - j)%nat as [|[|[|[|d]]]] eqn:Hd; try lia;
    unfold endMarker in He; cbn [str_drop] in He;
    apply prefix_cons_inv in He as [He _]; discriminate He.
Qed.

(** X5.  When the first end marker of the file begins before its first
    start marker, an injection duplicates the text from the end marker
    through the start marker: the new content is longer than the old by
    that text and the generated region, and its first markers are where
    they were, so that every further injection makes the file longer
    again. *)
Theorem injection_with_reversed_markers_grows (enumString content : string)
    (i j : nat) :
  firstAt startMarker content i ->
  firstAt endMarker content j ->
  (j < i)%nat ->
  exists out,
    injectBetweenMarkers enumString content = Normal out /\
    firstAt startMarker out i /\
    firstAt endMarker out j /\
    String.length out =
      (String.length content + (i + String.length startMarker - j) +
       String.length (generatedRegion enumString))%nat.
Proof.
  intros Hs He Hji.
  pose proof (occursAt_bound _ _ _ (proj1 Hs)) as Hbs.
  pose proof (occursAt_bound _ _ _ (proj1 He)) as Hbe.
  pose proof (markers_do_not_overlap content i j (proj1 Hs) (proj1 He) Hji) as Hin.
  set (head := str_take (i + String.length startMarker) content).
  assert (Hlen : String.length head = (i + String.length startMarker)%nat)
    by (unfold head; rewrite str_length_take; lia).
  assert (Hcontent : content = head +:+ str_drop (i + String.length startMarker) content)
    by (unfold head; rewrite str_take_drop; reflexivity).
  exists (head +:+ generatedRegion enumString +:+ str_drop j content).
  split; [|split; [|split]].
  - apply WafRuleEnumSpec.inject_found; apply find_Some; assumption.
  - apply WafRuleEnumSpec.start_marker_stays, Hs.
  - destruct He as [Hocc Hmin]. split.
    + apply occursAt_app_l. apply (WafRuleEnumSpec.occursAt_app_inv_l _ _
        (str_drop (i + String.length startMarker) content)); [|lia].
      rewrite <- Hcontent. exact Hocc.
    + intros k Hk Hk'. apply (Hmin k Hk). rewrite Hcontent.
      apply occursAt_app_l.
      apply (WafRuleEnumSpec.occursAt_app_inv_l _ _ _ _ Hk'). lia.
  - rewrite !str_length_app, Hlen, str_length_drop. lia.
Qed.

(** X4 at the sample file and an answer with one rule group that has
    no description. *)
Lemma unnamed_groups_give_empty_enum_witness :
  exists newContent,
    injectBetweenMarkers emptyEnum sampleFile = Normal newContent /\
    written (snd (generateAndInjectAwsManagedRuleEnum
                    (fun _ _ => Normal unnamedResponse) sampleWorld))
      = [] ++ [(filePath, newContent)] /\
    console (snd (generateAndInjectAwsManagedRuleEnum
                    (fun _ _ => Normal unnamedResponse) sampleWorld))
      = [] ++ [ConsoleLog "AWS Managed Rules generated -- count: 0"].
Proof.
  apply (unnamed_groups_give_empty_enum (fun _ _ => Normal unnamedResponse)
           sampleWorld unnamedResponse sampleFile).
  - reflexivity.
  - discriminate.
  - intros rule Hrule. apply list_elem_of_singleton in Hrule as ->. reflexivity.
  - reflexivity.
  - exists 25%nat. split; [vm_compute; lia|reflexivity].
  - exists 99%nat. split; [vm_compute; lia|reflexivity].
Defined.

(** X5 at the file that has the end marker first. *)
Lemma injection_with_reversed_markers_grows_witness :
  exists out,
    injectBetweenMarkers sampleEnum reversedFile = Normal out /\
    firstAt startMarker out 35 /\
    firstAt endMarker out 0 /\
    String.length out =
      (String.length reversedFile + (35 + String.length startMarker - 0) +
       String.length (generatedRegion sampleEnum))%nat.
Proof.
  apply (injection_with_reversed_markers_grows sampleEnum reversedFile 35 0).
  - apply find_Some. reflexivity.
  - apply find_Some. reflexivity.
  - lia.
Defined.

(** A run that finds rule groups, the file and the markers. *)
Lemma generator_success send (w : World)
    (response : ListAvailableManagedRuleGroupsResponse) (old out : string) :
  send "us-east-1" "REGIONAL" = Normal response ->
  default [] (ManagedRuleGroups response) <> [] ->
  files w !! filePath = Some old ->
  injectBetweenMarkers
    (enumStringOf (newMap (namedRules (default [] (ManagedRuleGroups response))))) old
    = Normal out ->
  generateAndInjectAwsManagedRuleEnum send w =
    (Normal tt,
     mkWorld (<[filePath := out]> (files w)) (written w ++ [(filePath, out)])
             (console w ++
              [ConsoleLog ("AWS Managed Rules generated -- count: " +:+
                           ofNat (length (newMap (namedRules
                                            (default [] (ManagedRuleGroups response))))))])).
Proof.
  intros Hsend Hsome Hfile Hinject.
  unfold generateAndInjectAwsManagedRuleEnum, generateBody, tryCatch, bind, await,
    readFileSync, console_error, console_log, writeFileSync, modify, throw.
  rewrite Hsend.
  destruct (default [] (ManagedRuleGroups response)) as [|g gs] eqn:Hg; [congruence|].
  cbn [length Nat.eqb]. rewrite Hfile, Hinject. reflexivity.
Qed.

(** A run that logs has written the file, with both markers found. *)
Lemma generator_logged send (w : World) (text : string) :
  console (snd (generateAndInjectAwsManagedRuleEnum send w)) =
    console w ++ [ConsoleLog text] ->
  exists old out,
    files w !! filePath = Some old /\
    (exists enumString, injectBetweenMarkers enumString old = Normal out) /\
    files (snd (generateAndInjectAwsManagedRuleEnum send w)) =
      <[filePath := out]> (files w) /\
    written (snd (generateAndInjectAwsManagedRuleEnum send w)) =
      written w ++ [(filePath, out)].
Proof.
  unfold generateAndInjectAwsManagedRuleEnum, generateBody, tryCatch, bind, await,
    readFileSync, console_error, console_log, writeFileSync, modify, throw.
  destruct (send "us-east-1" "REGIONAL") as [response|e]; cbn [fst snd console];
    [|intros H; apply app_inv_head in H; discriminate H].
  destruct (default [] (ManagedRuleGroups response)) as [|g gs] eqn:Hg.
  { cbn [length Nat.eqb snd console]. intros H. apply app_inv_head in H.
    discriminate H. }
  cbn [length Nat.eqb].
  destruct (files w !! filePath) as [old|]; cbn [fst snd console];
    [|intros H; apply app_inv_head in H; discriminate H].
  destruct (injectBetweenMarkers _ old) as [out|e] eqn:Hinject; cbn [fst snd console];
    [|intros H; apply app_inv_head in H; discriminate H].
  intros _. exists old, out. split; [reflexivity|]. split; [eauto|].
  split; reflexivity.
Qed.

(** Both markers are in the content that an injection returns. *)
Lemma markers_survive (enumString content out : string) :
  injectBetweenMarkers enumString content = Normal out ->
  occurs startMarker out /\ occurs endMarker out.
Proof.
  intros Hinject.
  destruct (find startMarker content) as [i|] eqn:Hs;
    [|rewrite WafRuleEnumSpec.inject_not_found in Hinject by auto; discriminate Hinject].
  destruct (find endMarker content) as [j|] eqn:He;
    [|rewrite WafRuleEnumSpec.inject_not_found in Hinject by auto; discriminate Hinject].
  rewrite (WafRuleEnumSpec.inject_found _ _ i j Hs He) in Hinject.
  assert (Hout : out = str_take (i + String.length startMarker) content +:+
                       generatedRegion enumString +:+ str_drop j content)
    by congruence.
  rewrite Hout. clear Hinject Hout.
  apply find_Some in Hs as [Hs _]. apply find_Some in He as [[_ He] _]. split.
  - exists (String.length (str_take i content) + 0)%nat.
    rewrite (WafRuleEnumSpec.head_through_marker _ _ _ Hs), str_app_assoc.
    apply WafRuleEnumSpec.occursAt_app_r, occursAt_0, prefix_app.
  - eexists. apply WafRuleEnumSpec.occursAt_app_r, WafRuleEnumSpec.occursAt_app_r.
    apply occursAt_0. exact He.
Qed.

(** X18.  A run that ended with the log has left a file in which both
    markers are found, so the generator can be run again: after it,
    every run whose answer has at least one rule group writes the file
    and logs, whatever the rule groups are. *)
Theorem successful_run_can_be_repeated send send' (w : World) (text : string)
    (response' : ListAvailableManagedRuleGroupsResponse) :
  let w1 := snd (generateAndInjectAwsManagedRuleEnum send w) in
  let w2 := snd (generateAndInjectAwsManagedRuleEnum send' w1) in
  console w1 = console w ++ [ConsoleLog text] ->
  send' "us-east-1" "REGIONAL" = Normal response' ->
  default [] (ManagedRuleGroups response') <> [] ->
  exists content content' text',
    files w1 !! filePath = Some content /\
    occurs startMarker content /\ occurs endMarker content /\
    written w2 = written w1 ++ [(filePath, content')] /\
    console w2 = console w1 ++ [ConsoleLog text'].
Proof.
  intros w1 w2 Hlog Hsend Hsome.
  destruct (generator_logged send w text Hlog)
    as (old & out & Hold & [enumString Hinject] & Hfiles & _).
  fold w1 in Hfiles.
  destruct (markers_survive _ _ _ Hinject) as [Hs He].
  assert (Hfile : files w1 !! filePath = Some out)
    by (rewrite Hfiles; apply lookup_insert_eq).
  pose proof Hs as Hs'. pose proof He as He'.
  apply occurs_find in Hs' as [i Hi]. apply occurs_find in He' as [j Hj].
  pose proof (generator_success send' w1 response' out _ Hsend Hsome Hfile
                (WafRuleEnumSpec.inject_found _ out i j Hi Hj)) as Hrun.
  exists out. eexists _, _. split; [exact Hfile|]. split; [exact Hs|].
  split; [exact He|]. unfold w2. rewrite Hrun. split; reflexivity.
Qed.

Lemma successful_run_can_be_repeated_witness :
  let send := fun _ _ : string => Normal unnamedResponse in
  let w1 := snd (generateAndInjectAwsManagedRuleEnum send sampleWorld) in
  let w2 := snd (generateAndInjectAwsManagedRuleEnum send w1) in
  exists text', console w2 = console w1 ++ [ConsoleLog text'].
Proof.
  cbv zeta.
  destruct (successful_run_can_be_repeated
              (fun _ _ => Normal unnamedResponse) (fun _ _ => Normal unnamedResponse)
              sampleWorld "AWS Managed Rules generated -- count: 0" unnamedResponse)
    as (content & content' & text' & _ & _ & _ & _ & Hconsole).
  - vm_compute. reflexivity.
  - reflexivity.
  - discriminate.
  - exists text'. exact Hconsole.
Defined.

End WafRuleEnumMore.

(** ** The README generator: further properties *)

Module ReadmeLibraryMore.
Import Eff Node JsString JsStringFacts JsStringMore ReadmeLibrary.

Lemma header_fromHeader (lines : list string) (i : nat) (raw : string)
    (following : list string) (st : LoopState) :
  lines !! i = Some raw ->
  drop (S i) lines = following ->
  startsWith (trim raw) "### " = true ->
  (forall item, item ∈ allItems st -> fromHeader lines item) ->
  (forall item, currentItem st = Some item -> fromHeader lines item) ->
  (forall item, item ∈ allItems (header i (trim raw) following st) ->
     fromHeader lines item) /\
  (forall item, currentItem (header i (trim raw) following st) = Some item ->
     fromHeader lines item).
Proof.
  intros Hraw Hfollowing Hhead Hall Hcur.
  assert (Hpush : forall st0 st1 x,
             (forall item, item ∈ allItems st0 -> fromHeader lines item) ->
             fromHeader lines x ->
             allItems st1 ≡ₚ x :: allItems st0 ->
             forall item, item ∈ allItems st1 -> fromHeader lines item).
  { intros st0 st1 x H0 Hx Hperm item Hitem. rewrite Hperm in Hitem.
    apply elem_of_cons in Hitem as [->|Hitem]; auto. }
  assert (Hall1 : forall item, item ∈ allItems (categorizePending (trim raw) st) ->
                    fromHeader lines item).
  { unfold categorizePending. destruct (currentItem st) as [pending|] eqn:Hc; [|exact Hall].
    destruct (matchId (trim raw)); [|exact Hall].
    repeat case_match; try exact Hall;
      eauto using ParseApiDocSpec.allItems_pushPattern,
        ParseApiDocSpec.allItems_pushAspect, ParseApiDocSpec.allItems_pushConstruct. }
  assert (Hcur1 : currentItem (categorizePending (trim raw) st) = currentItem st).
  { clear. destruct st as [cs az ps ig [pending|]]; [|reflexivity].
    unfold categorizePending. cbn [currentItem].
    destruct (matchId (trim raw)); [|reflexivity]. repeat case_match; reflexivity. }
  unfold header. set (st1 := categorizePending (trim raw) st) in *.
  destruct (matchId (trim raw)) as [id0|] eqn:Hid.
  - destruct (includes (toLowerCase id0) ".types.") eqn:Htypes.
    + split; [exact Hall1|]. intros item Hitem. discriminate Hitem.
    + set (item := mkDocItem i _ _).
      assert (Hitem : fromHeader lines item).
      { exists raw, id0. unfold item. cbn [ref name description].
        rewrite Hfollowing. repeat split; assumption. }
      repeat case_match.
      * split; [|intros x Hx; discriminate Hx].
        apply (Hpush st1 _ item Hall1 Hitem), ParseApiDocSpec.allItems_pushPattern.
      * split; [|intros x Hx; discriminate Hx].
        apply (Hpush st1 _ item Hall1 Hitem), ParseApiDocSpec.allItems_pushAspect.
      * split; [|intros x Hx; discriminate Hx].
        apply (Hpush st1 _ item Hall1 Hitem), ParseApiDocSpec.allItems_pushConstruct.
      * split; [exact Hall1|]. intros x [= <-]. exact Hitem.
  - split; [exact Hall1|]. rewrite Hcur1. exact Hcur.
Qed.

Lemma step_fromHeader (lines : list string) (i : nat) (raw : string)
    (following : list string) (st : LoopState) :
  lines !! i = Some raw ->
  drop (S i) lines = following ->
  (forall item, item ∈ allItems st -> fromHeader lines item) ->
  (forall item, currentItem st = Some item -> fromHeader lines item) ->
  (forall item, item ∈ allItems (step i raw following st) -> fromHeader lines item) /\
  (forall item, currentItem (step i raw following st) = Some item ->
     fromHeader lines item).
Proof.
  intros Hraw Hfollowing Hall Hcur. unfold step.
  case_match; [split; [exact Hall|exact Hcur]|].
  set (st0 := if startsWith (trim raw) "## " then setIgnored false st else st).
  assert (Ha : allItems st0 = allItems st) by (unfold st0; case_match; reflexivity).
  assert (Hc : currentItem st0 = currentItem st) by (unfold st0; case_match; reflexivity).
  case_match; [rewrite Ha, Hc; split; [exact Hall|exact Hcur]|].
  case_match eqn:Hh; [|rewrite Ha, Hc; split; [exact Hall|exact Hcur]].
  apply andb_prop in Hh as [Hh _].
  apply (header_fromHeader lines i raw following st0 Hraw Hfollowing Hh).
  - rewrite Ha. exact Hall.
  - rewrite Hc. exact Hcur.
Qed.

Lemma parseLines_fromHeader (lines before rest : list string) (st : LoopState) :
  lines = before ++ rest ->
  (forall item, item ∈ allItems st -> fromHeader lines item) ->
  (forall item, currentItem st = Some item -> fromHeader lines item) ->
  (forall item, item ∈ allItems (parseLines (length before) rest st) ->
     fromHeader lines item) /\
  (forall item, currentItem (parseLines (length before) rest st) = Some item ->
     fromHeader lines item).
Proof.
  revert before st. induction rest as [|raw following IH]; intros before st Hlines Hall Hcur.
  - split; assumption.
  - cbn [parseLines].
    destruct (step_fromHeader lines (length before) raw following st) as [Hall' Hcur'];
      auto.
    + rewrite Hlines. apply list_lookup_middle. reflexivity.
    + rewrite Hlines. change (raw :: following) with ([raw] ++ following).
      rewrite (assoc_L (++)). apply drop_app_length'. rewrite length_app. simpl. lia.
    + specialize (IH (before ++ [raw]) (step (length before) raw following st)).
      rewrite length_app in IH. simpl in IH.
      replace (length before + 1)%nat with (S (length before)) in IH by lia.
      apply IH; auto. rewrite Hlines, <- (assoc_L (++)). reflexivity.
Qed.

(** All the items of a parse result come from headers. *)
Lemma parseContent_fromHeader (content : string) (item : DocItem) :
  item ∈ constructs (parseContent content) ++ aspects (parseContent content) ++
         patterns (parseContent content) ->
  fromHeader (split LF content) item.
Proof.
  destruct (parseLines_fromHeader (split LF content) [] (split LF content) initialState)
    as [Hall Hcur]; [reflexivity|intros x Hx; inversion Hx|intros x Hx; discriminate Hx|].
  cbn [length] in Hall, Hcur. unfold parseContent. cbn [constructs aspects patterns].
  set (st := parseLines 0 (split LF content) initialState) in *.
  intros Hitem. destruct (currentItem st) as [pending|] eqn:Hc.
  - rewrite <- (assoc_L (++)) in Hitem. apply elem_of_app in Hitem as [Hitem|Hitem].
    + apply Hall. unfold allItems. apply elem_of_app. left. exact Hitem.
    + apply elem_of_cons in Hitem as [->|Hitem]; [apply Hcur; reflexivity|].
      apply Hall. unfold allItems. apply elem_of_app. right. exact Hitem.
  - apply Hall. exact Hitem.
Qed.

Lemma removeFirst_chars (p : ascii -> bool) (needle s : string) :
  allChars p s = true -> allChars p (removeFirst needle s) = true.
Proof.
  intros H. unfold removeFirst. destruct (find needle s) as [i|]; [|exact H].
  rewrite allChars_app, allChars_take, allChars_drop by exact H. reflexivity.
Qed.

Lemma scanDescription_chars (p : ascii -> bool) (following description : list string)
    (found : bool) :
  Forall (fun l => allChars p l = true) following ->
  Forall (fun l => allChars p l = true) description ->
  Forall (fun l => allChars p l = true) (scanDescription following description found).
Proof.
  revert description found.
  induction following as [|raw following IH]; intros description found Hf Hd;
    [exact Hd|].
  apply Forall_cons in Hf as [Hraw Hf]. cbn [scanDescription].
  repeat case_match; auto.
  apply IH; [exact Hf|]. apply Forall_app. split; [exact Hd|].
  constructor; [|constructor]. apply allChars_trim, Hraw.
Qed.

Lemma describedBy_chars (p : ascii -> bool) (following : list string) :
  p " "%char = true ->
  Forall (fun l => allChars p l = true) following ->
  allChars p (describedBy following) = true.
Proof.
  intros Hsp Hf. unfold describedBy. case_match; [|reflexivity].
  apply allChars_concat; [simpl; rewrite Hsp; reflexivity|].
  apply scanDescription_chars; [exact Hf|constructor].
Qed.

Lemma split_LF_lines (content : string) :
  Forall (fun l => allChars (fun c => negb (Ascii.eqb LF c)) l = true)
         (split LF content).
Proof.
  eapply Forall_impl; [apply (split_parts (fun _ => true))|].
  - reflexivity.
  - intros l [_ Hl]. apply hasChar_allChars, Hl.
Qed.

(** The name of an item has no space and no line feed, its description
    has no line feed. *)
Lemma fromHeader_chars (content : string) (item : DocItem) :
  fromHeader (split LF content) item ->
  hasChar " " (name item) = false /\ hasChar LF (name item) = false /\
  hasChar LF (description item) = false.
Proof.
  intros (raw & id & Hraw & _ & _ & _ & Hname & Hdesc).
  pose proof (split_LF_lines content) as Hlines.
  assert (Hline : allChars (fun c => negb (Ascii.eqb LF c)) raw = true).
  { rewrite Forall_lookup in Hlines. exact (Hlines _ _ Hraw). }
  pose proof (split_parts (fun c => negb (Ascii.eqb LF c)) " "
                (removeFirst "### " (trim raw))) as Hparts.
  destruct (split_cons " " (removeFirst "### " (trim raw))) as (h & r & Hsplit).
  rewrite Hsplit in Hparts, Hname. cbn [hd] in Hname.
  assert (Hsrc : forall c, Ascii.eqb c " " = false ->
                   In c (list_ascii_of_string (removeFirst "### " (trim raw))) ->
                   negb (Ascii.eqb LF c) = true).
  { intros c _ Hin.
    exact (proj1 (allChars_In _ _)
             (removeFirst_chars _ "### " _ (allChars_trim _ _ Hline)) c Hin). }
  specialize (Hparts Hsrc). apply Forall_cons in Hparts as [[Hh1 Hh2] _].
  rewrite Hname. split; [exact Hh2|]. split; [apply hasChar_allChars, Hh1|].
  rewrite Hdesc. apply hasChar_allChars, describedBy_chars; [reflexivity|].
  apply Forall_drop, Hlines.
Qed.

(** X6.  Every item that [parseApiDoc] returns was made for one line
    of the file: a [### ] header whose [id] attribute has no [.types.];
    its name is the first word after the [### ], its description is
    collected from the lines after that header.  So a name has no space
    and no line feed, and a description has no line feed. *)
Theorem parsed_items_come_from_headers (content : string) (item : DocItem) :
  item ∈ constructs (parseContent content) ++ aspects (parseContent content) ++
         patterns (parseContent content) ->
  fromHeader (split LF content) item /\
  hasChar " " (name item) = false /\ hasChar LF (name item) = false /\
  hasChar LF (description item) = false.
Proof.
  intros Hitem. apply parseContent_fromHeader in Hitem.
  split; [exact Hitem|]. apply (fromHeader_chars content item Hitem).
Qed.

Lemma parsed_items_come_from_headers_witness :
  let item :=
    mkDocItem 4 "Ec2ImageBuilderStart"
      "Starts an EC2 Image Builder Pipeline and optionally waits for it." in
  item ∈ constructs (parseContent sampleApi) /\
  split LF sampleApi !! 4%nat =
    Some (headerLine "###" "Ec2ImageBuilderStart" "lib.constructs.Ec2ImageBuilderStart") /\
  fromHeader (split LF sampleApi) item.
Proof.
  cbv zeta.
  assert (Hin : mkDocItem 4 "Ec2ImageBuilderStart"
                  "Starts an EC2 Image Builder Pipeline and optionally waits for it."
                ∈ constructs (parseContent sampleApi)).
  { vm_compute. constructor. }
  split; [exact Hin|]. split; [reflexivity|].
  apply (parsed_items_come_from_headers sampleApi _).
  apply elem_of_app. left. exact Hin.
Defined.

(** X7.  A run of the README script either fails before it has done
    anything, which happens exactly when API.md or README.md is
    missing (API.md is read first), or it writes README.md once, logs
    the count once and leaves every other file as it was.  A README
    without the Library heading is written back with the content it
    had. *)
Theorem readme_script_all_or_nothing (w : World) :
  let w' := snd (main w) in
  (isThrow (fst (main w)) = true <->
     files w !! "API.md" = None \/ files w !! "README.md" = None) /\
  (isThrow (fst (main w)) = true -> w' = w) /\
  (files w !! "API.md" = None -> fst (main w) = Throw (ENOENT "API.md")) /\
  (isThrow (fst (main w)) = false ->
     exists newReadme total,
       files w' = <["README.md" := newReadme]> (files w) /\
       written w' = written w ++ [("README.md", newReadme)] /\
       console w' = console w ++
                    [ConsoleLog ("README updated -- count: " +:+ ofNat total)]) /\
  (forall path, path <> "README.md" -> files w' !! path = files w !! path) /\
  (forall readme,
     files w !! "README.md" = Some readme -> is_Some (files w !! "API.md") ->
     ~ occurs libraryHeading readme ->
     files w' = files w /\ written w' = written w ++ [("README.md", readme)]).
Proof.
  pose proof (ReadmeLibrarySpec.main_run w) as Hrun. cbv zeta.
  destruct (files w !! "API.md") as [api|] eqn:Hapi;
    [destruct (files w !! "README.md") as [readme|] eqn:Hreadme|].
  - cbv zeta in Hrun. rewrite Hrun. cbn [fst snd isThrow files written console].
    split; [split; [discriminate|intros [H|H]; discriminate H]|].
    split; [discriminate|]. split; [discriminate|].
    split; [intros _; eexists _, _; repeat split; reflexivity|].
    split; [intros path Hpath; apply lookup_insert_ne; congruence|].
    intros readme' [= <-] _ Hno.
    destruct (ReadmeLibrarySpec.replaceLibrarySection_frame readme
                (newLibrarySectionOf
                   (generateMarkdown (constructs (parseContent api))
                      (aspects (parseContent api)) (patterns (parseContent api)))))
      as [[_ ->]|(before & span & after & _ & [Hocc _] & _)].
    + split; [apply insert_id, Hreadme|reflexivity].
    + exfalso. apply Hno. eexists. exact Hocc.
  - rewrite Hrun. cbn [fst snd isThrow].
    split; [split; [auto|reflexivity]|]. split; [reflexivity|].
    split; [discriminate|]. split; [discriminate|]. split; [reflexivity|].
    intros readme' Hr. discriminate Hr.
  - rewrite Hrun. cbn [fst snd isThrow].
    split; [split; [auto|reflexivity]|]. split; [reflexivity|].
    split; [reflexivity|]. split; [discriminate|]. split; [reflexivity|].
    intros readme' _ [x Hx]. discriminate Hx.
Qed.

Lemma dashWhiteSpace_In (inRun : bool) (s : string) (c : ascii) :
  In c (list_ascii_of_string (dashWhiteSpace inRun s)) ->
  c = "-"%char \/ (isWhiteSpace c = false /\ In c (list_ascii_of_string s)).
Proof.
  revert inRun. induction s as [|d s IH]; intros inRun; simpl; [tauto|].
  destruct (isWhiteSpace d) eqn:Hd.
  - destruct inRun; simpl.
    + intros H. destruct (IH _ H) as [?|[? ?]]; auto.
    + intros [<-|H]; [auto|]. destruct (IH _ H) as [?|[? ?]]; auto.
  - simpl. intros [<-|H]; [auto|]. destruct (IH _ H) as [?|[? ?]]; auto.
Qed.

Lemma dashWhiteSpace_id (s : string) :
  allChars (fun c => negb (isWhiteSpace c)) s = true -> dashWhiteSpace false s = s.
Proof.
  induction s as [|c s IH]; [reflexivity|]. simpl. intros H.
  apply andb_prop in H as [Hc Hs]. apply negb_true_iff in Hc. rewrite Hc, (IH Hs).
  reflexivity.
Qed.

Lemma lowerChar_not_upper (c : ascii) : isUpper (lowerChar c) = false.
Proof.
  unfold lowerChar. destruct (isUpper c) eqn:Hc; [|exact Hc].
  unfold isUpper in *. apply andb_prop in Hc as [H1 H2].
  apply Nat.leb_le in H1, H2.
  rewrite nat_ascii_embedding by lia.
  apply andb_false_iff. right. apply Nat.leb_gt. lia.
Qed.

Lemma lowerChar_white (c : ascii) : isWhiteSpace (lowerChar c) = isWhiteSpace c.
Proof.
  unfold lowerChar. destruct (isUpper c) eqn:Hc; [|reflexivity].
  destruct c as [[] [] [] [] [] [] [] []]; try discriminate Hc; reflexivity.
Qed.

(** X8.  The anchor of an item's link, the lower-cased name with every
    run of white space turned into one dash, has no white space and no
    capital letter; a name without white space is only lower-cased. *)
Theorem link_anchor_is_lower_case_without_white_space (itemName : string) :
  let anchor := dashWhiteSpace false (toLowerCase itemName) in
  allChars (fun c => negb (isWhiteSpace c) && negb (isUpper c)) anchor = true /\
  (allChars (fun c => negb (isWhiteSpace c)) itemName = true ->
   anchor = toLowerCase itemName).
Proof.
  cbv zeta. split.
  - apply allChars_In. intros c Hc.
    apply dashWhiteSpace_In in Hc as [->|[Hw Hc]]; [reflexivity|].
    rewrite Hw. simpl. apply negb_true_iff.
    clear Hw. induction itemName as [|d s IH]; simpl in Hc; [tauto|].
    destruct Hc as [<-|Hc]; [apply lowerChar_not_upper|auto].
  - intros H. apply dashWhiteSpace_id.
    induction itemName as [|d s IH]; [reflexivity|].
    simpl in H. apply andb_prop in H as [Hd Hs].
    change (negb (isWhiteSpace (lowerChar d)) &&
            allChars (fun c => negb (isWhiteSpace c)) (toLowerCase s) = true).
    rewrite lowerChar_white, Hd. exact (IH Hs).
Qed.

Lemma lazyToNextSection_exact (s tail : string) :
  cleanBefore s tail ->
  tail = "" \/ startsWith tail sectionBreak = true ->
  lazyToNextSection (s +:+ tail) = String.length s.
Proof.
  intros Hclean Htail. induction s as [|c s IH].
  - rewrite str_app_nil_l. destruct Htail as [->|Htail]; [reflexivity|].
    destruct tail as [|c t]; [reflexivity|].
    change (lazyToNextSection (String c t))
      with (if startsWith (String c t) sectionBreak then 0%nat
            else S (lazyToNextSection t)).
    rewrite Htail. reflexivity.
  - rewrite str_app_cons.
    change (lazyToNextSection (String c (s +:+ tail)))
      with (if startsWith (String c (s +:+ tail)) sectionBreak then 0%nat
            else S (lazyToNextSection (s +:+ tail))).
    pose proof (Hclean 0%nat ltac:(simpl; lia)) as H0.
    rewrite str_app_cons in H0. cbn [str_drop] in H0. rewrite H0.
    simpl String.length. f_equal. apply IH.
    intros k Hk. specialize (Hclean (S k) ltac:(simpl; lia)).
    rewrite str_app_cons in Hclean. exact Hclean.
Qed.

Lemma cleanBefore_nil (tail : string) : cleanBefore "" tail.
Proof. intros k Hk. simpl in Hk. lia. Qed.

Lemma cleanBefore_app (a b tail : string) :
  cleanBefore a (b +:+ tail) -> cleanBefore b tail -> cleanBefore (a +:+ b) tail.
Proof.
  intros Ha Hb k Hk. rewrite str_length_app in Hk. rewrite str_app_assoc.
  destruct (Nat.lt_ge_cases k (String.length a)) as [Hlt|Hge]; [apply Ha, Hlt|].
  rewrite str_drop_app_ge by lia. apply Hb. lia.
Qed.

Lemma cleanBefore_noLF (s tail : string) :
  hasChar LF s = false -> cleanBefore s tail.
Proof.
  intros Hs k. revert s Hs. induction k as [|k IH]; intros [|c s] Hs Hk;
    simpl in Hk; try lia;
    change (hasChar LF (String c s)) with (Ascii.eqb LF c || hasChar LF s) in Hs;
    apply orb_false_elim in Hs as [Hc Hs];
    rewrite str_app_cons; cbn [str_drop].
  - unfold startsWith, sectionBreak, nl. rewrite str_app_cons.
    destruct (String.prefix (String LF ("" +:+ "## ")) (String c (s +:+ tail))) eqn:Hp;
      [|reflexivity].
    apply prefix_cons_inv in Hp as [Heq _]. apply Ascii.eqb_neq in Hc. contradiction.
  - apply IH; [exact Hs|lia].
Qed.

Lemma cleanBefore_nl (tail : string) :
  startsWith tail "## " = false -> cleanBefore nl tail.
Proof.
  intros Ht [|k] Hk; [|simpl in Hk; lia]. cbn [str_drop].
  unfold startsWith, sectionBreak, nl in *. rewrite !str_app_cons, !str_app_nil_l.
  destruct (String.prefix (String LF "## ") (String LF tail)) eqn:Hp; [|reflexivity].
  apply prefix_cons_inv in Hp as [_ Hp]. congruence.
Qed.

Lemma itemLines_cons (item : DocItem) (items : list DocItem) :
  itemLines (item :: items) = itemLine item +:+ itemLines items.
Proof.
  unfold itemLines. cbn [fold_left]. rewrite str_app_nil_l.
  generalize (itemLine item). induction items as [|x items IH]; intros acc.
  - cbn [fold_left]. rewrite str_app_nil_r. reflexivity.
  - cbn [fold_left]. rewrite IH, (IH ("" +:+ itemLine x)), str_app_nil_l, str_app_assoc.
    reflexivity.
Qed.

Lemma itemLines_not_heading (items : list DocItem) (tail : string) :
  startsWith tail "## " = false ->
  startsWith (itemLines items +:+ tail) "## " = false.
Proof.
  intros Ht. destruct items as [|item items]; [exact Ht|].
  rewrite itemLines_cons. reflexivity.
Qed.

Lemma hasChar_dashWhiteSpace (inRun : bool) (s : string) :
  hasChar LF (dashWhiteSpace inRun s) = false.
Proof.
  apply hasChar_allChars, allChars_In. intros c Hc.
  apply dashWhiteSpace_In in Hc as [->|[Hw _]]; [reflexivity|].
  apply negb_true_iff, Ascii.eqb_neq. intros <-. discriminate Hw.
Qed.

Lemma cleanBefore_itemLines (items : list DocItem) (tail : string) :
  Forall (fun item => hasChar LF (name item) = false /\
                      hasChar LF (description item) = false) items ->
  startsWith tail "## " = false ->
  cleanBefore (itemLines items) tail.
Proof.
  intros Hitems Ht. induction Hitems as [|item items [Hn Hd] _ IH].
  - apply cleanBefore_nil.
  - rewrite itemLines_cons. apply cleanBefore_app; [|exact IH].
    unfold itemLine. cbv zeta.
    replace ("- [**" +:+ name item +:+ "**](API.md#" +:+
             dashWhiteSpace false (toLowerCase (name item)) +:+ "-): " +:+
             description item +:+ nl)
      with (("- [**" +:+ name item +:+ "**](API.md#" +:+
             dashWhiteSpace false (toLowerCase (name item)) +:+ "-): " +:+
             description item) +:+ nl)
      by (rewrite !str_app_assoc; reflexivity).
    apply cleanBefore_app.
    + apply cleanBefore_noLF.
      rewrite !hasChar_app, Hn, Hd, hasChar_dashWhiteSpace. reflexivity.
    + apply cleanBefore_nl, itemLines_not_heading, Ht.
Qed.

(** No second-level heading begins in the generated section after its
    own. *)
Lemma generated_section_clean (constructs aspects patterns : list DocItem)
    (tail : string) :
  let ok := fun item : DocItem => hasChar LF (name item) = false /\
                                  hasChar LF (description item) = false in
  Forall ok constructs -> Forall ok aspects -> Forall ok patterns ->
  startsWith tail "## " = false ->
  cleanBefore
    (str_drop (String.length libraryHeading)
       (newLibrarySectionOf (generateMarkdown constructs aspects patterns)))
    tail.
Proof.
  intros ok Hc Ha Hp Ht. unfold newLibrarySectionOf.
  rewrite str_drop_app_length. unfold generateMarkdown. rewrite !str_app_assoc.
  repeat first
    [ apply cleanBefore_itemLines; [assumption|exact Ht]
    | apply cleanBefore_app;
      [ first
          [ apply cleanBefore_nl; rewrite ?str_app_assoc;
            first [ reflexivity
                  | apply itemLines_not_heading; first [reflexivity|exact Ht] ]
          | apply cleanBefore_itemLines; [assumption|reflexivity]
          | apply cleanBefore_noLF; first [reflexivity|apply hasChar_ofNat; reflexivity] ]
      | ] ].
Qed.

Lemma parsed_items_ok (api : string) :
  let ok := fun item : DocItem => hasChar LF (name item) = false /\
                                  hasChar LF (description item) = false in
  Forall ok (constructs (parseContent api)) /\
  Forall ok (aspects (parseContent api)) /\
  Forall ok (patterns (parseContent api)).
Proof.
  cbv zeta.
  assert (H : forall item,
             item ∈ constructs (parseContent api) ++ aspects (parseContent api) ++
                    patterns (parseContent api) ->
             hasChar LF (name item) = false /\ hasChar LF (description item) = false).
  { intros item Hitem. apply parseContent_fromHeader, fromHeader_chars in Hitem.
    tauto. }
  repeat split; apply Forall_forall; intros item Hitem; apply H;
    rewrite !elem_of_app; auto.
Qed.

(** Replacing the Library section by a section generated from an
    API.md, twice, gives what replacing it once gives, when the section
    has no dollar sign. *)
Lemma replaceLibrarySection_twice (api readme : string) :
  let apiData := parseContent api in
  let section :=
    newLibrarySectionOf
      (generateMarkdown (constructs apiData) (aspects apiData) (patterns apiData)) in
  hasChar "$" section = false ->
  replaceLibrarySection (replaceLibrarySection readme section) section =
  replaceLibrarySection readme section.
Proof.
  intros apiData section Hplain.
  destruct (ReadmeLibrarySpec.replaceLibrarySection_frame readme section)
    as [[Hno Heq]|(before & span & after & Hsplit & Hfirst & Hspan & Hafter & _ & Heq)].
  - rewrite Heq. exact Heq.
  - rewrite ReadmeLibrarySpec.getSubstitution_plain in Heq by exact Hplain.
    rewrite Heq. set (h := String.length libraryHeading).
    set (rest := str_drop h section).
    assert (Hsection : section = libraryHeading +:+ rest).
    { unfold rest, h, section, newLibrarySectionOf. rewrite str_drop_app_length.
      reflexivity. }
    assert (Hclean : cleanBefore rest after).
    { destruct (parsed_items_ok api) as (Hc & Ha & Hp).
      apply generated_section_clean; try assumption.
      destruct Hafter as [->|Hafter]; [reflexivity|].
      destruct after as [|c after]; [reflexivity|].
      apply prefix_cons_inv in Hafter as [<- _]. reflexivity. }
    assert (Hfind : find libraryHeading (before +:+ section +:+ after)
                    = Some (String.length before)).
    { apply find_Some. rewrite Hsection, str_app_assoc.
      apply (first_occurrence_stays _ _ (str_drop h span +:+ after)).
      assert (Hreadme : readme = before +:+ libraryHeading +:+ str_drop h span +:+ after).
      { rewrite Hsplit. rewrite (prefix_inv _ _ Hspan) at 1.
        rewrite str_app_assoc. reflexivity. }
      rewrite <- Hreadme. exact Hfirst. }
    unfold replaceLibrarySection, matchLibrarySection. rewrite Hfind. fold h.
    assert (Hdrop : str_drop (String.length before + h) (before +:+ section +:+ after)
                    = rest +:+ after).
    { rewrite <- str_drop_drop, str_drop_app_length, Hsection, str_app_assoc.
      apply str_drop_app_length. }
    rewrite Hdrop, (lazyToNextSection_exact rest after Hclean Hafter).
    assert (Hlen : String.length section = (h + String.length rest)%nat).
    { rewrite Hsection at 1. apply str_length_app. }
    rewrite str_take_app_length.
    replace (str_drop (String.length before + h + String.length rest)
               (before +:+ section +:+ after)) with after.
    + rewrite ReadmeLibrarySpec.getSubstitution_plain by exact Hplain. reflexivity.
    + rewrite <- Nat.add_assoc, <- Hlen, <- str_drop_drop, str_drop_app_length,
        str_drop_app_length. reflexivity.
Qed.

(** X9.  Running the README script a second time writes the README
    that the first run wrote, when the generated Library section has no
    dollar sign: the section of the first run ends where the next
    second-level heading begins, or at the end of the file, since no
    line of a generated section starts with [## ] but its first. *)
Theorem readme_script_second_run_writes_the_same (w : World) (api readme : string) :
  files w !! "API.md" = Some api ->
  files w !! "README.md" = Some readme ->
  let apiData := parseContent api in
  let section :=
    newLibrarySectionOf
      (generateMarkdown (constructs apiData) (aspects apiData) (patterns apiData)) in
  hasChar "$" section = false ->
  let once := snd (main w) in
  let twice := snd (main once) in
  files twice = files once /\
  exists newReadme,
    written twice = written w ++ [("README.md", newReadme); ("README.md", newReadme)].
Proof.
  intros Hapi Hreadme apiData section Hplain once twice.
  pose proof (replaceLibrarySection_twice api readme Hplain) as Htwice.
  cbv zeta in Htwice. fold apiData in Htwice. fold section in Htwice.
  pose proof (ReadmeLibrarySpec.main_run w) as Hrun.
  rewrite Hapi, Hreadme in Hrun. cbv zeta in Hrun.
  fold apiData in Hrun. fold section in Hrun.
  pose proof (ReadmeLibrarySpec.main_run once) as Hrun'.
  assert (Hfiles : files once = <["README.md" := replaceLibrarySection readme section]>
                                  (files w))
    by (unfold once; rewrite Hrun; reflexivity).
  assert (Hwritten : written once
                     = written w ++ [("README.md", replaceLibrarySection readme section)])
    by (unfold once; rewrite Hrun; reflexivity).
  rewrite Hfiles, lookup_insert_ne, Hapi, lookup_insert_eq in Hrun' by discriminate.
  cbv beta iota zeta in Hrun'. fold apiData in Hrun'. fold section in Hrun'.
  rewrite Htwice, insert_insert_eq in Hrun'.
  unfold twice. rewrite Hrun'. cbn [snd files written]. split.
  - rewrite Hfiles. reflexivity.
  - exists (replaceLibrarySection readme section).
    rewrite Hwritten, <- (assoc_L (++)). reflexivity.
Qed.

Lemma readme_script_second_run_writes_the_same_witness :
  let once := snd (main sampleReadmeWorld) in
  files (snd (main once)) = files once.
Proof.
  cbv zeta.
  apply (readme_script_second_run_writes_the_same sampleReadmeWorld sampleApi
           dollarReadme); reflexivity.
Defined.

Lemma scanDescription_lines (following description : list string) (found : bool) :
  let ok := fun l : string =>
    l <> "" /\ startsWith l "#" = false /\ startsWith l "---" = false /\
    startsWith l "- *Implements:*" = false in
  Forall ok description ->
  Forall ok (scanDescription following description found) /\
  forall l, l ∈ scanDescription following description found ->
            l ∈ description \/ exists raw, raw ∈ following /\ l = trim raw.
Proof.
  intros ok. revert description found.
  induction following as [|raw following IH]; intros description found Hd;
    [split; [exact Hd|auto]|].
  cbn [scanDescription].
  assert (Hrec : forall d f, Forall ok d ->
             (forall l, l ∈ d -> l ∈ description \/ l = trim raw) ->
             Forall ok (scanDescription following d f) /\
             forall l, l ∈ scanDescription following d f ->
                       l ∈ description \/
                       exists raw0, raw0 ∈ raw :: following /\ l = trim raw0).
  { intros d f Hok Hfrom. destruct (IH d f Hok) as [H1 H2]. split; [exact H1|].
    intros l Hl. destruct (H2 l Hl) as [Hin|(raw0 & Hraw0 & ->)].
    - destruct (Hfrom l Hin) as [?| ->]; [auto|].
      right. exists raw. split; [apply elem_of_cons; auto|reflexivity].
    - right. exists raw0. split; [apply elem_of_cons; auto|reflexivity]. }
  destruct (startsWith (trim raw) "#") eqn:Hhash; [split; [exact Hd|auto]|].
  destruct (startsWith (trim raw) "---") eqn:Hrule; [split; [exact Hd|auto]|].
  cbn [orb].
  destruct (found && isEmpty (trim raw)); [split; [exact Hd|auto]|].
  destruct (startsWith (trim raw) "- *Implements:*") eqn:Himpl;
    [apply Hrec; [exact Hd|auto]|].
  destruct (isEmpty (trim raw)) eqn:Hempty; cbn [negb]; [apply Hrec; [exact Hd|auto]|].
  apply Hrec.
  - apply Forall_app. split; [exact Hd|]. constructor; [|constructor].
    split; [intros Heq; rewrite Heq in Hempty; discriminate Hempty|]. auto.
  - intros l Hl. apply elem_of_app in Hl as [Hl|Hl]; [auto|].
    apply list_elem_of_singleton in Hl. auto.
Qed.

Lemma scanDescription_stops (before after : list string) (stop : string)
    (description : list string) (found : bool) :
  startsWith (trim stop) "#" = true \/ startsWith (trim stop) "---" = true \/
  (trim stop = "" /\ (found = true <-> description <> []) /\
   scanDescription before description found <> []) ->
  scanDescription (before ++ stop :: after) description found =
  scanDescription before description found.
Proof.
  revert description found.
  induction before as [|raw before IH]; intros description found Hstop.
  - cbn [app scanDescription].
    destruct Hstop as [-> | [Hrule | (Hblank & Hfound & Hsome)]]; [reflexivity| |].
    + rewrite Hrule, orb_true_r. reflexivity.
    + rewrite Hblank. cbn [scanDescription] in Hsome.
      destruct found; [reflexivity|]. exfalso. apply Hsome.
      destruct description; [reflexivity|]. destruct Hfound as [_ H].
      discriminate H. discriminate.
  - cbn [app scanDescription].
    destruct (startsWith (trim raw) "#" || startsWith (trim raw) "---") eqn:Hhead;
      [reflexivity|].
    destruct (found && isEmpty (trim raw)) eqn:Hend; [reflexivity|].
    cbn [scanDescription] in Hstop. rewrite Hhead, Hend in Hstop.
    destruct (startsWith (trim raw) "- *Implements:*"); [apply IH, Hstop|].
    destruct (negb (isEmpty (trim raw))); [|apply IH, Hstop].
    apply IH. destruct Hstop as [H|[H|(Hblank & _ & Hsome)]]; auto.
    right. right. split; [exact Hblank|]. split; [|exact Hsome].
    split; [intros _ Hnil; destruct description; discriminate Hnil|reflexivity].
Qed.

Lemma concat_not_empty (sep h : string) (t : list string) :
  h <> "" -> String.concat sep (h :: t) <> "".
Proof.
  intros Hh. destruct t as [|x t]; [exact Hh|].
  change (String.concat sep (h :: x :: t))
    with (h +:+ sep +:+ String.concat sep (x :: t)).
  destruct h as [|c h]; [contradiction|]. rewrite str_app_cons. discriminate.
Qed.

(** X16.  The description of an item is made of lines that follow its
    header, trimmed and joined by a space; none of them is empty, a
    heading, a rule or an [Implements] line.  The collection stops at
    the first heading or rule, so what follows it has no influence, and
    at the first blank line met after a line was collected.  The
    description is empty exactly when no line was collected. *)
Theorem description_is_the_first_paragraph (following : list string) :
  let collected := scanDescription following [] false in
  Forall (fun l => l <> "" /\ startsWith l "#" = false /\ startsWith l "---" = false /\
                   startsWith l "- *Implements:*" = false /\
                   exists raw, raw ∈ following /\ l = trim raw) collected /\
  describedBy following = join " " collected /\
  (describedBy following = "" <-> collected = []) /\
  (forall before stop after,
     following = before ++ stop :: after ->
     startsWith (trim stop) "#" = true \/ startsWith (trim stop) "---" = true \/
     (trim stop = "" /\ scanDescription before [] false <> []) ->
     collected = scanDescription before [] false).
Proof.
  cbv zeta.
  destruct (scanDescription_lines following [] false) as [Hok Hfrom]; [constructor|].
  cbv zeta in Hok. split; [|split; [|split]].
  - apply Forall_forall. intros l Hl. rewrite Forall_forall in Hok.
    destruct (Hok l Hl) as (H1 & H2 & H3 & H4).
    destruct (Hfrom l Hl) as [Hnil|Hraw]; [inversion Hnil|]. auto 6.
  - unfold describedBy. destruct (scanDescription following [] false); reflexivity.
  - unfold describedBy.
    destruct (scanDescription following [] false) as [|h t]; [tauto|].
    cbn [length Nat.ltb Nat.leb]. apply Forall_cons in Hok as [(Hh & _) _]. split.
    + intros H. exfalso. exact (concat_not_empty " " h t Hh H).
    + discriminate.
  - intros before stop after -> Hstop. apply scanDescription_stops.
    destruct Hstop as [H|[H|[H1 H2]]]; auto.
    right. right. split; [exact H1|]. split; [|exact H2].
    split; [discriminate|intros H; contradiction].
Qed.

Section Categories.

Variable lines : list string.

Lemma listed_mono (st st' : LoopState) (item : DocItem) :
  (forall x, x ∈ st_patterns st -> x ∈ st_patterns st') ->
  (forall x, x ∈ st_aspects st -> x ∈ st_aspects st') ->
  (forall x, x ∈ st_constructs st -> x ∈ st_constructs st') ->
  listed lines st item -> listed lines st' item.
Proof.
  intros Hp Ha Hc H raw id Hraw Hid. destruct (H raw id Hraw Hid) as (H1 & H2 & H3).
  cbv zeta. repeat split; auto.
Qed.

Lemma uncategorized_listed (st : LoopState) (item : DocItem) :
  uncategorized lines item -> listed lines st item.
Proof.
  intros H raw id Hraw Hid. destruct (H raw id Hraw Hid) as (H1 & H2 & H3).
  cbv zeta. repeat split; congruence.
Qed.

Lemma categoriesOk_push (st st' : LoopState) (item : DocItem) :
  categoriesOk lines st ->
  allItems st' ≡ₚ item :: allItems st ->
  (forall x, x ∈ st_patterns st -> x ∈ st_patterns st') ->
  (forall x, x ∈ st_aspects st -> x ∈ st_aspects st') ->
  (forall x, x ∈ st_constructs st -> x ∈ st_constructs st') ->
  listed lines st' item ->
  (forall x, x ∈ allItems st' -> listed lines st' x).
Proof.
  intros [Hall _] Hperm Hp Ha Hc Hitem x Hx. rewrite Hperm in Hx.
  apply elem_of_cons in Hx as [->|Hx]; [exact Hitem|].
  apply (listed_mono st st' x Hp Ha Hc), Hall, Hx.
Qed.

Lemma categorizePending_categories (line : string) (st : LoopState) :
  categoriesOk lines st -> categoriesOk lines (categorizePending line st).
Proof.
  intros Hok. pose proof Hok as [Hall Hcur]. unfold categorizePending.
  destruct (currentItem st) as [pending|] eqn:Hc; [|exact Hok].
  destruct (matchId line); [|exact Hok].
  specialize (Hcur pending eq_refl).
  repeat case_match; try exact Hok;
    (split; [|cbn [currentItem pushPattern pushAspect pushConstruct]; rewrite Hc;
              intros x [= <-]; exact Hcur]).
  - apply (categoriesOk_push st _ pending Hok (ParseApiDocSpec.allItems_pushPattern _ _));
      cbn [st_patterns st_aspects st_constructs pushPattern]; auto.
    + intros x Hx. apply elem_of_app. auto.
    + apply uncategorized_listed, Hcur.
  - apply (categoriesOk_push st _ pending Hok (ParseApiDocSpec.allItems_pushAspect _ _));
      cbn [st_patterns st_aspects st_constructs pushAspect]; auto.
    + intros x Hx. apply elem_of_app. auto.
    + apply uncategorized_listed, Hcur.
  - apply (categoriesOk_push st _ pending Hok
             (ParseApiDocSpec.allItems_pushConstruct _ _));
      cbn [st_patterns st_aspects st_constructs pushConstruct]; auto.
    + intros x Hx. apply elem_of_app. auto.
    + apply uncategorized_listed, Hcur.
Qed.

Lemma header_categories (i : nat) (raw : string) (following : list string)
    (st : LoopState) :
  lines !! i = Some raw ->
  categoriesOk lines st -> categoriesOk lines (header i (trim raw) following st).
Proof.
  intros Hraw Hok. apply (categorizePending_categories (trim raw)) in Hok.
  unfold header. set (st1 := categorizePending (trim raw) st) in *.
  destruct (matchId (trim raw)) as [id0|] eqn:Hid; [|exact Hok].
  destruct (includes (toLowerCase id0) ".types.");
    [split; [apply Hok|intros x Hx; discriminate Hx]|].
  set (item := mkDocItem i _ _).
  destruct (includes (toLowerCase id0) ".patterns.") eqn:Hp;
    [|destruct (includes (toLowerCase id0) ".aspects.") eqn:Ha;
      [|destruct (includes (toLowerCase id0) ".constructs.") eqn:Hc]].
  - split; [|intros x Hx; discriminate Hx].
    apply (categoriesOk_push st1 _ item Hok (ParseApiDocSpec.allItems_pushPattern _ _));
      cbn [st_patterns st_aspects st_constructs pushPattern setCurrent]; auto.
    + intros x Hx. apply elem_of_app. auto.
    + intros raw' id' Hraw' Hid'. cbn [ref item] in Hraw'.
      assert (raw' = raw) as -> by congruence. assert (id' = id0) as -> by congruence.
      cbv zeta. repeat split; try congruence.
      intros _. apply elem_of_app. right. apply list_elem_of_singleton. reflexivity.
  - split; [|intros x Hx; discriminate Hx].
    apply (categoriesOk_push st1 _ item Hok (ParseApiDocSpec.allItems_pushAspect _ _));
      cbn [st_patterns st_aspects st_constructs pushAspect setCurrent]; auto.
    + intros x Hx. apply elem_of_app. auto.
    + intros raw' id' Hraw' Hid'. cbn [ref item] in Hraw'.
      assert (raw' = raw) as -> by congruence. assert (id' = id0) as -> by congruence.
      cbv zeta. repeat split; try congruence.
      intros _ _. apply elem_of_app. right. apply list_elem_of_singleton. reflexivity.
  - split; [|intros x Hx; discriminate Hx].
    apply (categoriesOk_push st1 _ item Hok
             (ParseApiDocSpec.allItems_pushConstruct _ _));
      cbn [st_patterns st_aspects st_constructs pushConstruct setCurrent]; auto.
    + intros x Hx. apply elem_of_app. auto.
    + intros raw' id' Hraw' Hid'. cbn [ref item] in Hraw'.
      assert (raw' = raw) as -> by congruence. assert (id' = id0) as -> by congruence.
      cbv zeta. repeat split; try congruence.
      intros _ _ _. apply elem_of_app. right. apply list_elem_of_singleton. reflexivity.
  - split; [apply Hok|]. intros x [= <-] raw' id' Hraw' Hid'. cbn [ref item] in Hraw'.
    assert (raw' = raw) as -> by congruence. assert (id' = id0) as -> by congruence.
    auto.
Qed.

Lemma step_categories (i : nat) (raw : string) (following : list string)
    (st : LoopState) :
  lines !! i = Some raw ->
  categoriesOk lines st -> categoriesOk lines (step i raw following st).
Proof.
  intros Hraw Hok. unfold step. case_match; [exact Hok|].
  set (st0 := if startsWith (trim raw) "## " then setIgnored false st else st).
  assert (Hok0 : categoriesOk lines st0) by (unfold st0; case_match; exact Hok).
  clearbody st0. case_match; [exact Hok0|]. case_match; [|exact Hok0].
  apply header_categories; assumption.
Qed.

Lemma parseLines_categories (before rest : list string) (st : LoopState) :
  lines = before ++ rest ->
  categoriesOk lines st -> categoriesOk lines (parseLines (length before) rest st).
Proof.
  revert before st. induction rest as [|raw following IH]; intros before st Hlines Hok;
    [exact Hok|].
  cbn [parseLines].
  specialize (IH (before ++ [raw]) (step (length before) raw following st)).
  rewrite length_app in IH. simpl in IH.
  replace (length before + 1)%nat with (S (length before)) in IH by lia.
  apply IH; [rewrite Hlines, <- (assoc_L (++)); reflexivity|].
  apply step_categories; [|exact Hok].
  rewrite Hlines. apply list_lookup_middle. reflexivity.
Qed.

End Categories.

(** X17.  An item is listed where the id of its own header says: under
    the patterns when the lower-cased id contains [.patterns.],
    otherwise under the aspects when it contains [.aspects.], otherwise
    under the constructs when it contains [.constructs.]. *)
Theorem parsed_items_are_listed_by_their_id (content : string) (item : DocItem)
    (raw id : string) :
  let result := parseContent content in
  item ∈ constructs result ++ aspects result ++ patterns result ->
  split LF content !! ref item = Some raw ->
  matchId (trim raw) = Some id ->
  let lowered := toLowerCase id in
  (includes lowered ".patterns." = true -> item ∈ patterns result) /\
  (includes lowered ".patterns." = false -> includes lowered ".aspects." = true ->
   item ∈ aspects result) /\
  (includes lowered ".patterns." = false -> includes lowered ".aspects." = false ->
   includes lowered ".constructs." = true -> item ∈ constructs result).
Proof.
  intros result Hitem Hraw Hid.
  destruct (parseLines_categories (split LF content) [] (split LF content) initialState)
    as [Hall Hcur]; [reflexivity|split; [intros x Hx; inversion Hx|
                                         intros x Hx; discriminate Hx]|].
  cbn [length] in Hall, Hcur. unfold result, parseContent in *.
  cbn [constructs aspects patterns] in *.
  set (st := parseLines 0 (split LF content) initialState) in *.
  assert (Hlisted : listed (split LF content) st item \/
                    uncategorized (split LF content) item).
  { destruct (currentItem st) as [pending|] eqn:Hc.
    - rewrite <- (assoc_L (++)) in Hitem. apply elem_of_app in Hitem as [Hitem|Hitem].
      + left. apply Hall. unfold allItems. apply elem_of_app. auto.
      + apply elem_of_cons in Hitem as [->|Hitem]; [right; apply Hcur; reflexivity|].
        left. apply Hall. unfold allItems. apply elem_of_app. auto.
    - left. apply Hall. exact Hitem. }
  destruct Hlisted as [Hlisted|Hnone].
  - destruct (Hlisted raw id Hraw Hid) as (H1 & H2 & H3). cbv zeta in *.
    repeat split; auto.
    intros Hp Ha Hc. specialize (H3 Hp Ha Hc).
    destruct (currentItem st); [apply elem_of_app; auto|exact H3].
  - destruct (Hnone raw id Hraw Hid) as (H1 & H2 & H3). cbv zeta.
    repeat split; congruence.
Qed.

Lemma parsed_items_are_listed_by_their_id_witness :
  let item := mkDocItem 17 "Tagger" "Tags things." in
  item ∈ aspects (parseContent sampleApi).
Proof.
  cbv zeta.
  refine (proj1 (proj2 (parsed_items_are_listed_by_their_id sampleApi
                          (mkDocItem 17 "Tagger" "Tags things.")
                          (headerLine "###" "Tagger" "lib.aspects.Tagger")
                          "lib.aspects.Tagger" _ _ _)) _ _); try reflexivity.
  apply list_elem_of_In. vm_compute. repeat first [left; reflexivity|right].
Defined.

End ReadmeLibraryMore.

(** ** The [Ec2ImageBuilderStart] construct: further properties *)

Module Ec2ImageBuilderStartMore.
Import Eff JsString JsStringFacts Ec2ImageBuilderStart.








End Ec2ImageBuilderStartMore.

(** ** The [DynamoDBProvisionTable] construct: further properties *)

Module DynamoDBProvisionTableMore.
Import Eff DynamoDBProvisionTable DynamoDBProvisionTableSpec.

Lemma elem_of_stackIds (calls : list Construction) (k : string) :
  k ∈ omap stackIdOf calls <->
  exists c s, c ∈ calls /\ enclosingStack (c_scope c) = Some s /\ stackNodeId s = k.
Proof.
  rewrite list_elem_of_omap. unfold stackIdOf. split.
  - intros (c & Hc & Hk). destruct (enclosingStack (c_scope c)) as [s|] eqn:Hs;
      [|discriminate Hk]. injection Hk as <-. eauto.
  - intros (c & s & Hc & Hs & <-). exists c. rewrite Hs. auto.
Qed.

Lemma cache_keys (calls : list Construction) (k : string) :
  is_Some (serviceTokens (constructAll calls initial) !! k) <->
  k ∈ omap stackIdOf (completed calls initial).
Proof.
  rewrite elem_of_stackIds, <- not_eq_None_Some, serviceTokens_keys. split.
  - intros H.
    destruct (decide (k ∈ omap stackIdOf (completed calls initial))) as [Hin|Hout].
    + apply elem_of_stackIds, Hin.
    + exfalso. apply H. split; [apply lookup_empty|].
      intros c s Hc Hs Hk. apply Hout, elem_of_stackIds. eauto.
  - intros (c & s & Hc & Hs & Hk) [_ H]. exact (H c s Hc Hs Hk).
Qed.

(** The stack of a provider is the stack of a construction. *)
Lemma provider_stacks (calls : list Construction) (p : Provider) :
  p ∈ providersOf (tree (constructAll calls initial)) ->
  exists c, c ∈ calls /\ enclosingStack (c_scope c) = Some (providerStack p).
Proof.
  revert p. induction calls as [|c calls IH] using rev_ind; intros p Hp.
  - inversion Hp.
  - rewrite constructAll_app in Hp. cbn [constructAll fold_left] in Hp.
    pose proof (constructor_step (c_scope c) (c_id c) (c_props c)
                  (constructAll calls initial)) as Hstep. cbv zeta in Hstep.
    assert (Hold : p ∈ providersOf (tree (constructAll calls initial)) ->
                   exists c0, c0 ∈ calls ++ [c] /\
                              enclosingStack (c_scope c0) = Some (providerStack p)).
    { intros H. destruct (IH p H) as (c0 & Hc0 & Hs). exists c0.
      rewrite elem_of_app. auto. }
    destruct (fst (constructor (c_scope c) (c_id c) (c_props c)
                     (constructAll calls initial))).
    + destruct Hstep as (stack & Hstack & Hstep).
      destruct (serviceTokens (constructAll calls initial) !! stackNodeId stack).
      * destruct Hstep as (_ & _ & Hprov & _). rewrite Hprov in Hp. auto.
      * destruct Hstep as (_ & _ & Hprov & _). rewrite Hprov in Hp.
        apply elem_of_app in Hp as [Hp|Hp]; [auto|].
        apply list_elem_of_singleton in Hp. subst p. exists c.
        rewrite elem_of_app, list_elem_of_singleton. auto.
    + destruct Hstep as (_ & _ & Hprov & _). rewrite Hprov in Hp. auto.
Qed.

(** The parent of every child is in the stack of the scope of one of
    the calls, or in none as that scope. *)
Lemma children_stacks (calls : list Construction) (parent : Construct) (i : string) :
  (parent, i) ∈ children (constructAll calls initial) ->
  exists c, c ∈ calls /\ enclosingStack parent = enclosingStack (c_scope c).
Proof.
  induction calls as [|c calls IH] using rev_ind; intros Hin.
  - inversion Hin.
  - rewrite constructAll_app in Hin. cbn [constructAll fold_left] in Hin.
    destruct (children_step (c_scope c) (c_id c) (c_props c)
                (constructAll calls initial)) as (_ & _ & Hnew).
    destruct (Hnew parent i Hin) as [Hold|Hstack].
    + destruct (IH Hold) as (c0 & Hc0 & Hs). exists c0. rewrite elem_of_app. auto.
    + exists c. rewrite elem_of_app, list_elem_of_singleton. auto.
Qed.

(** X13.  After any sequence of calls, started with an empty cache, the
    providers built are one for each distinct node id of the stack of a
    construction, that is of a call that completed, in the order in
    which the node ids were first met; the cache has an entry exactly
    for these node ids; and one custom resource was built for each
    construction.  Every construction is in a stack. *)
Theorem one_provider_per_stack_node_id (calls : list Construction) :
  let final := constructAll calls initial in
  let done := completed calls initial in
  let ids := omap stackIdOf done in
  (fun p => stackNodeId (providerStack p)) <$> providersOf (tree final) =
    reverse (remove_dups (reverse ids)) /\
  (forall k, is_Some (serviceTokens final !! k) <-> k ∈ ids) /\
  length (tokensOf (tree final)) = length done /\
  length ids = length done.
Proof.
  cbv zeta. split; [|split; [intros k; apply cache_keys|]].
  - induction calls as [|c calls IH] using rev_ind; [reflexivity|].
    rewrite constructAll_app, completed_app, omap_app.
    cbn [constructAll fold_left completed]. rewrite (right_id_L [] (++)).
    pose proof (constructor_step (c_scope c) (c_id c) (c_props c)
                  (constructAll calls initial)) as Hstep. cbv zeta in Hstep.
    pose proof (cache_keys calls) as Hkeys.
    destruct (fst (constructor (c_scope c) (c_id c) (c_props c)
                     (constructAll calls initial))); cbn [isThrow].
    + destruct Hstep as (stack & Hstack & Hstep).
      cbn [omap list_omap]. unfold stackIdOf at 2. rewrite Hstack.
      cbn [fmap option_fmap option_map].
      rewrite reverse_app, reverse_singleton. cbn [app remove_dups].
      specialize (Hkeys (stackNodeId stack)).
      destruct (serviceTokens (constructAll calls initial) !! stackNodeId stack)
        as [cached|] eqn:Hcache.
      * destruct Hstep as (_ & _ & Hprov & _). rewrite Hprov, IH.
        case_decide as Hin; [reflexivity|].
        exfalso. apply Hin, elem_of_reverse, Hkeys. eauto.
      * destruct Hstep as (_ & _ & Hprov & _). rewrite Hprov, fmap_app, IH.
        case_decide as Hin.
        -- exfalso. apply elem_of_reverse, Hkeys in Hin. destruct Hin as [x Hx].
           discriminate Hx.
        -- rewrite reverse_cons. reflexivity.
    + destruct Hstep as (_ & _ & Hprov & _). rewrite Hprov, IH.
      cbn [omap list_omap]. rewrite (right_id_L [] (++)). reflexivity.
  - split.
    + induction calls as [|c calls IH] using rev_ind; [reflexivity|].
      rewrite constructAll_app, completed_app, length_app.
      cbn [constructAll fold_left completed]. rewrite (right_id_L [] (++)).
      pose proof (constructor_step (c_scope c) (c_id c) (c_props c)
                    (constructAll calls initial)) as Hstep. cbv zeta in Hstep.
      destruct (fst (constructor (c_scope c) (c_id c) (c_props c)
                       (constructAll calls initial))); cbn [isThrow length].
      * destruct Hstep as (stack & Hstack & Hstep).
        destruct (serviceTokens (constructAll calls initial) !! stackNodeId stack);
          destruct Hstep as (_ & _ & _ & Htok & _);
          rewrite Htok, length_app, IH; reflexivity.
      * destruct Hstep as (_ & _ & _ & Htok & _). rewrite Htok, IH. lia.
    + assert (Hall : Forall (fun c => is_Some (stackIdOf c)) (completed calls initial)).
      { apply Forall_forall. intros c Hc. apply completed_in_stack in Hc as [s Hs].
        unfold stackIdOf. rewrite Hs. eauto. }
      induction Hall as [|c l [k Hk] _ IH]; [reflexivity|].
      cbn [omap list_omap]. rewrite Hk. cbn [length]. rewrite IH. reflexivity.
Qed.

(** X14.  The cache is keyed by the node id of the stack, not by the
    stack: a call in a stack in which no call was made yet, after a
    construction that completed in another stack with the same node id,
    completes and builds no provider.  Its custom resource gets a
    provider of another stack, and its own stack has none. *)
Theorem stacks_with_the_same_node_id_share_a_provider (before : list Construction)
    (c : Construction) (stack : Stack) :
  enclosingStack (c_scope c) = Some stack ->
  (exists c' s', c' ∈ completed before initial /\
                 enclosingStack (c_scope c') = Some s' /\
                 stackNodeId s' = stackNodeId stack) ->
  (forall c', c' ∈ before -> enclosingStack (c_scope c') <> Some stack) ->
  let st := constructAll before initial in
  let result := constructor (c_scope c) (c_id c) (c_props c) st in
  let st' := snd result in
  isThrow (fst result) = false /\
  exists p,
    tokensOf (tree st') = tokensOf (tree st) ++ [p] /\
    providersOf (tree st') = providersOf (tree st) /\
    stackNodeId (providerStack p) = stackNodeId stack /\
    providerStack p <> stack /\
    providersIn stack st' = [].
Proof.
  intros Hstack Hsame Hfresh st result st'.
  assert (Hcache : is_Some (serviceTokens st !! stackNodeId stack)).
  { apply cache_keys, elem_of_stackIds. exact Hsame. }
  destruct Hcache as [cached Hcache].
  assert (Hdone : isThrow (fst result) = false).
  { apply not_true_is_false. intros Hthrow.
    apply constructor_throws in Hthrow as [Hdup|[Hnone|(s & Hs & Hmiss & _)]].
    - apply (children_stacks before) in Hdup as (c' & Hc' & Hs).
      apply (Hfresh c' Hc'). rewrite <- Hs. exact Hstack.
    - rewrite Hstack in Hnone. discriminate Hnone.
    - rewrite Hstack in Hs. injection Hs as <-. fold st in Hmiss. congruence. }
  split; [exact Hdone|].
  pose proof (constructor_step (c_scope c) (c_id c) (c_props c) st) as Hstep.
  cbv zeta in Hstep. fold result in Hstep. fold st' in Hstep.
  destruct (fst result); [|discriminate Hdone].
  destruct Hstep as (s & Hs & Hstep). rewrite Hstack in Hs. injection Hs as <-.
  rewrite Hcache in Hstep. destruct Hstep as (_ & _ & Hprov & Htok & _).
  destruct (cacheOk_all before initial cacheOk_initial) as (_ & Hentries & _).
  destruct (Hentries _ _ Hcache) as [Hbuilt Hid].
  assert (Hstacks : forall p, p ∈ providersOf (tree st) -> providerStack p <> stack).
  { intros p Hp Heq. destruct (provider_stacks before p Hp) as (c' & Hc' & Hs).
    apply (Hfresh c' Hc'). rewrite Hs, Heq. reflexivity. }
  exists cached. split; [exact Htok|]. split; [exact Hprov|]. split; [exact Hid|].
  split; [apply Hstacks, Hbuilt|].
  unfold providersIn. rewrite Hprov.
  destruct (filter (fun p => providerStack p = stack) (providersOf (tree st)))
    as [|p rest] eqn:Hfilter; [reflexivity|].
  assert (Hp : p ∈ filter (fun p => providerStack p = stack) (providersOf (tree st)))
    by (rewrite Hfilter; apply elem_of_cons; auto).
  apply list_elem_of_filter in Hp as [Heq Hp]. exfalso. exact (Hstacks p Hp Heq).
Qed.

Lemma stacks_with_the_same_node_id_share_a_provider_witness :
  let st := constructAll [constructionInStageA] initial in
  let st' := snd (constructor (c_scope constructionInStageB) (c_id constructionInStageB)
                    (c_props constructionInStageB) st) in
  stackOfStageA <> stackOfStageB /\
  exists p, tokensOf (tree st') = tokensOf (tree st) ++ [p] /\
            providerStack p <> stackOfStageB.
Proof.
  cbv zeta. split; [discriminate|].
  destruct (stacks_with_the_same_node_id_share_a_provider
              [constructionInStageA] constructionInStageB stackOfStageB eq_refl)
    as (_ & p & Htok & _ & _ & Hother & _).
  - exists constructionInStageA, stackOfStageA.
    split; [apply list_elem_of_In; vm_compute; left; reflexivity|].
    split; reflexivity.
  - intros c' Hc'. apply list_elem_of_singleton in Hc'. subst c'. discriminate.
  - exists p. split; [exact Htok|exact Hother].
Defined.

(** What one construction adds to the tree. *)
Lemma constructor_tree (scope : Construct) (id : string)
    (props : DynamoDBProvisionTableProps) (st : State) :
  let result := constructor scope id props st in
  let st' := snd result in
  let this := path scope +:+ "/" +:+ id in
  match fst result with
  | Throw _ => tree st' = tree st \/ tree st' = tree st ++ [NewConstruct (path scope) id]
  | Normal _ =>
      exists stack p framework,
        enclosingStack scope = Some stack /\
        serviceTokens st' !! stackNodeId stack = Some p /\
        (framework = [] \/
         exists fnProps,
           framework = [NewConstruct (path scope) ("Cr" +:+ className);
                        NewSecureFunction (path scope +:+ "/" +:+ "Cr" +:+ className)
                                          "OnEvent" fnProps;
                        NewProvider p]) /\
        tree st' =
          tree st ++ NewConstruct (path scope) id :: framework ++
          [NewPolicy this "Permissions";
           GrantReadWriteData (resource (table props)) (this +:+ "/Permissions")] ++
          match table_encryption (table props) with
          | Some key => [GrantEncryptDecrypt key (this +:+ "/Permissions")]
          | None => []
          end ++
          [AttachInlinePolicy (onEventHandler p +:+ "/Role") (this +:+ "/Permissions");
           NewCustomResource this "DynamoDBProvisionTable" p
             (createCustomResourceProperties props) "Custom::DynamoDBProvisionTable"]
  end.
Proof.
  cbv zeta. rewrite provision_constructor_run, getOrBuildProvider_run.
  cbn [serviceTokens nextObj tree children].
  case_bool_decide as Hdup; [cbn [fst snd]; auto|].
  destruct (enclosingStack scope) as [stack|]; [|cbn [fst snd tree]; auto].
  destruct (serviceTokens st !! stackNodeId stack) as [cached|] eqn:Hcache.
  - exists stack, cached, []. cbn [snd serviceTokens tree]. split; [reflexivity|].
    split; [exact Hcache|]. split; [auto|]. rewrite <- !(assoc_L (++)). reflexivity.
  - case_bool_decide as Hcr; cbv zeta; cbn [fst snd serviceTokens tree]; [auto|].
    exists stack. eexists _, _. split; [reflexivity|].
    split; [apply lookup_insert_eq|]. split; [right; eauto|].
    rewrite <- !(assoc_L (++)). reflexivity.
Qed.

Lemma constructor_tree_grows (scope : Construct) (id : string)
    (props : DynamoDBProvisionTableProps) (st : State) :
  exists added, tree (snd (constructor scope id props st)) = tree st ++ added.
Proof.
  pose proof (constructor_tree scope id props st) as H. cbv zeta in H.
  destruct (fst (constructor scope id props st)).
  - destruct H as (stack & p & framework & _ & _ & _ & H). eauto.
  - destruct H as [H|H]; [exists []; rewrite (right_id_L [] (++))|eauto]; exact H.
Qed.

(** X15.  Every custom resource in the tree was built by one of the
    constructions, below the node of that construction, with the
    properties made from the properties of the construction.  Its
    service token is a provider that was built, the entry of the cache
    for the node id of the stack of the construction; the policy of
    the construction exists, is granted access to the table, and to
    the key of the table when there is one, and is attached to the
    role of that provider's handler. *)
Theorem custom_resources_are_wired (calls : list Construction)
    (scope id : string) (p : Provider) (properties : ResourceProperties)
    (resourceType : string) :
  let final := constructAll calls initial in
  NewCustomResource scope id p properties resourceType ∈ tree final ->
  id = "DynamoDBProvisionTable" /\
  resourceType = "Custom::DynamoDBProvisionTable" /\
  p ∈ providersOf (tree final) /\
  NewPolicy scope "Permissions" ∈ tree final /\
  AttachInlinePolicy (onEventHandler p +:+ "/Role") (scope +:+ "/Permissions")
    ∈ tree final /\
  exists c stack,
    c ∈ calls /\
    enclosingStack (c_scope c) = Some stack /\
    scope = path (c_scope c) +:+ "/" +:+ c_id c /\
    properties = createCustomResourceProperties (c_props c) /\
    serviceTokens final !! stackNodeId stack = Some p /\
    GrantReadWriteData (resource (table (c_props c))) (scope +:+ "/Permissions")
      ∈ tree final /\
    (forall key, table_encryption (table (c_props c)) = Some key ->
       GrantEncryptDecrypt key (scope +:+ "/Permissions") ∈ tree final).
Proof.
  cbv zeta. induction calls as [|c calls IH] using rev_ind; intros Hin.
  - inversion Hin.
  - pose proof (cacheOk_all (calls ++ [c]) initial cacheOk_initial)
      as (_ & Hentries & _).
    rewrite constructAll_app in Hin, Hentries |- *.
    cbn [constructAll fold_left] in Hin, Hentries |- *.
    set (st := constructAll calls initial) in *.
    set (st' := snd (constructor (c_scope c) (c_id c) (c_props c) st)) in *.
    destruct (constructor_tree_grows (c_scope c) (c_id c) (c_props c) st)
      as [added Hgrows].
    fold st' in Hgrows.
    assert (Hmono : forall e, e ∈ tree st -> e ∈ tree st')
      by (intros e He; rewrite Hgrows, elem_of_app; auto).
    pose proof (constructor_tree (c_scope c) (c_id c) (c_props c) st) as Htree.
    cbv zeta in Htree. fold st' in Htree.
    assert (Hold : NewCustomResource scope id p properties resourceType ∈ tree st ->
                   id = "DynamoDBProvisionTable" /\
                   resourceType = "Custom::DynamoDBProvisionTable" /\
                   p ∈ providersOf (tree st') /\
                   NewPolicy scope "Permissions" ∈ tree st' /\
                   AttachInlinePolicy (onEventHandler p +:+ "/Role")
                     (scope +:+ "/Permissions") ∈ tree st' /\
                   exists c0 stack,
                     c0 ∈ calls ++ [c] /\
                     enclosingStack (c_scope c0) = Some stack /\
                     scope = path (c_scope c0) +:+ "/" +:+ c_id c0 /\
                     properties = createCustomResourceProperties (c_props c0) /\
                     serviceTokens st' !! stackNodeId stack = Some p /\
                     GrantReadWriteData (resource (table (c_props c0)))
                       (scope +:+ "/Permissions") ∈ tree st' /\
                     (forall key, table_encryption (table (c_props c0)) = Some key ->
                        GrantEncryptDecrypt key (scope +:+ "/Permissions") ∈ tree st')).
    { intros H. destruct (IH H)
        as (Hid & Hty & Hp & Hpol & Hatt & c0 & stack & Hc0 & Hs & Hscope & Hprops &
            Htok & Hgrant & Hkey).
      split; [exact Hid|]. split; [exact Hty|].
      split; [rewrite Hgrows, providersOf_app, elem_of_app; auto|].
      split; [auto|]. split; [auto|]. exists c0, stack.
      split; [rewrite elem_of_app; auto|]. split; [exact Hs|]. split; [exact Hscope|].
      split; [exact Hprops|].
      split; [apply serviceTokens_stable_step, Htok|]. split; [auto|].
      intros key Hk. auto. }
    destruct (fst (constructor (c_scope c) (c_id c) (c_props c) st)).
    + destruct Htree as (stack & q & framework & Hstack & Hq & Hframework & Htree).
      rewrite Htree in Hin. apply elem_of_app in Hin as [Hin|Hin]; [auto|].
      assert (Hnew : NewCustomResource scope id p properties resourceType =
                     NewCustomResource (path (c_scope c) +:+ "/" +:+ c_id c)
                       "DynamoDBProvisionTable" q
                       (createCustomResourceProperties (c_props c))
                       "Custom::DynamoDBProvisionTable").
      { clear -Hin Hframework.
        rewrite elem_of_cons, !elem_of_app, !elem_of_cons, elem_of_nil in Hin.
        destruct Hin as [H|[H|[[H|[H|[]]]|[H|[H|[H|[]]]]]]]; try discriminate H.
        - destruct Hframework as [->|[fnProps ->]]; [inversion H|].
          rewrite !elem_of_cons, elem_of_nil in H.
          destruct H as [H|[H|[H|[]]]]; discriminate H.
        - destruct (table_encryption (table (c_props c))); [|inversion H].
          rewrite elem_of_cons, elem_of_nil in H. destruct H as [H|[]]. discriminate H.
        - exact H. }
      injection Hnew as -> -> -> -> ->.
      split; [reflexivity|]. split; [reflexivity|].
      split; [apply (Hentries _ _ Hq)|].
      assert (Hadded : forall e,
                 e ∈ [NewPolicy (path (c_scope c) +:+ "/" +:+ c_id c) "Permissions";
                      GrantReadWriteData (resource (table (c_props c)))
                        ((path (c_scope c) +:+ "/" +:+ c_id c) +:+ "/Permissions")] ++
                     match table_encryption (table (c_props c)) with
                     | Some key =>
                         [GrantEncryptDecrypt key
                            ((path (c_scope c) +:+ "/" +:+ c_id c) +:+ "/Permissions")]
                     | None => []
                     end ++
                     [AttachInlinePolicy (onEventHandler q +:+ "/Role")
                        ((path (c_scope c) +:+ "/" +:+ c_id c) +:+ "/Permissions")] ->
                 e ∈ tree st').
      { intros e He. rewrite Htree. apply elem_of_app. right.
        apply elem_of_cons. right. apply elem_of_app. right.
        rewrite !elem_of_app in He. rewrite !elem_of_app.
        destruct He as [He|[He|He]]; auto.
        right. right. apply elem_of_cons. left.
        apply list_elem_of_singleton in He. exact He. }
      split; [apply Hadded; rewrite elem_of_app, elem_of_cons; auto|].
      split; [apply Hadded; rewrite !elem_of_app, list_elem_of_singleton; auto|].
      exists c, stack. split; [rewrite elem_of_app, list_elem_of_singleton; auto|].
      split; [exact Hstack|]. split; [reflexivity|]. split; [reflexivity|].
      split; [exact Hq|].
      split; [apply Hadded; rewrite elem_of_app, !elem_of_cons; auto|].
      intros key Hkey. apply Hadded. rewrite Hkey, !elem_of_app, list_elem_of_singleton.
      auto.
    + destruct Htree as [Htree|Htree]; rewrite Htree in Hin; [auto|].
      apply elem_of_app in Hin as [Hin|Hin]; [auto|].
      apply list_elem_of_singleton in Hin. discriminate Hin.
Qed.

Lemma custom_resources_are_wired_witness :
  let final := constructAll [constructionInStageA] initial in
  let p := built (c_scope constructionInStageA) stackOfStageA initial in
  p ∈ providersOf (tree final) /\
  serviceTokens final !! "Database" = Some p.
Proof.
  cbv zeta.
  assert (Hin : NewCustomResource "StageA/Database/Provision" "DynamoDBProvisionTable"
                  (built (c_scope constructionInStageA) stackOfStageA initial)
                  (createCustomResourceProperties sampleProps)
                  "Custom::DynamoDBProvisionTable"
                ∈ tree (constructAll [constructionInStageA] initial)).
  { apply list_elem_of_In. vm_compute. repeat first [left; reflexivity|right]. }
  destruct (custom_resources_are_wired [constructionInStageA] _ _ _ _ _ Hin)
    as (_ & _ & Hp & _ & _ & c & stack & Hc & Hstack & _ & _ & Htok & _).
  split; [exact Hp|].
  apply list_elem_of_singleton in Hc. subst c. injection Hstack as <-. exact Htok.
Defined.

End DynamoDBProvisionTableMore.
